(** * rawparser: TIFF/IFD decoding of camera RAW files (CR2, NEF)

    A shallow embedding of the Go package [rawparser]
    (tiffutils.go, rawparser.go, cr2parser.go, nefparser.go) and the
    properties of its binary decoding engine.

    Conventions of the embedding:
    - [uint16], [uint32], [int64] values are [Z] with the wrap-around of the
      Go operation written out ([wrap16], [wrap32]);
    - a [[]byte] is a [list byte]; a Go [string] is a [string] (a byte
      sequence);
    - a Go run-time panic (index or slice out of range) is the [Panicked]
      outcome of the [exec] monad; a Go [error] value is an [option error]
      returned next to the result, exactly as the Go functions return it;
    - [float64] is the primitive binary64 type [float]. *)

From Stdlib Require Import ZArith List Bool Lia Floats Uint63.
From Stdlib.Strings Require Import String Ascii Byte.
From Stdlib Require FMapList FMapFacts OrderedTypeEx.
Import ListNotations.
Local Open Scope Z_scope.

(** ** Go run time: panics *)

Inductive panic : Type :=
| IndexOutOfRange (i len : nat)
| SliceBoundsOutOfRange (i len : nat)
| MakeSliceLenOutOfRange (len : Z).

Inductive exec (A : Type) : Type :=
| Done (a : A)
| Panicked (p : panic).
Arguments Done {A} a.
Arguments Panicked {A} p.

Definition bind {A B : Type} (m : exec A) (k : A -> exec B) : exec B :=
  match m with
  | Done a => k a
  | Panicked p => Panicked p
  end.

Notation "x <- m ;; k" := (bind m (fun x => k))
  (at level 61, m at next level, right associativity).
Notation "' pat <- m ;; k" :=
  (bind m (fun x => match x with pat => k end))
  (at level 61, pat pattern, m at next level, right associativity).

(** ** Fixed-width integers *)

Definition wrap16 (z : Z) : Z := z mod 2 ^ 16.
Definition wrap32 (z : Z) : Z := z mod 2 ^ 32.

(** [int64] addition. *)
Definition wrap_i64 (z : Z) : Z := (z + 2 ^ 63) mod 2 ^ 64 - 2 ^ 63.
Definition add_i64 (a b : Z) : Z := wrap_i64 (a + b).

(** [uintN(b)] for a byte [b]. *)
Definition u8 (b : byte) : Z := Z.of_N (Byte.to_N b).

(** ** Slices *)

(** [buf[i]] *)
Definition index {A : Type} (buf : list A) (i : nat) : exec A :=
  match nth_error buf i with
  | Some b => Done b
  | None => Panicked (IndexOutOfRange i (List.length buf))
  end.

(** [s[i]] on a string: the byte at position [i]. *)
Definition str_index (s : string) (i : nat) : exec ascii :=
  match String.get i s with
  | Some c => Done c
  | None => Panicked (IndexOutOfRange i (String.length s))
  end.

(** [buf[0:n]] (the slices of this package have capacity = length) *)
Definition slice_to (buf : list byte) (n : nat) : exec (list byte) :=
  if (n <=? List.length buf)%nat then Done (firstn n buf)
  else Panicked (SliceBoundsOutOfRange n (List.length buf)).

(** [buf[n:]] *)
Definition slice_from (buf : list byte) (n : nat) : exec (list byte) :=
  if (n <=? List.length buf)%nat then Done (skipn n buf)
  else Panicked (SliceBoundsOutOfRange n (List.length buf)).

(** ** Errors *)

Inductive error : Type :=
| EOF                                   (* io.EOF, from a short ReadAt *)
| NegativeOffset                        (* ReadAt with off < 0 *)
| ShortRead (bytesRead expected : Z)    (* "read %d bytes; expected %d" *)
| InvalidJpegLength (len : Z)           (* "invalid jpeg length: %d" *)
| DateTimeInvalid (s : string)          (* "dateTime string invalid: '%s'" *)
| DateTimeFormat (d t : string)         (* "invalid date and/or time ..." *)
| InvalidMonth (token : string)         (* "invalid month: '%s'" *)
| ParseError (value : string) (msg : string) (* *time.ParseError *)
| External (msg : string).              (* os.Open, image codec *)

(** ** tiffutils.go *)

Definition bytesToUShort (isHostLittleEndian isBigEndian : bool)
    (buf : list byte) : exec Z :=
  if isBigEndian && isHostLittleEndian then
    b0 <- index buf 0 ;;
    b1 <- index buf 1 ;;
    Done (Z.lor (wrap16 (Z.shiftl (u8 b0) 8)) (Z.land (u8 b1) 0xFF))
  else
    b1 <- index buf 1 ;;
    b0 <- index buf 0 ;;
    Done (Z.lor (wrap16 (Z.shiftl (u8 b1) 8)) (Z.land (u8 b0) 0xFF)).

Definition bytesToUInt (isHostLittleEndian isBigEndian : bool)
    (buf : list byte) : exec Z :=
  lo <- slice_to buf 2 ;;
  a <- bytesToUShort isHostLittleEndian isBigEndian lo ;;
  hi <- slice_from buf 2 ;;
  b <- bytesToUShort isHostLittleEndian isBigEndian hi ;;
  if isBigEndian && isHostLittleEndian then
    Done (Z.lor (wrap32 (Z.shiftl a 16)) (Z.land b 0xFFFF))
  else
    Done (Z.lor (wrap32 (Z.shiftl b 16)) (Z.land a 0xFFFF)).

Definition bytesToASCIIString (bytes : list byte) : string :=
  string_of_list_byte bytes.

(** An open [*os.File]: the path it was opened with and its contents. *)
Record os_File : Type := mkFile { Name : string; contents : list byte }.

(** [f.ReadAt(cache, off)] on a freshly made (zeroed) [cache] of [n] bytes:
    the cache afterwards, the number of bytes read and the error.  A read
    that reaches the end of the file leaves the tail of the cache zeroed
    and reports [io.EOF]. *)
Definition ReadAt (f : os_File) (n : nat) (off : Z)
    : list byte * Z * option error :=
  if off <? 0 then (repeat x00 n, 0, Some NegativeOffset)
  else
    let got := firstn n (skipn (Z.to_nat off) (contents f)) in
    (got ++ repeat x00 (n - List.length got),
     Z.of_nat (List.length got),
     if (List.length got <? n)%nat then Some EOF else None).

Definition readField (offset : Z) (bytesToRead : Z) (f : os_File)
    : list byte * option error :=
  let '(cache, bytesRead, err) := ReadAt f (Z.to_nat bytesToRead) offset in
  if negb (bytesRead =? bytesToRead)
  then (cache, Some (ShortRead bytesRead bytesToRead))
  else (cache, err).

(** One 12-byte directory record. *)
Record ifdEntry : Type := mkIfdEntry {
  tag : Z;          (* uint16 *)
  fieldType : Z;    (* uint16 *)
  count : Z;        (* uint32 *)
  valueOffset : Z   (* uint32 *)
}.

(** The body of the [for i := 0; i < int(entries); i++] loop of
    [processIfd], run [n] more times.  [err] is the function's [err]
    variable as it stands when the loop condition is tested. *)
Fixpoint processIfd_loop (isHostLe isFileBe : bool) (f : os_File) (n : nat)
    (offset : Z) (l : list ifdEntry) (err : option error)
    : exec (list ifdEntry * option error) :=
  match n with
  | O => Done (l, err)
  | S n' =>
      (* tag *)
      let '(bytes, err) := readField offset 2 f in
      match err with
      | Some _ => Done (l, err)
      | None =>
      tg <- bytesToUShort isHostLe isFileBe bytes ;;
      let offset := add_i64 offset 2 in
      (* type *)
      let '(bytes, err) := readField offset 2 f in
      match err with
      | Some _ => Done (l, err)
      | None =>
      ty <- bytesToUShort isHostLe isFileBe bytes ;;
      let offset := add_i64 offset 2 in
      (* count *)
      let '(bytes, err) := readField offset 4 f in
      match err with
      | Some _ => Done (l, err)
      | None =>
      cnt <- bytesToUInt isHostLe isFileBe bytes ;;
      let offset := add_i64 offset 4 in
      (* value offset *)
      let '(bytes, err) := readField offset 4 f in
      match err with
      | Some _ => Done (l, err)
      | None =>
      vo <- bytesToUInt isHostLe isFileBe bytes ;;
      let offset := add_i64 offset 4 in
      processIfd_loop isHostLe isFileBe f n' offset
        (l ++ [mkIfdEntry tg ty cnt vo]) err
      end end end end
  end.

Definition processIfd (isHostLe isFileBe : bool) (offset : Z) (f : os_File)
    : exec (list ifdEntry * option error) :=
  let l := [] in
  (* entries *)
  let '(bytes, err) := readField offset 2 f in
  entries <- bytesToUShort isHostLe isFileBe bytes ;;
  let offset := add_i64 offset 2 in
  processIfd_loop isHostLe isFileBe f (Z.to_nat entries) offset l err.

(** [float64(x)] for a [uint32] [x]. *)
Definition float64_of_uint32 (x : Z) : float :=
  PrimFloat.of_uint63 (Uint63.of_Z x).

Definition processRationalEntry (isHostLe isFileBe : bool) (offset : Z)
    (f : os_File) : exec (Z * Z * float * option error) :=
  (* numerator *)
  let '(bytes, err) := readField offset 4 f in
  num <- bytesToUInt isHostLe isFileBe bytes ;;
  (* denominator *)
  let '(bytes, err) := readField (add_i64 offset 4) 4 f in
  den <- bytesToUInt isHostLe isFileBe bytes ;;
  let r := if 0 <? den then float64_of_uint32 (num / den) else 0%float in
  Done (num, den, r, err).

Definition processASCIIEntry (entry : ifdEntry) (f : os_File)
    : string * option error :=
  let '(bytes, err) := readField (valueOffset entry) (count entry) f in
  (bytesToASCIIString bytes, err).

Definition processShortValue (isFileBe : bool) (val : Z) : Z :=
  let msb := Z.shiftr val 16 in
  let lsb := Z.land val 0x0000FFFF in
  if isFileBe then wrap16 msb else wrap16 lsb.

(** ** Go standard library: [strings.Split] and [time.Parse]

    The two library functions [parseDateTime] calls.  [strings_Split] is
    [strings.Split] for a one-byte separator.  [time_Parse] is
    [time.Parse] for the one layout the package uses,
    ["02 Jan 06 15:04"], following time/format.go of the current Go
    releases chunk by chunk: a fixed two-digit day, the three-letter
    month matched without regard to case, a two-byte year read by [atoi]
    (69..99 are 19xx, the rest 20xx), an hour of one or two digits, a
    fixed two-digit minute, no text left over, and the day checked
    against the length of the month. *)

Fixpoint strings_Split (s : string) (sep : ascii) : list string :=
  match s with
  | EmptyString => [EmptyString]
  | String c s' =>
      if Ascii.eqb c sep then EmptyString :: strings_Split s' sep
      else match strings_Split s' sep with
           | tok :: rest => String c tok :: rest
           | [] => [String c EmptyString]
           end
  end.

(** A [time.Time] in UTC, by its civil fields. *)
Record Time : Type := mkTime {
  year : Z; month : Z; day : Z; hour : Z; minute : Z; second : Z
}.

(** [time.Time{}]: January 1, year 1, 00:00:00 UTC. *)
Definition zeroTime : Time := mkTime 1 1 1 0 0 0.

Definition byte_val (c : ascii) : Z := Z.of_N (N_of_ascii c).

Definition is_digit (c : ascii) : bool :=
  (48 <=? byte_val c) && (byte_val c <=? 57).

Definition digit_val (c : ascii) : Z := byte_val c - 48.

Definition isDigit (s : string) (i : nat) : bool :=
  match String.get i s with
  | Some c => is_digit c
  | None => false
  end.

(** [getnum]: [None] is [errBad]. *)
Definition getnum (s : string) (fixed : bool) : option (Z * string) :=
  if negb (isDigit s 0) then None
  else if negb (isDigit s 1) then
    if fixed then None
    else match s with
         | String c s' => Some (digit_val c, s')
         | EmptyString => None
         end
  else match s with
       | String c0 (String c1 s') =>
           Some (digit_val c0 * 10 + digit_val c1, s')
       | _ => None
       end.

Fixpoint cutspace (s : string) : string :=
  match s with
  | String c s' => if Ascii.eqb c " " then cutspace s' else s
  | EmptyString => s
  end.

(** [skip(value, " ")] *)
Definition skip_space (value : string) : option string :=
  match value with
  | String c _ => if negb (Ascii.eqb c " ") then None else Some (cutspace value)
  | EmptyString => Some (cutspace value)
  end.

(** [skip(value, p)] for a one-byte prefix [p] other than a space. *)
Definition skip_byte (p : ascii) (value : string) : option string :=
  match value with
  | String c value' => if Ascii.eqb c p then Some value' else None
  | EmptyString => None
  end.

Definition to_lower (c : ascii) : Z := Z.lor (byte_val c) 32.

(** [match(s1, s2)]: equality of two strings of one length, letters
    compared without regard to case. *)
Fixpoint match_fold (s1 s2 : string) : bool :=
  match s1, s2 with
  | String c1 r1, String c2 r2 =>
      if Ascii.eqb c1 c2 then match_fold r1 r2
      else if negb (to_lower c1 =? to_lower c2)
              || (to_lower c1 <? 97) || (122 <? to_lower c1)
           then false
           else match_fold r1 r2
  | _, _ => true
  end.

Definition shortMonthNames : list string :=
  ["Jan"; "Feb"; "Mar"; "Apr"; "May"; "Jun";
   "Jul"; "Aug"; "Sep"; "Oct"; "Nov"; "Dec"]%string.

Fixpoint lookup (tab : list string) (i : Z) (val : string)
    : option (Z * string) :=
  match tab with
  | [] => None
  | v :: tab' =>
      if (String.length v <=? String.length val)%nat
         && match_fold (substring 0 (String.length v) val) v
      then Some (i, substring (String.length v)
                      (String.length val - String.length v) val)
      else lookup tab' (i + 1) val
  end.

(** [leadingInt]: the leading decimal digits of [s], accumulated on [x]. *)
Fixpoint leadingInt (s : string) (x : Z) : option (Z * string) :=
  match s with
  | String c s' =>
      if negb (is_digit c) then Some (x, s)
      else if 2 ^ 63 / 10 <? x then None
      else let x := x * 10 + digit_val c in
           if 2 ^ 63 <? x then None else leadingInt s' x
  | EmptyString => Some (x, s)
  end.

Definition atoi (s : string) : option Z :=
  let '(neg, s) :=
    match s with
    | String c s' =>
        if Ascii.eqb c "-" || Ascii.eqb c "+" then (Ascii.eqb c "-", s')
        else (false, s)
    | EmptyString => (false, s)
    end in
  match leadingInt s 0 with
  | Some (q, EmptyString) => Some (if neg then - q else q)
  | _ => None
  end.

Definition isLeap (y : Z) : bool :=
  (y mod 4 =? 0) && (negb (y mod 100 =? 0) || (y mod 400 =? 0)).

Definition daysIn (m y : Z) : Z :=
  if m =? 2 then (if isLeap y then 29 else 28)
  else 30 + Z.land (m + Z.shiftr m 3) 1.

Definition time_Parse (value : string) : Time * option error :=
  let bad (v msg : string) := (zeroTime, Some (ParseError v msg)) in
  (* "02" *)
  match getnum value true with
  | None => bad value EmptyString
  | Some (d, value) =>
  match skip_space value with
  | None => bad value EmptyString
  | Some value =>
  (* "Jan" *)
  match lookup shortMonthNames 0 value with
  | None => bad value EmptyString
  | Some (m0, value) =>
  let m := m0 + 1 in
  match skip_space value with
  | None => bad value EmptyString
  | Some value =>
  (* "06" *)
  if (String.length value <? 2)%nat then bad value EmptyString else
  match atoi (substring 0 2 value) with
  | None => bad value EmptyString
  | Some y =>
  let value := substring 2 (String.length value - 2) value in
  let y := if 69 <=? y then y + 1900 else y + 2000 in
  match skip_space value with
  | None => bad value EmptyString
  | Some value =>
  (* "15" *)
  match getnum value false with
  | None => bad value EmptyString
  | Some (h, value) =>
  if (h <? 0) || (24 <=? h) then bad value ": hour out of range"%string else
  match skip_byte ":" value with
  | None => bad value EmptyString
  | Some value =>
  (* "04" *)
  match getnum value true with
  | None => bad value EmptyString
  | Some (mi, value) =>
  if (mi <? 0) || (60 <=? mi) then bad value ": minute out of range"%string else
  match value with
  | String _ _ => bad value ": extra text"%string
  | EmptyString =>
  if (d <? 1) || (daysIn m y <? d) then bad value ": day out of range"%string
  else (mkTime y m d h mi 0, None)
  end end end end end end end end end end.

(** [string(b)] for a byte [b]: the UTF-8 encoding of the code point
    [b], two bytes from 0x80 on. *)
Definition string_of_byte (c : ascii) : string :=
  let n := N_of_ascii c in
  if (n <? 128)%N then String c EmptyString
  else String (ascii_of_N (192 + n / 64))
         (String (ascii_of_N (128 + n mod 64)) EmptyString).

(** ** rawparser.go *)

Record jpegInfo : Type := mkJpegInfo {
  orientation : float;
  offset : Z; length : Z;            (* int64 *)
  xRes : Z; yRes : Z;                (* uint32 *)
  xResFloat : float; yResFloat : float
}.

Definition zero_jpegInfo : jpegInfo := mkJpegInfo 0 0 0 0 0 0 0.

Record RawFileInfo : Type := mkRawFileInfo {
  File : string;
  DestDir : string;
  Quality : Z;
  NumOfChannels : Z
}.

Record RawFile : Type := mkRawFile {
  CreateDate : Time;
  FileName : string;
  JpegPath : string;
  JpegOrientation : float
}.

(** [new(RawFile)] *)
Definition zero_RawFile : RawFile :=
  mkRawFile zeroTime EmptyString EmptyString 0.

Definition toRfc822Date (dateTokens : list string)
    : exec (string * option error) :=
  token <- index dateTokens 1 ;;
  Done
    (if String.eqb token "01" then ("Jan", None)
     else if String.eqb token "02" then ("Feb", None)
     else if String.eqb token "03" then ("Mar", None)
     else if String.eqb token "04" then ("Apr", None)
     else if String.eqb token "05" then ("May", None)
     else if String.eqb token "06" then ("Jun", None)
     else if String.eqb token "07" then ("Jul", None)
     else if String.eqb token "08" then ("Aug", None)
     else if String.eqb token "09" then ("Sep", None)
     else if String.eqb token "10" then ("Oct", None)
     else if String.eqb token "11" then ("Nov", None)
     else if String.eqb token "12" then ("Dec", None)
     else (EmptyString, Some (InvalidMonth token)))%string.

Definition parseDateTime (s : string) : exec (Time * option error) :=
  let t := zeroTime in
  let split := strings_Split s " " in
  if negb (List.length split =? 2)%nat then
    Done (t, Some (DateTimeInvalid s))
  else
    dateToken <- index split 0 ;;
    timeToken <- index split 1 ;;
    let dateTokens := strings_Split dateToken ":" in
    let timeTokens := strings_Split timeToken ":" in
    if (List.length dateTokens =? 3)%nat && (List.length timeTokens =? 3)%nat
    then
      '(montStr, err) <- toRfc822Date dateTokens ;;
      match err with
      | Some _ => Done (t, err)
      | None =>
          dd <- index dateTokens 2 ;;
          yr <- index dateTokens 0 ;;
          y2 <- str_index yr 2 ;;
          yr <- index dateTokens 0 ;;
          y3 <- str_index yr 3 ;;
          let dateStr :=
            (dd ++ " " ++ montStr ++ " "
                ++ string_of_byte y2 ++ string_of_byte y3)%string in
          hh <- index timeTokens 0 ;;
          mm <- index timeTokens 1 ;;
          let '(t, err) :=
            time_Parse (dateStr ++ " " ++ hh ++ ":" ++ mm)%string in
          match err with
          | Some _ => Done (t, err)
          | None => Done (t, None)
          end
      end
    else Done (t, Some (DateTimeFormat dateToken timeToken)).

(** The extracted-JPEG machinery outside the decoding engine: the file
    system behind [os.Open], [filepath.Base], and the package-level
    [decodeAndWriteJpeg(data, quality, filename)] that the build tag
    selects (jpeggo.go or a native codec). *)
Record World : Type := mkWorld {
  fs : string -> option (list byte);
  filepath_Base : string -> string;
  codec : list byte -> Z -> string -> option error
}.

Definition os_Open (w : World) (name : string) : os_File * option error :=
  match fs w name with
  | Some c => (mkFile name c, None)
  | None => (mkFile EmptyString [], Some (External "open"))
  end.

(** One invocation of the codec collaborator. *)
Record CodecCall : Type := mkCodecCall {
  call_data : list byte;
  call_quality : Z;
  call_filename : string
}.

Definition genExtractedJpegName (w : World) (f : os_File)
    (destDir suffix : string) : string :=
  (destDir ++ filepath_Base w (Name f) ++ suffix)%string.

(** Modelled from the spec: the declaration of [rawParser], the struct
    embedded in [Cr2Parser], is not among the sources; the spec's
    per-parser-instance endianness flag and its use in cr2parser.go
    ([&rawParser{hostIsLittleEndian}], [n.HostIsLittleEndian]) give its
    one field. *)
Record rawParser : Type := mkRawParser { HostIsLittleEndian : bool }.

(** [270 * math.Pi / 180]: the constant expression is evaluated exactly
    and rounded once to [float64]. *)
Definition rotationRads : float := 0x1.2d97c7f3321d2p+2%float.

Definition set_orientation (j : jpegInfo) (v : float) : jpegInfo :=
  mkJpegInfo v (offset j) (length j) (xRes j) (yRes j)
    (xResFloat j) (yResFloat j).
Definition set_offset (j : jpegInfo) (v : Z) : jpegInfo :=
  mkJpegInfo (orientation j) v (length j) (xRes j) (yRes j)
    (xResFloat j) (yResFloat j).
Definition set_length (j : jpegInfo) (v : Z) : jpegInfo :=
  mkJpegInfo (orientation j) (offset j) v (xRes j) (yRes j)
    (xResFloat j) (yResFloat j).
Definition set_xRes (j : jpegInfo) (v : Z) (r : float) : jpegInfo :=
  mkJpegInfo (orientation j) (offset j) (length j) v (yRes j)
    r (yResFloat j).
Definition set_yRes (j : jpegInfo) (v : Z) (r : float) : jpegInfo :=
  mkJpegInfo (orientation j) (offset j) (length j) (xRes j) v
    (xResFloat j) r.

(** The orientation branch, the same text in both tag interpreters. *)
Definition orientation_of (isBigEndian : bool) (valueOffset : Z) : float :=
  let o := processShortValue isBigEndian valueOffset in
  if o =? 8 then rotationRads else 0%float.

(** ** cr2parser.go *)

Module Cr2.

Record cr2Header : Type := mkCr2Header {
  isBigEndian : bool;
  tiffMagicValue : Z;        (* uint16 *)
  cr2MagicValue : string;
  cr2MajorValue : Z;         (* uint8 *)
  cr2MinorValue : Z;         (* uint8 *)
  tiffOffset : Z             (* int64 *)
}.

Record Cr2Parser : Type := mkCr2Parser { parser : rawParser }.

Definition hostLe (n : Cr2Parser) : bool := HostIsLittleEndian (parser n).

Definition processHeader (n : Cr2Parser) (f : os_File)
    : exec (cr2Header * option error) :=
  let h := mkCr2Header false 0 EmptyString 0 0 0 in
  (* byte order *)
  let '(bytes, err) := readField 0 2 f in
  match err with
  | Some _ => Done (h, err)
  | None =>
  byteOrder <- bytesToUShort (hostLe n) false bytes ;;
  let be := byteOrder =? 0x4D4D in
  let h := mkCr2Header be 0 EmptyString 0 0 0 in
  (* TIFF magic value *)
  let '(bytes, err) := readField 2 2 f in
  match err with
  | Some _ => Done (h, err)
  | None =>
  magic <- bytesToUShort (hostLe n) be bytes ;;
  let h := mkCr2Header be magic EmptyString 0 0 0 in
  (* TIFF offset *)
  let '(bytes, err) := readField 4 4 f in
  match err with
  | Some _ => Done (h, err)
  | None =>
  val <- bytesToUInt (hostLe n) be bytes ;;
  let h := mkCr2Header be magic EmptyString 0 0 val in
  (* cr2 magic val *)
  let '(bytes, err) := readField 8 2 f in
  match err with
  | Some _ => Done (h, err)
  | None =>
  let cr2 := bytesToASCIIString bytes in
  let h := mkCr2Header be magic cr2 0 0 val in
  (* cr2 major num *)
  let '(bytes, err) := readField 10 1 f in
  match err with
  | Some _ => Done (h, err)
  | None =>
  b <- index bytes 0 ;;
  let major := u8 b in
  let h := mkCr2Header be magic cr2 major 0 val in
  (* cr2 minor num *)
  let '(bytes, err) := readField 11 1 f in
  match err with
  | Some _ => Done (h, err)
  | None =>
  b <- index bytes 0 ;;
  Done (mkCr2Header be magic cr2 major (u8 b) val, err)
  end end end end end end.

(** The loop over the EXIF directory inside the [0x8769] case. *)
Fixpoint exif_loop (f : os_File) (exifEntries : list ifdEntry)
    (cDate : Time) : exec Time :=
  match exifEntries with
  | [] => Done cDate
  | exifEntry :: rest =>
      if tag exifEntry =? 0x9004 then
        let '(createDate, err) := processASCIIEntry exifEntry f in
        match err with
        | None =>
            '(t, _) <- parseDateTime createDate ;;
            exif_loop f rest t
        | Some _ => exif_loop f rest cDate
        end
      else exif_loop f rest cDate
  end.

(** The loop over the root directory; [err] is the function's named
    result, which the two resolution cases assign. *)
Fixpoint root_loop (n : Cr2Parser) (f : os_File) (h : cr2Header)
    (entries : list ifdEntry) (jpeg : jpegInfo) (cDate : Time)
    (err : option error) : exec (jpegInfo * Time * option error) :=
  match entries with
  | [] => Done (jpeg, cDate, err)
  | entry :: rest =>
      if tag entry =? 0x0111 then
        root_loop n f h rest (set_offset jpeg (valueOffset entry)) cDate err
      else if tag entry =? 0x0112 then
        root_loop n f h rest
          (set_orientation jpeg
             (orientation_of (isBigEndian h) (valueOffset entry)))
          cDate err
      else if tag entry =? 0x0117 then
        root_loop n f h rest (set_length jpeg (valueOffset entry)) cDate err
      else if tag entry =? 0x011a then
        '(num, _, r, err) <-
          processRationalEntry (hostLe n) (isBigEndian h)
            (valueOffset entry) f ;;
        root_loop n f h rest (set_xRes jpeg num r) cDate err
      else if tag entry =? 0x011b then
        '(num, _, r, err) <-
          processRationalEntry (hostLe n) (isBigEndian h)
            (valueOffset entry) f ;;
        root_loop n f h rest (set_yRes jpeg num r) cDate err
      else if tag entry =? 0x8769 then
        '(exifEntries, err') <-
          processIfd (hostLe n) (isBigEndian h) (valueOffset entry) f ;;
        match err' with
        | Some _ => Done (jpeg, cDate, err')
        | None =>
            cDate <- exif_loop f exifEntries cDate ;;
            root_loop n f h rest jpeg cDate err
        end
      else root_loop n f h rest jpeg cDate err
  end.

Definition processIfds (n : Cr2Parser) (f : os_File) (h : cr2Header)
    : exec (jpegInfo * Time * option error) :=
  let jpeg := zero_jpegInfo in
  let cDate := zeroTime in
  '(entries, err) <- processIfd (hostLe n) (isBigEndian h) (tiffOffset h) f ;;
  match err with
  | Some _ => Done (jpeg, cDate, err)
  | None => root_loop n f h entries jpeg cDate err
  end.

Definition decodeAndWriteJpeg (w : World) (n : Cr2Parser) (f : os_File)
    (j : jpegInfo) (destDir : string) (quality : Z)
    : exec (string * option error * list CodecCall) :=
  let jpegFileName := genExtractedJpegName w f destDir "_extracted.jpg" in
  if length j <? 0 then Panicked (MakeSliceLenOutOfRange (length j)) else
  let '(data, _, err) := ReadAt f (Z.to_nat (length j)) (offset j) in
  match err with
  | Some _ => Done (jpegFileName, err, [])
  | None =>
      Done (jpegFileName, codec w data quality jpegFileName,
            [mkCodecCall data quality jpegFileName])
  end.

(** [err] of the last line is the variable assigned by [os.Open]: the
    [:=] inside the [else] block declares a new [err] there. *)
Definition ProcessFile (w : World) (n : Cr2Parser) (info : RawFileInfo)
    : exec (RawFile * option error * list CodecCall) :=
  let CR2 := zero_RawFile in
  let '(f, err) := os_Open w (File info) in
  match err with
  | Some _ => Done (CR2, err, [])
  | None =>
      '(h, _) <- processHeader n f ;;
      '(jpegInfo, createDate, err') <- processIfds n f h ;;
      match err' with
      | None =>
          '(jpegPath, err'', calls) <-
            decodeAndWriteJpeg w n f jpegInfo (DestDir info) (Quality info) ;;
          match err'' with
          | None =>
              Done (mkRawFile createDate (File info) jpegPath
                      (orientation jpegInfo), err, calls)
          | Some _ => Done (CR2, err, calls)
          end
      | Some _ => Done (CR2, err, [])
      end
  end.

End Cr2.

(** ** nefparser.go *)

Module Nef.

Record nefHeader : Type := mkNefHeader {
  isBigEndian : bool;
  tiffMagicValue : Z;        (* uint16 *)
  tiffOffset : Z             (* int64 *)
}.

Record NefParser : Type := mkNefParser { HostIsLittleEndian : bool }.

Definition SetHostIsLittleEndian (n : NefParser) (hostIsLe : bool)
    : NefParser :=
  mkNefParser hostIsLe.

Definition IsHostLittleEndian (n : NefParser) : bool :=
  HostIsLittleEndian n.

Definition processHeader (n : NefParser) (f : os_File)
    : exec (nefHeader * option error) :=
  let h := mkNefHeader false 0 0 in
  (* byte order *)
  let '(bytes, err) := readField 0 2 f in
  match err with
  | Some _ => Done (h, err)
  | None =>
  byteOrder <- bytesToUShort (IsHostLittleEndian n) false bytes ;;
  let be := byteOrder =? 0x4D4D in
  let h := mkNefHeader be 0 0 in
  (* TIFF magic value *)
  let '(bytes, err) := readField 2 2 f in
  match err with
  | Some _ => Done (h, err)
  | None =>
  magic <- bytesToUShort (IsHostLittleEndian n) be bytes ;;
  let h := mkNefHeader be magic 0 in
  (* TIFF offset *)
  let '(bytes, err) := readField 4 4 f in
  match err with
  | Some _ => Done (h, err)
  | None =>
  val <- bytesToUInt (IsHostLittleEndian n) be bytes ;;
  Done (mkNefHeader be magic val, err)
  end end end.

(** The loop over SubIFD 0.  The [err] its resolution branches assign is
    the one declared with [subIfd0Entries]; nothing reads it again. *)
Fixpoint subifd_loop (n : NefParser) (f : os_File) (h : nefHeader)
    (entries : list ifdEntry) (jpeg : jpegInfo) : exec jpegInfo :=
  match entries with
  | [] => Done jpeg
  | subID0Entry :: rest =>
      jpeg <-
        (if tag subID0Entry =? 0x011a then
           '(num, _, r, _) <-
             processRationalEntry (IsHostLittleEndian n) (isBigEndian h)
               (valueOffset subID0Entry) f ;;
           Done (set_xRes jpeg num r)
         else Done jpeg) ;;
      jpeg <-
        (if tag subID0Entry =? 0x011b then
           '(num, _, r, _) <-
             processRationalEntry (IsHostLittleEndian n) (isBigEndian h)
               (valueOffset subID0Entry) f ;;
           Done (set_yRes jpeg num r)
         else Done jpeg) ;;
      let jpeg :=
        if tag subID0Entry =? 0x0201
        then set_offset jpeg (valueOffset subID0Entry) else jpeg in
      let jpeg :=
        if tag subID0Entry =? 0x0202
        then set_length jpeg (valueOffset subID0Entry) else jpeg in
      subifd_loop n f h rest jpeg
  end.

(** The loop over the EXIF directory inside the [0x8769] branch. *)
Fixpoint exif_loop (f : os_File) (exifEntries : list ifdEntry)
    (cDate : Time) : exec Time :=
  match exifEntries with
  | [] => Done cDate
  | exifEntry :: rest =>
      if tag exifEntry =? 0x9004 then
        let '(createDate, err) := processASCIIEntry exifEntry f in
        match err with
        | None =>
            '(t, _) <- parseDateTime createDate ;;
            exif_loop f rest t
        | Some _ => exif_loop f rest cDate
        end
      else exif_loop f rest cDate
  end.

(** The loop over the root directory.  It runs only when the root
    directory decoded without error, and no branch assigns the function's
    named [err]: a run to the end of the list returns [nil]. *)
Fixpoint root_loop (n : NefParser) (f : os_File) (h : nefHeader)
    (entries : list ifdEntry) (jpeg : jpegInfo) (cDate : Time)
    : exec (jpegInfo * Time * option error) :=
  match entries with
  | [] => Done (jpeg, cDate, None)
  | entry :: rest =>
      if tag entry =? 0x014a then
        (* JPEG offset (SUBID 0) *)
        let '(bytes, err) := readField (valueOffset entry) 4 f in
        match err with
        | None =>
            subID0Offset <-
              bytesToUInt (IsHostLittleEndian n) (isBigEndian h) bytes ;;
            '(subIfd0Entries, err) <-
              processIfd (IsHostLittleEndian n) (isBigEndian h)
                subID0Offset f ;;
            match err with
            | None =>
                jpeg <- subifd_loop n f h subIfd0Entries jpeg ;;
                root_loop n f h rest jpeg cDate
            | Some _ => Done (jpeg, cDate, err)
            end
        | Some _ => root_loop n f h rest jpeg cDate
        end
      else if tag entry =? 0x0112 then
        root_loop n f h rest
          (set_orientation jpeg
             (orientation_of (isBigEndian h) (valueOffset entry)))
          cDate
      else if tag entry =? 0x8769 then
        '(exifEntries, err) <-
          processIfd (IsHostLittleEndian n) (isBigEndian h)
            (valueOffset entry) f ;;
        match err with
        | None =>
            cDate <- exif_loop f exifEntries cDate ;;
            root_loop n f h rest jpeg cDate
        | Some _ => Done (jpeg, cDate, err)
        end
      else root_loop n f h rest jpeg cDate
  end.

Definition processIfds (n : NefParser) (f : os_File) (h : nefHeader)
    : exec (jpegInfo * Time * option error) :=
  let jpeg := zero_jpegInfo in
  let cDate := zeroTime in
  '(entries, err) <-
    processIfd (IsHostLittleEndian n) (isBigEndian h) (tiffOffset h) f ;;
  match err with
  | None => root_loop n f h entries jpeg cDate
  | Some _ => Done (jpeg, cDate, err)
  end.

Definition decodeAndWriteJpeg (w : World) (n : NefParser) (f : os_File)
    (j : jpegInfo) (destDir : string) (quality : Z)
    : exec (string * option error * list CodecCall) :=
  let jpegFileName := genExtractedJpegName w f destDir "_extracted.jpg" in
  if length j <? 0 then Panicked (MakeSliceLenOutOfRange (length j)) else
  let '(data, _, err) := ReadAt f (Z.to_nat (length j)) (offset j) in
  match err with
  | Some _ => Done (jpegFileName, err, [])
  | None =>
      Done (jpegFileName, codec w data quality jpegFileName,
            [mkCodecCall data quality jpegFileName])
  end.

(** Inside the [else] block, [h, err := n.processHeader(f)] declares the
    block's own [err]; the header's error is overwritten by
    [processIfds]'s.  [err] of the last line is the variable assigned by
    [os.Open]. *)
Definition ProcessFile (w : World) (n : NefParser) (info : RawFileInfo)
    : exec (RawFile * option error * list CodecCall) :=
  let nef := zero_RawFile in
  let '(f, err) := os_Open w (File info) in
  match err with
  | Some _ => Done (nef, err, [])
  | None =>
      '(h, _) <- processHeader n f ;;
      '(jpegInfo, createDate, err') <- processIfds n f h ;;
      match err' with
      | Some _ => Done (nef, err', [])
      | None =>
          if length jpegInfo <=? 0 then
            Done (nef, Some (InvalidJpegLength (length jpegInfo)), [])
          else
            '(jpegPath, err'', calls) <-
              decodeAndWriteJpeg w n f jpegInfo (DestDir info)
                (Quality info) ;;
            match err'' with
            | None =>
                Done (mkRawFile createDate (File info) jpegPath
                        (orientation jpegInfo), err, calls)
            | Some _ => Done (nef, err, calls)
            end
      end
  end.

End Nef.

(** ** rawparser.go: the registry of parsers

    A [RawParser] interface value is [nil] ([None]) or one of the two
    parsers of the package; [parserMap] is the Go map of the registry,
    and a method with a pointer receiver returns the registry it leaves
    behind. *)

Module StringMap := FMapList.Make OrderedTypeEx.String_as_OT.
Module StringMapFacts :=
  FMapFacts.WFacts_fun OrderedTypeEx.String_as_OT StringMap.

Inductive RawParser : Type :=
| Cr2ParserRef (n : Cr2.Cr2Parser)
| NefParserRef (n : Nef.NefParser).

Record RawParsers : Type := mkRawParsers {
  parserMap : StringMap.t (option RawParser)
}.

Definition NewRawParsers : RawParsers :=
  mkRawParsers (StringMap.empty (option RawParser)).

Definition Register (p : RawParsers) (key : string)
    (parser : option RawParser) : RawParsers :=
  mkRawParsers (StringMap.add key parser (parserMap p)).

(** [p.parserMap[key]]: the zero value [nil] for a key that is absent. *)
Definition GetParser (p : RawParsers) (key : string) : option RawParser :=
  match StringMap.find key (parserMap p) with
  | Some parser => parser
  | None => None
  end.

Definition DeleteParser (p : RawParsers) (key : string) : RawParsers :=
  mkRawParsers (StringMap.remove key (parserMap p)).

Definition Cr2ParserKey : string := "CR2".
Definition NefParserKey : string := "NEF".

Definition NewCr2Parser (hostIsLittleEndian : bool)
    : option RawParser * string :=
  (Some (Cr2ParserRef (Cr2.mkCr2Parser (mkRawParser hostIsLittleEndian))),
   Cr2ParserKey).

Definition NewNefParser (hostIsLittleEndian : bool)
    : option RawParser * string :=
  (Some (NefParserRef (Nef.mkNefParser hostIsLittleEndian)), NefParserKey).

(** * Specification-side definitions *)

(** The value of two bytes read in a given byte order. *)
Definition u16_in_order (bigEndian : bool) (b0 b1 : byte) : Z :=
  if bigEndian then u8 b0 * 256 + u8 b1 else u8 b1 * 256 + u8 b0.

(** The value of four bytes read in a given byte order. *)
Definition u32_in_order (bigEndian : bool) (b0 b1 b2 b3 : byte) : Z :=
  if bigEndian
  then ((u8 b0 * 256 + u8 b1) * 256 + u8 b2) * 256 + u8 b3
  else ((u8 b3 * 256 + u8 b2) * 256 + u8 b1) * 256 + u8 b0.

Definition swap16 (v : Z) : Z := (v mod 256) * 256 + v / 256.

(** The rule of the specification for [toUShort]: the two bytes as the
    host would copy them, byte-swapped iff the host's and the file's byte
    orders differ. *)
Definition toUShort_spec (hostIsLittleEndian fileIsBigEndian : bool)
    (b0 b1 : byte) : Z :=
  let verbatim := u16_in_order (negb hostIsLittleEndian) b0 b1 in
  if Bool.eqb hostIsLittleEndian fileIsBigEndian
  then swap16 verbatim else verbatim.

(** The length of a file, the bytes [off .. off+k) of it, and its byte
    at [off]. *)
Definition flen (f : os_File) : Z := Z.of_nat (List.length (contents f)).

Definition sub (f : os_File) (off : Z) (k : nat) : list byte :=
  firstn k (skipn (Z.to_nat off) (contents f)).

Definition byte_at (f : os_File) (off : Z) : byte :=
  nth (Z.to_nat off) (contents f) x00.

(** The 16-bit and 32-bit values at [off], read in a given byte order. *)
Definition u16_at (bigEndian : bool) (f : os_File) (off : Z) : Z :=
  u16_in_order bigEndian (byte_at f off) (byte_at f (off + 1)).

Definition u32_at (bigEndian : bool) (f : os_File) (off : Z) : Z :=
  u32_in_order bigEndian (byte_at f off) (byte_at f (off + 1))
    (byte_at f (off + 2)) (byte_at f (off + 3)).

(** The 2-byte byte-order marker at offset 0, when the file has one,
    read in the given byte order. *)
Definition byte_order_marker (bigEndian : bool) (f : os_File) : option Z :=
  if 2 <=? flen f then Some (u16_at bigEndian f 0) else None.

(** The byte with a given value, and the four bytes of a 32-bit value in
    a given byte order. *)
Definition byte_of_Z (z : Z) : byte :=
  match Byte.of_N (Z.to_N (z mod 256)) with
  | Some b => b
  | None => x00
  end.

Definition encode_u32 (bigEndian : bool) (v : Z) : list byte :=
  let b0 := byte_of_Z v in
  let b1 := byte_of_Z (v / 2 ^ 8) in
  let b2 := byte_of_Z (v / 2 ^ 16) in
  let b3 := byte_of_Z (v / 2 ^ 24) in
  if bigEndian then [b3; b2; b1; b0] else [b0; b1; b2; b3].

(** The directory record whose twelve bytes start at [off], and the
    first [n] records of the directory whose entry count is at [off]. *)
Definition entry_at (bigEndian : bool) (f : os_File) (off : Z) : ifdEntry :=
  mkIfdEntry (u16_at bigEndian f off) (u16_at bigEndian f (off + 2))
    (u32_at bigEndian f (off + 4)) (u32_at bigEndian f (off + 8)).

Definition entries_from (bigEndian : bool) (f : os_File) (off : Z) (n : nat)
    : list ifdEntry :=
  map (fun i => entry_at bigEndian f (off + 2 + 12 * Z.of_nat i)) (seq 0 n).

(** The month lookup table of [toRfc822Date], with the number of each
    month. *)
Definition month_table : list (string * (string * Z)) :=
  [("01", ("Jan", 1)); ("02", ("Feb", 2)); ("03", ("Mar", 3));
   ("04", ("Apr", 4)); ("05", ("May", 5)); ("06", ("Jun", 6));
   ("07", ("Jul", 7)); ("08", ("Aug", 8)); ("09", ("Sep", 9));
   ("10", ("Oct", 10)); ("11", ("Nov", 11)); ("12", ("Dec", 12))]%string.

Fixpoint assoc {A : Type} (k : string) (l : list (string * A)) : option A :=
  match l with
  | [] => None
  | (k', v) :: l' => if String.eqb k k' then Some v else assoc k l'
  end.

Definition month_entry (m : string) : option (string * Z) :=
  assoc m month_table.

(** A field is numeric when it is a non-empty string of decimal digits. *)
Definition all_digits (s : string) : bool :=
  forallb is_digit (list_ascii_of_string s).

Definition is_numeric (s : string) : bool :=
  negb (String.eqb s EmptyString) && all_digits s.

Definition is_sign (c : ascii) : bool := Ascii.eqb c "-" || Ascii.eqb c "+".

(** The year that the two-digit year [yy] of the layout stands for. *)
Definition two_digit_year (yy : Z) : Z :=
  if 69 <=? yy then yy + 1900 else yy + 2000.

Definition two_digits (c0 c1 : ascii) : Z := digit_val c0 * 10 + digit_val c1.

Definition str2 (c0 c1 : ascii) : string := String c0 (String c1 EmptyString).

Definition str4 (c0 c1 c2 c3 : ascii) : string :=
  String c0 (String c1 (str2 c2 c3)).

(** The abbreviations of the month table with the number of each month. *)
Definition month_names : list (string * Z) :=
  [("Jan", 1); ("Feb", 2); ("Mar", 3); ("Apr", 4); ("May", 5); ("Jun", 6);
   ("Jul", 7); ("Aug", 8); ("Sep", 9); ("Oct", 10); ("Nov", 11);
   ("Dec", 12)]%string.

(** The two bytes of a 16-bit value in a given byte order, and the
    eight bytes of a TIFF header: the marker MM or II, the magic value
    and the offset of the root directory, both in the order the marker
    announces. *)
Definition encode_u16 (bigEndian : bool) (v : Z) : list byte :=
  let b0 := byte_of_Z v in
  let b1 := byte_of_Z (v / 2 ^ 8) in
  if bigEndian then [b1; b0] else [b0; b1].

Definition tiff_header (bigEndian : bool) (magic root : Z) : list byte :=
  (if bigEndian then [x4d; x4d] else [x49; x49])
    ++ encode_u16 bigEndian magic ++ encode_u32 bigEndian root.

(** The cache of a read of [k] bytes at [off]: the bytes of the file,
    zero from the end of the file on. *)
Definition padded (f : os_File) (off : Z) (k : nat) : list byte :=
  sub f off k ++ repeat x00 (k - List.length (sub f off k)).

(** A string without the byte [sep]. *)
Definition lacks (sep : ascii) (s : string) : bool :=
  forallb (fun c => negb (Ascii.eqb c sep)) (list_ascii_of_string s).

(** The nineteen bytes YYYY:MM:DD HH:MM:SS of a date. *)
Definition digits_date
    (y0 y1 y2 y3 mo0 mo1 d0 d1 h0 h1 m0 m1 s0 s1 : ascii) : string :=
  string_of_list_ascii
    [y0; y1; y2; y3; ":"; mo0; mo1; ":"; d0; d1; " ";
     h0; h1; ":"; m0; m1; ":"; s0; s1]%char.

(** The two orientations a result can carry, and the times a result can
    carry: the zero time, or a civil time of the window of the two-digit
    year, without seconds. *)
Definition orientation_ok (o : float) : Prop :=
  o = 0%float \/ o = rotationRads.

Definition date_ok (t : Time) : Prop :=
  t = zeroTime
  \/ (1969 <= year t <= 2099 /\ 1 <= month t <= 12
      /\ 1 <= day t <= daysIn (month t) (year t)
      /\ 0 <= hour t < 24 /\ 0 <= minute t < 60 /\ second t = 0).

(** The value offset of the last entry with a given tag, [d] when the
    directory has none. *)
Definition last_value (tg : Z) (entries : list ifdEntry) (d : Z) : Z :=
  fold_left (fun acc e => if tag e =? tg then valueOffset e else acc)
    entries d.

(** ** Sample files and worlds *)

(** A world with one file; [filepath.Base] is the identity on the names
    used here, which have no directory part. *)
Definition one_file_world (name : string) (bytes : list byte)
    (codec : list byte -> Z -> string -> option error) : World :=
  mkWorld (fun p => if String.eqb p name then Some bytes else None)
    (fun p => p) codec.

(** A little-endian Canon file with a complete header and an empty root
    directory at offset 16: no tag gives a JPEG length. *)
Definition cr2_without_jpeg : list byte :=
  [x49; x49; x2a; x00; x10; x00; x00; x00; x43; x52; x02; x00;
   x00; x00; x00; x00;
   x00; x00].

(** A little-endian Nikon file: header, a root directory at offset 8
    with the one entry 0x014a pointing at offset 22, where the offset 26
    of SubIFD 0 is stored; SubIFD 0 gives the JPEG offset 52 (0x0201) and
    length 2 (0x0202); the two bytes at 52 are FF D8. *)
Definition nef_with_jpeg : list byte :=
  [x49; x49; x2a; x00; x08; x00; x00; x00;
   x01; x00;
   x4a; x01; x04; x00; x01; x00; x00; x00; x16; x00; x00; x00;
   x1a; x00; x00; x00;
   x02; x00;
   x01; x02; x04; x00; x01; x00; x00; x00; x34; x00; x00; x00;
   x02; x02; x04; x00; x01; x00; x00; x00; x02; x00; x00; x00;
   xff; xd8].

(** A little-endian Canon file: header; a root directory at offset 16
    with the JPEG offset 108 (0x0111), the orientation short 8 (0x0112),
    the JPEG length 2 (0x0117) and the EXIF pointer 70 (0x8769); an EXIF
    directory at 70 whose entry 0x9004 is the 20-byte ASCII field at 88,
    "2010:08:10 12:11:07" and its NUL; the bytes FF D8 at 108. *)
Definition cr2_sample : list byte :=
  [x49; x49; x2a; x00; x10; x00; x00; x00; x43; x52; x02; x00;
   x00; x00; x00; x00;
   x04; x00;
   x11; x01; x04; x00; x01; x00; x00; x00; x6c; x00; x00; x00;
   x12; x01; x03; x00; x01; x00; x00; x00; x08; x00; x00; x00;
   x17; x01; x04; x00; x01; x00; x00; x00; x02; x00; x00; x00;
   x69; x87; x04; x00; x01; x00; x00; x00; x46; x00; x00; x00;
   x00; x00; x00; x00;
   x01; x00;
   x04; x90; x02; x00; x14; x00; x00; x00; x58; x00; x00; x00;
   x00; x00; x00; x00;
   x32; x30; x31; x30; x3a; x30; x38; x3a; x31; x30; x20;
   x31; x32; x3a; x31; x31; x3a; x30; x37; x00;
   xff; xd8].

(** * Properties *)

(** ** Arithmetic of bytes and words *)

Lemma u8_range (b : byte) : 0 <= u8 b < 256.
Proof.
  unfold u8. pose proof (Byte.to_N_bounded b). lia.
Qed.

Lemma lor_shiftl_small (a b k : Z) :
  0 <= k -> 0 <= b < 2 ^ k -> Z.lor (Z.shiftl a k) b = a * 2 ^ k + b.
Proof.
  intros Hk Hb.
  rewrite <- Z.shiftl_mul_pow2 by assumption.
  rewrite <- Z.add_lor_land.
  assert (Hland : Z.land (Z.shiftl a k) b = 0).
  { apply Z.bits_inj'. intros n Hn.
    rewrite Z.land_spec, Z.bits_0.
    destruct (Z.lt_ge_cases n k) as [Hlt | Hge].
    - rewrite Z.shiftl_spec_low by assumption. reflexivity.
    - rewrite <- (Z.mod_small b (2 ^ k)) by assumption.
      rewrite Z.mod_pow2_bits_high by lia.
      apply andb_false_r. }
  rewrite Hland. lia.
Qed.

Lemma u16_word (a b : Z) :
  0 <= a < 256 -> 0 <= b < 256 ->
  Z.lor (wrap16 (Z.shiftl a 8)) (Z.land b 0xFF) = a * 256 + b.
Proof.
  intros Ha Hb. unfold wrap16.
  rewrite Z.shiftl_mul_pow2 by lia.
  rewrite Z.mod_small by lia.
  change 0xFF with (Z.ones 8). rewrite Z.land_ones by lia.
  rewrite Z.mod_small by lia.
  rewrite <- Z.shiftl_mul_pow2 by lia.
  rewrite lor_shiftl_small by lia. reflexivity.
Qed.

Lemma u32_word (a b : Z) :
  0 <= a < 65536 -> 0 <= b < 65536 ->
  Z.lor (wrap32 (Z.shiftl a 16)) (Z.land b 0xFFFF) = a * 65536 + b.
Proof.
  intros Ha Hb. unfold wrap32.
  rewrite Z.shiftl_mul_pow2 by lia.
  rewrite Z.mod_small by lia.
  change 0xFFFF with (Z.ones 16). rewrite Z.land_ones by lia.
  rewrite Z.mod_small by lia.
  rewrite <- Z.shiftl_mul_pow2 by lia.
  rewrite lor_shiftl_small by lia. reflexivity.
Qed.

Lemma u16_in_order_range (o : bool) (b0 b1 : byte) :
  0 <= u16_in_order o b0 b1 < 65536.
Proof.
  pose proof (u8_range b0). pose proof (u8_range b1).
  unfold u16_in_order. destruct o; lia.
Qed.

Lemma u32_in_order_range (o : bool) (b0 b1 b2 b3 : byte) :
  0 <= u32_in_order o b0 b1 b2 b3 < 2 ^ 32.
Proof.
  pose proof (u8_range b0). pose proof (u8_range b1).
  pose proof (u8_range b2). pose proof (u8_range b3).
  unfold u32_in_order. destruct o; lia.
Qed.

Lemma wrap_i64_small (z : Z) : - 2 ^ 63 <= z < 2 ^ 63 -> wrap_i64 z = z.
Proof.
  intros H. unfold wrap_i64. rewrite Z.mod_small by lia. lia.
Qed.

(** ** The primitive conversions *)

Lemma bytesToUShort_pair (hostLe fileBe : bool) (b0 b1 : byte) :
  bytesToUShort hostLe fileBe [b0; b1]
  = Done (u16_in_order (fileBe && hostLe) b0 b1).
Proof.
  pose proof (u8_range b0). pose proof (u8_range b1).
  unfold bytesToUShort, u16_in_order.
  destruct (fileBe && hostLe); cbn [index nth_error bind];
    rewrite u16_word by assumption; reflexivity.
Qed.

Lemma bytesToUInt_quad (hostLe fileBe : bool) (b0 b1 b2 b3 : byte) :
  bytesToUInt hostLe fileBe [b0; b1; b2; b3]
  = Done (u32_in_order (fileBe && hostLe) b0 b1 b2 b3).
Proof.
  unfold bytesToUInt.
  cbn [slice_to slice_from List.length Nat.leb firstn skipn bind].
  rewrite !bytesToUShort_pair. cbn [bind].
  pose proof (u16_in_order_range (fileBe && hostLe) b0 b1).
  pose proof (u16_in_order_range (fileBe && hostLe) b2 b3).
  destruct (fileBe && hostLe); rewrite u32_word by assumption;
    unfold u32_in_order, u16_in_order; f_equal; lia.
Qed.

Lemma split_256 (a b : Z) :
  0 <= a < 256 -> 0 <= b < 256 -> (a * 256 + b) / 256 = a.
Proof.
  intros Ha Hb. symmetry. apply (Z.div_unique _ 256 a b); lia.
Qed.

Lemma split_256_mod (a b : Z) :
  0 <= a < 256 -> 0 <= b < 256 -> (a * 256 + b) mod 256 = b.
Proof.
  intros Ha Hb. symmetry. apply (Z.mod_unique _ 256 a b); lia.
Qed.

Lemma toUShort_spec_file_order (hostLe fileBe : bool) (b0 b1 : byte) :
  toUShort_spec hostLe fileBe b0 b1 = u16_in_order fileBe b0 b1.
Proof.
  pose proof (u8_range b0). pose proof (u8_range b1).
  unfold toUShort_spec, u16_in_order, swap16.
  destruct hostLe, fileBe; cbn [negb Bool.eqb]; try reflexivity.
  - rewrite (split_256 (u8 b1) (u8 b0)) by assumption.
    rewrite (split_256_mod (u8 b1) (u8 b0)) by assumption. reflexivity.
  - rewrite (split_256 (u8 b0) (u8 b1)) by assumption.
    rewrite (split_256_mod (u8 b0) (u8 b1)) by assumption. reflexivity.
Qed.

(** ** Reading fields of a file *)

Lemma firstn_skipn_seq (l : list byte) (o k : nat) :
  (o + k <= List.length l)%nat ->
  firstn k (skipn o l) = map (fun i => nth (o + i) l x00) (seq 0 k).
Proof.
  revert l o. induction k as [|k IH]; intros l o Hlen.
  - reflexivity.
  - destruct (skipn o l) as [|b rest] eqn:Hsk.
    + assert (Hl : List.length (skipn o l) = 0%nat) by (rewrite Hsk; reflexivity).
      rewrite length_skipn in Hl. lia.
    + cbn [firstn seq map]. f_equal.
      * rewrite Nat.add_0_r.
        rewrite <- (firstn_skipn o l) at 1.
        rewrite app_nth2 by (rewrite length_firstn; lia).
        rewrite length_firstn, Nat.min_l by lia.
        rewrite Nat.sub_diag, Hsk. reflexivity.
      * assert (Hrest : rest = skipn (S o) l).
        { change (S o) with (1 + o)%nat. rewrite <- skipn_skipn, Hsk.
          reflexivity. }
        rewrite Hrest, (IH l (S o)) by lia.
        rewrite <- seq_shift, map_map.
        apply map_ext. intros i. f_equal. lia.
Qed.

Lemma ReadAt_full (f : os_File) (k : nat) (off : Z) :
  0 <= off -> off + Z.of_nat k <= flen f ->
  ReadAt f k off = (sub f off k, Z.of_nat k, None).
Proof.
  intros Hoff Hlen. unfold ReadAt, sub, flen in *.
  destruct (Z.ltb_spec off 0) as [Hneg | _]; [lia|].
  assert (Hgot : List.length (firstn k (skipn (Z.to_nat off) (contents f))) = k).
  { rewrite length_firstn, length_skipn. lia. }
  rewrite Hgot, Nat.sub_diag, Nat.ltb_irrefl. cbn [repeat].
  rewrite app_nil_r. reflexivity.
Qed.

Lemma ReadAt_length (f : os_File) (k : nat) (off : Z) :
  List.length (fst (fst (ReadAt f k off))) = k.
Proof.
  unfold ReadAt. destruct (off <? 0); cbn [fst].
  - apply repeat_length.
  - rewrite length_app, repeat_length, length_firstn. lia.
Qed.

Lemma readField_length (off n : Z) (f : os_File) :
  List.length (fst (readField off n f)) = Z.to_nat n.
Proof.
  unfold readField. pose proof (ReadAt_length f (Z.to_nat n) off) as H.
  destruct (ReadAt f (Z.to_nat n) off) as [[cache r] e]. cbn [fst] in H.
  destruct (negb (r =? n)); exact H.
Qed.

Lemma readField_full (off n : Z) (f : os_File) :
  0 <= off -> 0 <= n -> off + n <= flen f ->
  readField off n f = (sub f off (Z.to_nat n), None).
Proof.
  intros Hoff Hn Hlen. unfold readField.
  rewrite ReadAt_full by lia.
  rewrite Z2Nat.id by assumption. rewrite Z.eqb_refl. reflexivity.
Qed.

Lemma readField_short (off n : Z) (f : os_File) :
  0 < n -> off < 0 \/ flen f < off + n ->
  exists cache e, readField off n f = (cache, Some e).
Proof.
  intros Hn Hshort. unfold readField, ReadAt, flen in *.
  destruct (Z.ltb_spec off 0) as [Hneg | Hpos].
  - destruct (Z.eqb_spec 0 n) as [Heq | _]; [lia|]. cbn [negb].
    eauto.
  - destruct Hshort as [Hneg | Hlen]; [lia|].
    set (got := firstn (Z.to_nat n) (skipn (Z.to_nat off) (contents f))).
    assert (Hgot : (List.length got < Z.to_nat n)%nat).
    { unfold got. rewrite length_firstn, length_skipn. lia. }
    destruct (Z.eqb_spec (Z.of_nat (List.length got)) n) as [Heq | _]; [lia|].
    cbn [negb]. eauto.
Qed.

(** A field read either delivers the bytes of the file or fails. *)
Lemma readField_cases (off n : Z) (f : os_File) :
  0 < n ->
  (0 <= off /\ off + n <= flen f
   /\ readField off n f = (sub f off (Z.to_nat n), None))
  \/ ((off < 0 \/ flen f < off + n)
      /\ exists cache e, readField off n f = (cache, Some e)).
Proof.
  intros Hn.
  destruct (Z.lt_ge_cases off 0) as [Hneg | Hpos].
  - right. split; [lia|]. apply readField_short; lia.
  - destruct (Z.lt_ge_cases (flen f) (off + n)) as [Hlt | Hge].
    + right. split; [lia|]. apply readField_short; lia.
    + left. repeat split; try lia. apply readField_full; lia.
Qed.

Lemma sub_1 (f : os_File) (off : Z) :
  0 <= off -> off + 1 <= flen f ->
  sub f off 1 = [byte_at f off].
Proof.
  intros Hoff Hlen. unfold sub, byte_at, flen in *.
  rewrite firstn_skipn_seq by lia. cbn [seq map].
  rewrite Nat.add_0_r. reflexivity.
Qed.

Lemma sub_2 (f : os_File) (off : Z) :
  0 <= off -> off + 2 <= flen f ->
  sub f off 2 = [byte_at f off; byte_at f (off + 1)].
Proof.
  intros Hoff Hlen. unfold sub, byte_at, flen in *.
  rewrite firstn_skipn_seq by lia. cbn [seq map].
  rewrite Nat.add_0_r.
  replace (Z.to_nat (off + 1)) with (Z.to_nat off + 1)%nat by lia.
  reflexivity.
Qed.

Lemma sub_4 (f : os_File) (off : Z) :
  0 <= off -> off + 4 <= flen f ->
  sub f off 4 = [byte_at f off; byte_at f (off + 1);
                 byte_at f (off + 2); byte_at f (off + 3)].
Proof.
  intros Hoff Hlen. unfold sub, byte_at, flen in *.
  rewrite firstn_skipn_seq by lia. cbn [seq map].
  rewrite Nat.add_0_r.
  replace (Z.to_nat (off + 1)) with (Z.to_nat off + 1)%nat by lia.
  replace (Z.to_nat (off + 2)) with (Z.to_nat off + 2)%nat by lia.
  replace (Z.to_nat (off + 3)) with (Z.to_nat off + 3)%nat by lia.
  reflexivity.
Qed.

(** Field reads of the two sizes the decoders use, in the terms of the
    bytes of the file. *)
Lemma read_u16 (hostLe fileBe : bool) (off : Z) (f : os_File) :
  0 <= off -> off + 2 <= flen f ->
  readField off 2 f = ([byte_at f off; byte_at f (off + 1)], None)
  /\ bytesToUShort hostLe fileBe (fst (readField off 2 f))
     = Done (u16_at (fileBe && hostLe) f off).
Proof.
  intros Hoff Hlen.
  rewrite readField_full by lia.
  change (Z.to_nat 2) with 2%nat. rewrite sub_2 by lia.
  split; [reflexivity|]. cbn [fst]. apply bytesToUShort_pair.
Qed.

Lemma read_u32 (hostLe fileBe : bool) (off : Z) (f : os_File) :
  0 <= off -> off + 4 <= flen f ->
  readField off 4 f
  = ([byte_at f off; byte_at f (off + 1);
      byte_at f (off + 2); byte_at f (off + 3)], None)
  /\ bytesToUInt hostLe fileBe (fst (readField off 4 f))
     = Done (u32_at (fileBe && hostLe) f off).
Proof.
  intros Hoff Hlen.
  rewrite readField_full by lia.
  change (Z.to_nat 4) with 4%nat. rewrite sub_4 by lia.
  split; [reflexivity|]. cbn [fst]. apply bytesToUInt_quad.
Qed.

Lemma readField_u16_eq (off : Z) (f : os_File) :
  0 <= off -> off + 2 <= flen f ->
  readField off 2 f = ([byte_at f off; byte_at f (off + 1)], None).
Proof. intros. apply (read_u16 true true); assumption. Qed.

Lemma readField_u32_eq (off : Z) (f : os_File) :
  0 <= off -> off + 4 <= flen f ->
  readField off 4 f
  = ([byte_at f off; byte_at f (off + 1);
      byte_at f (off + 2); byte_at f (off + 3)], None).
Proof. intros. apply (read_u32 true true); assumption. Qed.

Lemma readField_u8_eq (off : Z) (f : os_File) :
  0 <= off -> off + 1 <= flen f ->
  readField off 1 f = ([byte_at f off], None).
Proof.
  intros. rewrite readField_full by lia.
  change (Z.to_nat 1) with 1%nat. rewrite sub_1 by lia. reflexivity.
Qed.

Lemma readField_ok_inv (off n : Z) (f : os_File) :
  0 < n -> snd (readField off n f) = None -> 0 <= off /\ off + n <= flen f.
Proof.
  intros Hn Hok.
  destruct (readField_cases off n f Hn) as [(H0 & H1 & _) | (_ & c & e & Hr)].
  - split; assumption.
  - rewrite Hr in Hok. discriminate.
Qed.

(** ** The headers *)

Ltac read_fails off n f :=
  let c := fresh "c" in
  let e := fresh "e" in
  let Hr := fresh "Hr" in
  destruct (readField_short off n f) as (c & e & Hr);
  [lia | right; lia | rewrite Hr; cbv beta iota zeta].

Ltac read16 := rewrite readField_u16_eq by lia; cbv beta iota zeta;
  rewrite bytesToUShort_pair; cbn [bind].
Ltac read32 := rewrite readField_u32_eq by lia; cbv beta iota zeta;
  rewrite bytesToUInt_quad; cbn [bind].

Section NefHeader.
Variable n : Nef.NefParser.
Variable f : os_File.

Let host := Nef.HostIsLittleEndian n.
Let be := u16_at false f 0 =? 0x4D4D.
Let magic := u16_at (be && host) f 2.
Let root := u32_at (be && host) f 4.

Lemma Nef_header_no_marker :
  flen f < 2 ->
  exists e, Nef.processHeader n f = Done (Nef.mkNefHeader false 0 0, Some e).
Proof.
  intros Hlen. unfold Nef.processHeader.
  read_fails 0 2 f. eauto.
Qed.

Lemma Nef_header_no_magic :
  2 <= flen f < 4 ->
  exists e, Nef.processHeader n f = Done (Nef.mkNefHeader be 0 0, Some e).
Proof.
  intros Hlen. unfold Nef.processHeader.
  read16. read_fails 2 2 f. eauto.
Qed.

Lemma Nef_header_no_offset :
  4 <= flen f < 8 ->
  exists e,
    Nef.processHeader n f = Done (Nef.mkNefHeader be magic 0, Some e).
Proof.
  intros Hlen. unfold Nef.processHeader.
  read16. read16. read_fails 4 4 f. eauto.
Qed.

Lemma Nef_header_complete :
  8 <= flen f ->
  Nef.processHeader n f = Done (Nef.mkNefHeader be magic root, None).
Proof.
  intros Hlen. unfold Nef.processHeader.
  read16. read16. read32. reflexivity.
Qed.

(** In every case a header comes back, with the flag decided by the
    first two bytes. *)
Lemma Nef_header_flag :
  exists h err,
    Nef.processHeader n f = Done (h, err)
    /\ Nef.isBigEndian h = (2 <=? flen f) && be.
Proof.
  destruct (Z.lt_ge_cases (flen f) 2) as [H2 | H2].
  { destruct (Nef_header_no_marker H2) as (e & ->).
    do 2 eexists. split; [reflexivity|]. cbn.
    destruct (Z.leb_spec 2 (flen f)); [lia | reflexivity]. }
  assert (Hge : (2 <=? flen f) = true) by (apply Z.leb_le; lia).
  rewrite Hge. cbn [andb].
  destruct (Z.lt_ge_cases (flen f) 4) as [H4 | H4].
  { destruct (Nef_header_no_magic (conj H2 H4)) as (e & ->).
    do 2 eexists. split; reflexivity. }
  destruct (Z.lt_ge_cases (flen f) 8) as [H8 | H8].
  { destruct (Nef_header_no_offset (conj H4 H8)) as (e & ->).
    do 2 eexists. split; reflexivity. }
  rewrite (Nef_header_complete H8).
  do 2 eexists. split; reflexivity.
Qed.
End NefHeader.

Section Cr2Header.
Variable n : Cr2.Cr2Parser.
Variable f : os_File.

Let host := Cr2.hostLe n.
Let be := u16_at false f 0 =? 0x4D4D.
Let magic := u16_at (be && host) f 2.
Let root := u32_at (be && host) f 4.
Let cr2 := bytesToASCIIString [byte_at f 8; byte_at f 9].

Lemma Cr2_header_no_marker :
  flen f < 2 ->
  exists e,
    Cr2.processHeader n f
    = Done (Cr2.mkCr2Header false 0 EmptyString 0 0 0, Some e).
Proof.
  intros Hlen. unfold Cr2.processHeader.
  read_fails 0 2 f. eauto.
Qed.

Lemma Cr2_header_no_magic :
  2 <= flen f < 4 ->
  exists e,
    Cr2.processHeader n f
    = Done (Cr2.mkCr2Header be 0 EmptyString 0 0 0, Some e).
Proof.
  intros Hlen. unfold Cr2.processHeader.
  read16. read_fails 2 2 f. eauto.
Qed.

Lemma Cr2_header_no_offset :
  4 <= flen f < 8 ->
  exists e,
    Cr2.processHeader n f
    = Done (Cr2.mkCr2Header be magic EmptyString 0 0 0, Some e).
Proof.
  intros Hlen. unfold Cr2.processHeader.
  read16. read16. read_fails 4 4 f. eauto.
Qed.

Lemma Cr2_header_no_container_magic :
  8 <= flen f < 10 ->
  exists e,
    Cr2.processHeader n f
    = Done (Cr2.mkCr2Header be magic EmptyString 0 0 root, Some e).
Proof.
  intros Hlen. unfold Cr2.processHeader.
  read16. read16. read32. read_fails 8 2 f. eauto.
Qed.

Lemma Cr2_header_no_major :
  flen f = 10 ->
  exists e,
    Cr2.processHeader n f
    = Done (Cr2.mkCr2Header be magic cr2 0 0 root, Some e).
Proof.
  intros Hlen. unfold Cr2.processHeader.
  read16. read16. read32.
  rewrite (readField_u16_eq 8) by lia. cbv beta iota zeta.
  read_fails 10 1 f. eauto.
Qed.

Lemma Cr2_header_no_minor :
  flen f = 11 ->
  exists e,
    Cr2.processHeader n f
    = Done (Cr2.mkCr2Header be magic cr2 (u8 (byte_at f 10)) 0 root, Some e).
Proof.
  intros Hlen. unfold Cr2.processHeader.
  read16. read16. read32.
  rewrite (readField_u16_eq 8) by lia. cbv beta iota zeta.
  rewrite (readField_u8_eq 10) by lia. cbv beta iota zeta.
  cbn [index nth_error bind].
  read_fails 11 1 f. eauto.
Qed.

Lemma Cr2_header_complete :
  12 <= flen f ->
  Cr2.processHeader n f
  = Done (Cr2.mkCr2Header be magic cr2 (u8 (byte_at f 10))
            (u8 (byte_at f 11)) root, None).
Proof.
  intros Hlen. unfold Cr2.processHeader.
  read16. read16. read32.
  rewrite (readField_u16_eq 8) by lia. cbv beta iota zeta.
  rewrite (readField_u8_eq 10) by lia. cbv beta iota zeta.
  cbn [index nth_error bind].
  rewrite (readField_u8_eq 11) by lia. cbv beta iota zeta.
  cbn [index nth_error bind].
  reflexivity.
Qed.

Lemma Cr2_header_flag :
  exists h err,
    Cr2.processHeader n f = Done (h, err)
    /\ Cr2.isBigEndian h = (2 <=? flen f) && be.
Proof.
  destruct (Z.lt_ge_cases (flen f) 2) as [H2 | H2].
  { destruct (Cr2_header_no_marker H2) as (e & ->).
    do 2 eexists. split; [reflexivity|]. cbn.
    destruct (Z.leb_spec 2 (flen f)); [lia | reflexivity]. }
  assert (Hge : (2 <=? flen f) = true) by (apply Z.leb_le; lia).
  rewrite Hge. cbn [andb].
  destruct (Z.lt_ge_cases (flen f) 4) as [H4 | H4].
  { destruct (Cr2_header_no_magic (conj H2 H4)) as (e & ->).
    do 2 eexists. split; reflexivity. }
  destruct (Z.lt_ge_cases (flen f) 8) as [H8 | H8].
  { destruct (Cr2_header_no_offset (conj H4 H8)) as (e & ->).
    do 2 eexists. split; reflexivity. }
  destruct (Z.lt_ge_cases (flen f) 10) as [H10 | H10].
  { destruct (Cr2_header_no_container_magic (conj H8 H10)) as (e & ->).
    do 2 eexists. split; reflexivity. }
  destruct (Z.eq_dec (flen f) 10) as [E10 | N10].
  { destruct (Cr2_header_no_major E10) as (e & ->).
    do 2 eexists. split; reflexivity. }
  destruct (Z.eq_dec (flen f) 11) as [E11 | N11].
  { destruct (Cr2_header_no_minor E11) as (e & ->).
    do 2 eexists. split; reflexivity. }
  rewrite Cr2_header_complete by lia.
  do 2 eexists. split; reflexivity.
Qed.
End Cr2Header.

Lemma marker_MM (o : bool) (b0 b1 : byte) :
  u16_in_order o b0 b1 = 0x4D4D <-> u16_in_order false b0 b1 = 0x4D4D.
Proof.
  pose proof (u8_range b0). pose proof (u8_range b1).
  unfold u16_in_order. destruct o; lia.
Qed.

Lemma marker_flag (o : bool) (f : os_File) :
  (2 <=? flen f) && (u16_at false f 0 =? 0x4D4D) = true
  <-> byte_order_marker o f = Some 0x4D4D.
Proof.
  unfold byte_order_marker, u16_at.
  destruct (2 <=? flen f); cbn [andb].
  - rewrite Z.eqb_eq, <- (marker_MM o). split.
    + intros ->. reflexivity.
    + intros H. injection H as H. exact H.
  - split; discriminate.
Qed.

(** C8. In both header parsers the [isBigEndian] flag of the returned
    header is true exactly when the two-byte byte-order marker read at
    offset 0 of the file equals 0x4D4D (whichever byte order the marker
    is read in), and false for every other marker and when the marker
    cannot be read; this holds for either host endianness. *)
Theorem processHeader_isBigEndian_iff_marker
    (hostIsLittleEndian order : bool) (f : os_File) :
  (exists h err,
      Cr2.processHeader (Cr2.mkCr2Parser (mkRawParser hostIsLittleEndian)) f
      = Done (h, err)
      /\ (Cr2.isBigEndian h = true
          <-> byte_order_marker order f = Some 0x4D4D))
  /\ (exists h err,
        Nef.processHeader (Nef.mkNefParser hostIsLittleEndian) f
        = Done (h, err)
        /\ (Nef.isBigEndian h = true
            <-> byte_order_marker order f = Some 0x4D4D)).
Proof.
  split.
  - destruct (Cr2_header_flag
                (Cr2.mkCr2Parser (mkRawParser hostIsLittleEndian)) f)
      as (h & err & Hrun & Hflag).
    exists h, err. split; [exact Hrun|].
    rewrite Hflag. apply marker_flag.
  - destruct (Nef_header_flag (Nef.mkNefParser hostIsLittleEndian) f)
      as (h & err & Hrun & Hflag).
    exists h, err. split; [exact Hrun|].
    rewrite Hflag. apply marker_flag.
Qed.

(** C9. Neither header parser rejects a header for the value of a field:
    on every file on which all the field reads at the header offsets
    succeed, the header is returned with a nil error, its
    [tiffMagicValue] the two bytes at offset 2 whatever they are (42 or
    not), its root offset the four bytes at offset 4 and, in the Canon
    variant, the container magic and the two version bytes taken as they
    stand. *)
Theorem processHeader_accepts_any_field_values
    (hostIsLittleEndian : bool) (f : os_File) :
  let be := u16_at false f 0 =? 0x4D4D in
  let o := be && hostIsLittleEndian in
  (snd (readField 0 2 f) = None ->
   snd (readField 2 2 f) = None ->
   snd (readField 4 4 f) = None ->
   Nef.processHeader (Nef.mkNefParser hostIsLittleEndian) f
   = Done (Nef.mkNefHeader be (u16_at o f 2) (u32_at o f 4), None))
  /\ (snd (readField 0 2 f) = None ->
      snd (readField 2 2 f) = None ->
      snd (readField 4 4 f) = None ->
      snd (readField 8 2 f) = None ->
      snd (readField 10 1 f) = None ->
      snd (readField 11 1 f) = None ->
      Cr2.processHeader (Cr2.mkCr2Parser (mkRawParser hostIsLittleEndian)) f
      = Done (Cr2.mkCr2Header be (u16_at o f 2)
                (bytesToASCIIString [byte_at f 8; byte_at f 9])
                (u8 (byte_at f 10)) (u8 (byte_at f 11)) (u32_at o f 4),
              None)).
Proof.
  intros be o. split.
  - intros _ _ H4.
    apply readField_ok_inv in H4; [|lia].
    apply Nef_header_complete. lia.
  - intros _ _ _ _ _ H11.
    apply readField_ok_inv in H11; [|lia].
    apply Cr2_header_complete. lia.
Qed.

(** A twelve-byte header whose TIFF magic is 43 and whose container
    magic is not "CR" is accepted by both parsers. *)
Lemma processHeader_accepts_any_field_values_witness :
  let f := mkFile "odd.raw"
             [x49; x49; x2b; x00; xff; xff; xff; xff; x58; x59; x07; x09] in
  Nef.processHeader (Nef.mkNefParser true) f
  = Done (Nef.mkNefHeader false 43 0xFFFFFFFF, None)
  /\ Cr2.processHeader (Cr2.mkCr2Parser (mkRawParser true)) f
     = Done (Cr2.mkCr2Header false 43 "XY" 7 9 0xFFFFFFFF, None).
Proof.
  split.
  - exact (proj1 (processHeader_accepts_any_field_values true
             (mkFile "odd.raw"
                [x49; x49; x2b; x00; xff; xff; xff; xff; x58; x59; x07; x09]))
             eq_refl eq_refl eq_refl).
  - exact (proj2 (processHeader_accepts_any_field_values true
             (mkFile "odd.raw"
                [x49; x49; x2b; x00; xff; xff; xff; xff; x58; x59; x07; x09]))
             eq_refl eq_refl eq_refl eq_refl eq_refl eq_refl).
Defined.

(** ** Byte order of the 16-bit conversion *)

(** What [bytesToUShort] computes on two bytes: the big-endian reading
    only for a big-endian file on a little-endian host, the little-endian
    reading in the three other combinations. *)
Lemma bytesToUShort_reading (hostLe fileBe : bool) (b0 b1 : byte) :
  bytesToUShort hostLe fileBe [b0; b1]
  = Done (if fileBe && hostLe
          then u16_in_order true b0 b1 else u16_in_order false b0 b1).
Proof.
  rewrite bytesToUShort_pair. destruct (fileBe && hostLe); reflexivity.
Qed.

(** C1. On a little-endian host, and on a big-endian host with a
    little-endian file, [bytesToUShort] follows the rule of the
    specification (byte-swapped iff the two byte orders differ, the
    file's own order otherwise): {0xBB, 0xAA} gives 0xAABB for a
    little-endian file and 0xBBAA for a big-endian one.  On a big-endian
    host with a big-endian file the orders agree, yet the function
    returns the little-endian reading: {0x00, 0x2A} gives 0x2A00 where
    the rule gives 0x002A. *)
Theorem bytesToUShort_big_endian_host_big_endian_file :
  (forall fileBe b0 b1,
      bytesToUShort true fileBe [b0; b1]
      = Done (toUShort_spec true fileBe b0 b1))
  /\ (forall b0 b1,
        bytesToUShort false false [b0; b1]
        = Done (toUShort_spec false false b0 b1))
  /\ (forall b0 b1,
        bytesToUShort false true [b0; b1] = Done (u16_in_order false b0 b1))
  /\ bytesToUShort true false [xbb; xaa] = Done 0xAABB
  /\ bytesToUShort true true [xbb; xaa] = Done 0xBBAA
  /\ bytesToUShort false true [x00; x2a] = Done 0x2A00
  /\ toUShort_spec false true x00 x2a = 0x002A.
Proof.
  repeat split.
  - intros fileBe b0 b1.
    rewrite bytesToUShort_pair, toUShort_spec_file_order, andb_true_r.
    reflexivity.
  - intros b0 b1.
    rewrite bytesToUShort_pair, toUShort_spec_file_order. reflexivity.
  - intros b0 b1. rewrite bytesToUShort_pair. reflexivity.
Qed.

(** ** Orientation *)

Lemma processShortValue_halves (fileBe : bool) (v : Z) :
  0 <= v < 2 ^ 32 ->
  processShortValue fileBe v = if fileBe then v / 2 ^ 16 else v mod 2 ^ 16.
Proof.
  intros Hv. unfold processShortValue, wrap16.
  destruct fileBe.
  - rewrite Z.shiftr_div_pow2 by lia.
    apply Z.mod_small. split.
    + apply Z.div_pos; lia.
    + apply Z.div_lt_upper_bound; lia.
  - change 0x0000FFFF with (Z.ones 16). rewrite Z.land_ones by lia.
    apply Z.mod_mod. lia.
Qed.

Lemma rotationRads_nonzero : rotationRads <> 0%float.
Proof.
  intro H. apply (f_equal (PrimFloat.ltb 0)) in H.
  vm_compute in H. discriminate.
Qed.

(** C5. In both tag interpreters a root-directory entry with tag 0x0112
    sets the orientation to 270*pi/180 radians exactly when the short
    taken from its four-byte value field is 8, and to 0.0 for every other
    short; the short is the high 16 bits of the field for a big-endian
    file and the low 16 bits otherwise. *)
Theorem orientation_tag_mapping (fileIsBigEndian : bool) (v : Z) :
  0 <= v < 2 ^ 32 ->
  let short := if fileIsBigEndian then v / 2 ^ 16 else v mod 2 ^ 16 in
  let o := if short =? 8 then rotationRads else 0%float in
  processShortValue fileIsBigEndian v = short
  /\ (o = rotationRads <-> short = 8)
  /\ (forall n f h e rest jpeg cDate err,
        tag e = 0x0112 -> valueOffset e = v ->
        Cr2.isBigEndian h = fileIsBigEndian ->
        Cr2.root_loop n f h (e :: rest) jpeg cDate err
        = Cr2.root_loop n f h rest (set_orientation jpeg o) cDate err)
  /\ (forall n f h e rest jpeg cDate,
        tag e = 0x0112 -> valueOffset e = v ->
        Nef.isBigEndian h = fileIsBigEndian ->
        Nef.root_loop n f h (e :: rest) jpeg cDate
        = Nef.root_loop n f h rest (set_orientation jpeg o) cDate).
Proof.
  intros Hv short o.
  assert (Hshort : processShortValue fileIsBigEndian v = short)
    by (apply processShortValue_halves; exact Hv).
  repeat split.
  - exact Hshort.
  - unfold o. destruct (Z.eqb_spec short 8) as [E | N].
    + intros _. exact E.
    + intros H. symmetry in H. destruct (rotationRads_nonzero H).
  - unfold o. intros ->. reflexivity.
  - intros n f h e rest jpeg cDate err Htag Hval Hbe.
    cbn [Cr2.root_loop]. rewrite Htag. cbn [Z.eqb Pos.eqb].
    unfold orientation_of. rewrite Hbe, Hval, Hshort. reflexivity.
  - intros n f h e rest jpeg cDate Htag Hval Hbe.
    cbn [Nef.root_loop]. rewrite Htag. cbn [Z.eqb Pos.eqb].
    unfold orientation_of. rewrite Hbe, Hval, Hshort. reflexivity.
Qed.

(** A root directory with the one entry (0x0112, SHORT, 1, 8) of a
    little-endian Canon file leaves the orientation at 270 degrees; the
    short 1 of a Nikon file leaves it at 0.0; in a big-endian file the
    short 8 is the field 0x00080000. *)
Lemma orientation_tag_mapping_witness :
  Cr2.root_loop (Cr2.mkCr2Parser (mkRawParser true)) (mkFile "o.cr2" [])
    (Cr2.mkCr2Header false 42 "CR" 2 0 16) [mkIfdEntry 0x0112 3 1 8]
    zero_jpegInfo zeroTime None
  = Done (set_orientation zero_jpegInfo rotationRads, zeroTime, None)
  /\ Nef.root_loop (Nef.mkNefParser true) (mkFile "o.nef" [])
       (Nef.mkNefHeader false 42 8) [mkIfdEntry 0x0112 3 1 1]
       zero_jpegInfo zeroTime
     = Done (set_orientation zero_jpegInfo 0, zeroTime, None)
  /\ processShortValue true 0x00080000 = 8.
Proof.
  split; [|split].
  - refine (proj1 (proj2 (proj2 (orientation_tag_mapping false 8 _)))
              (Cr2.mkCr2Parser (mkRawParser true)) (mkFile "o.cr2" [])
              (Cr2.mkCr2Header false 42 "CR" 2 0 16)
              (mkIfdEntry 0x0112 3 1 8) [] zero_jpegInfo zeroTime None
              eq_refl eq_refl eq_refl).
    lia.
  - refine (proj2 (proj2 (proj2 (orientation_tag_mapping false 1 _)))
              (Nef.mkNefParser true) (mkFile "o.nef" [])
              (Nef.mkNefHeader false 42 8)
              (mkIfdEntry 0x0112 3 1 1) [] zero_jpegInfo zeroTime
              eq_refl eq_refl eq_refl).
    lia.
  - refine (proj1 (orientation_tag_mapping true 0x00080000 _)). lia.
Defined.

(** ** Rationals *)

Lemma u8_byte_of_Z (z : Z) : u8 (byte_of_Z z) = z mod 256.
Proof.
  unfold u8, byte_of_Z.
  assert (Hm : 0 <= z mod 256 < 256) by (apply Z.mod_pos_bound; lia).
  destruct (Byte.of_N (Z.to_N (z mod 256))) as [b|] eqn:E.
  - apply Byte.to_of_N in E. rewrite E. lia.
  - apply Byte.of_N_None_iff in E. lia.
Qed.

Lemma u32_in_order_encode (o : bool) (v : Z) :
  0 <= v < 2 ^ 32 ->
  match encode_u32 o v with
  | [b0; b1; b2; b3] => u32_in_order o b0 b1 b2 b3 = v
  | _ => False
  end.
Proof.
  intros Hv. unfold encode_u32, u32_in_order.
  destruct o; rewrite !u8_byte_of_Z;
    change (2 ^ 8) with 256; change (2 ^ 16) with 65536;
    change (2 ^ 24) with 16777216;
    Z.div_mod_to_equations; lia.
Qed.

Lemma encode_u32_length (o : bool) (v : Z) :
  List.length (encode_u32 o v) = 4%nat.
Proof. unfold encode_u32. destruct o; reflexivity. Qed.

Lemma bytesToUInt_encode (hostLe fileBe : bool) (v : Z) :
  0 <= v < 2 ^ 32 ->
  bytesToUInt hostLe fileBe (encode_u32 (fileBe && hostLe) v) = Done v.
Proof.
  intros Hv. pose proof (u32_in_order_encode (fileBe && hostLe) v Hv) as H.
  destruct (encode_u32 (fileBe && hostLe) v) as [|b0 [|b1 [|b2 [|b3 [|? ?]]]]];
    try contradiction.
  rewrite bytesToUInt_quad, H. reflexivity.
Qed.

Lemma sub_here (name : string) (pre x rest : list byte) :
  sub (mkFile name (pre ++ x ++ rest)) (Z.of_nat (List.length pre))
    (List.length x) = x.
Proof.
  unfold sub. cbn [contents]. rewrite Nat2Z.id.
  rewrite skipn_app, skipn_all, Nat.sub_diag. cbn [skipn app].
  rewrite firstn_app, Nat.sub_diag, firstn_all. cbn [firstn].
  apply app_nil_r.
Qed.

(** C6. [processRationalEntry] reads the numerator and then the
    denominator as two consecutive 4-byte unsigned integers at the value
    offset (in the byte order in which [bytesToUInt] reads this file on
    this host), and for every numerator and denominator the ratio it
    returns is the truncating unsigned division numerator/denominator
    converted to [float64] when the denominator is positive, and 0.0 when
    it is zero. *)
Theorem processRationalEntry_truncating_ratio
    (hostLe fileBe : bool) (name : string) (pre post : list byte)
    (num den : Z) :
  0 <= num < 2 ^ 32 ->
  0 <= den < 2 ^ 32 ->
  Z.of_nat (List.length pre) < 2 ^ 32 ->
  processRationalEntry hostLe fileBe (Z.of_nat (List.length pre))
    (mkFile name
       (pre ++ encode_u32 (fileBe && hostLe) num
            ++ encode_u32 (fileBe && hostLe) den ++ post))
  = Done (num, den,
          if 0 <? den then float64_of_uint32 (num / den) else 0%float,
          None).
Proof.
  intros Hnum Hden Hoff.
  set (o := fileBe && hostLe).
  set (f := mkFile name (pre ++ encode_u32 o num ++ encode_u32 o den ++ post)).
  assert (Hlen : flen f
                 = Z.of_nat (List.length pre) + 8
                   + Z.of_nat (List.length post)).
  { unfold flen, f. cbn [contents].
    rewrite !length_app, !encode_u32_length. lia. }
  unfold processRationalEntry.
  rewrite readField_full by lia.
  change (Z.to_nat 4) with 4%nat.
  rewrite <- (encode_u32_length o num).
  unfold f at 1. rewrite sub_here.
  unfold o at 1. rewrite bytesToUInt_encode by assumption. cbn [bind].
  unfold add_i64. rewrite wrap_i64_small by lia.
  rewrite readField_full by lia.
  replace (Z.of_nat (List.length pre) + 4)
    with (Z.of_nat (List.length (pre ++ encode_u32 o num)))
    by (rewrite length_app, encode_u32_length; lia).
  change (Z.to_nat 4) with 4%nat.
  rewrite <- (encode_u32_length o den).
  unfold f. rewrite (app_assoc pre), sub_here.
  unfold o at 1. rewrite bytesToUInt_encode by assumption. cbn [bind].
  reflexivity.
Qed.

(** The resolution 72/32 of a little-endian file read on a little-endian
    host: the ratio is 2.0, the fraction is lost. *)
Lemma processRationalEntry_truncating_ratio_witness :
  processRationalEntry true false 0
    (mkFile "a.cr2" [x48; x00; x00; x00; x20; x00; x00; x00])
  = Done (72, 32, 2%float, None).
Proof.
  refine (processRationalEntry_truncating_ratio true false "a.cr2" [] []
            72 32 _ _ _); cbn; lia.
Defined.

(** ** Directories *)

Lemma padded_pair (c : list byte) (o : nat) :
  firstn 2 (skipn o c)
    ++ repeat x00 (2 - List.length (firstn 2 (skipn o c)))
  = [nth o c x00; nth (o + 1) c x00].
Proof.
  rewrite <- (Nat.add_0_r o) at 3.
  rewrite <- !nth_skipn.
  destruct (skipn o c) as [|b [|b' r]]; reflexivity.
Qed.

(** The cache of a two-byte read holds the bytes of the file, zero where
    the file has ended, whether or not the read is short. *)
Lemma readField_pair_cache (off : Z) (f : os_File) :
  0 <= off ->
  fst (readField off 2 f) = [byte_at f off; byte_at f (off + 1)].
Proof.
  intros Hoff. unfold readField, ReadAt, byte_at.
  destruct (Z.ltb_spec off 0) as [Hneg | _]; [lia|].
  change (Z.to_nat 2) with 2%nat.
  replace (Z.to_nat (off + 1)) with (Z.to_nat off + 1)%nat by lia.
  rewrite <- padded_pair.
  destruct (negb _); reflexivity.
Qed.

Section Directory.
Variables hostLe fileBe : bool.
Variable f : os_File.

Let o := fileBe && hostLe.

Lemma processIfd_loop_first_short (n : nat) (off : Z) (l : list ifdEntry)
    (err0 : option error) :
  0 <= off -> off + 12 < 2 ^ 63 -> flen f < off + 12 ->
  exists e,
    processIfd_loop hostLe fileBe f (S n) off l err0 = Done (l, Some e).
Proof.
  intros Hoff Hmax Hshort. cbn [processIfd_loop]. unfold add_i64.
  destruct (Z.lt_ge_cases (flen f) (off + 2)).
  { read_fails off 2 f. eauto. }
  read16. rewrite ?wrap_i64_small by lia.
  destruct (Z.lt_ge_cases (flen f) (off + 2 + 2)).
  { read_fails (off + 2) 2 f. eauto. }
  read16. rewrite ?wrap_i64_small by lia.
  destruct (Z.lt_ge_cases (flen f) (off + 2 + 2 + 4)).
  { read_fails (off + 2 + 2) 4 f. eauto. }
  read32. rewrite ?wrap_i64_small by lia.
  read_fails (off + 2 + 2 + 4) 4 f. eauto.
Qed.

Lemma processIfd_loop_record (n : nat) (off : Z) (l : list ifdEntry)
    (err0 : option error) :
  0 <= off -> off + 12 < 2 ^ 63 -> off + 12 <= flen f ->
  processIfd_loop hostLe fileBe f (S n) off l err0
  = processIfd_loop hostLe fileBe f n (off + 12)
      (l ++ [entry_at o f off]) None.
Proof.
  intros Hoff Hmax Hfit. cbn [processIfd_loop]. unfold add_i64.
  read16. rewrite ?wrap_i64_small by lia.
  read16. rewrite ?wrap_i64_small by lia.
  read32. rewrite ?wrap_i64_small by lia.
  read32. rewrite ?wrap_i64_small by lia.
  unfold entry_at.
  replace (off + 2 + 2) with (off + 4) by lia.
  replace (off + 4 + 4) with (off + 8) by lia.
  replace (off + 8 + 4) with (off + 12) by lia.
  reflexivity.
Qed.

Lemma records_step (off : Z) (k : nat) :
  entry_at o f off
    :: map (fun i => entry_at o f (off + 12 + 12 * Z.of_nat i)) (seq 0 k)
  = map (fun i => entry_at o f (off + 12 * Z.of_nat i)) (seq 0 (S k)).
Proof.
  cbn [seq map]. f_equal.
  - f_equal. lia.
  - rewrite <- seq_shift, map_map. apply map_ext.
    intros i. f_equal. lia.
Qed.

Lemma processIfd_loop_complete (n : nat) :
  forall (off : Z) (l : list ifdEntry) (err0 : option error),
  0 <= off -> off + 12 * Z.of_nat n < 2 ^ 63 ->
  off + 12 * Z.of_nat n <= flen f ->
  processIfd_loop hostLe fileBe f n off l err0
  = Done (l ++ map (fun i => entry_at o f (off + 12 * Z.of_nat i)) (seq 0 n),
          match n with O => err0 | S _ => None end).
Proof.
  induction n as [|n IH]; intros off l err0 Hoff Hmax Hfit.
  - cbn. rewrite app_nil_r. reflexivity.
  - rewrite processIfd_loop_record by lia.
    rewrite IH by lia.
    rewrite <- app_assoc. cbn [app]. rewrite records_step.
    destruct n; reflexivity.
Qed.

Lemma processIfd_loop_short (n : nat) :
  forall (off : Z) (l : list ifdEntry) (err0 : option error),
  0 <= off -> off + 12 * Z.of_nat (S n) < 2 ^ 63 ->
  flen f < off + 12 * Z.of_nat (S n) ->
  exists k e,
    (k <= n)%nat
    /\ processIfd_loop hostLe fileBe f (S n) off l err0
       = Done (l ++ map (fun i => entry_at o f (off + 12 * Z.of_nat i))
                     (seq 0 k),
               Some e).
Proof.
  induction n as [|n IH]; intros off l err0 Hoff Hmax Hshort.
  - destruct (processIfd_loop_first_short 0 off l err0) as (e & He);
      [lia | lia | lia |].
    exists 0%nat, e. split; [lia|]. rewrite He. cbn. rewrite app_nil_r.
    reflexivity.
  - destruct (Z.lt_ge_cases (flen f) (off + 12)) as [Hlt | Hge].
    + destruct (processIfd_loop_first_short (S n) off l err0) as (e & He);
        [lia | lia | lia |].
      exists 0%nat, e. split; [lia|]. rewrite He. cbn. rewrite app_nil_r.
      reflexivity.
    + rewrite processIfd_loop_record by lia.
      destruct (IH (off + 12) (l ++ [entry_at o f off]) None)
        as (k & e & Hk & Hrun); [lia | lia | lia |].
      exists (S k), e. split; [lia|].
      rewrite Hrun, <- app_assoc. cbn [app]. rewrite records_step.
      reflexivity.
Qed.
End Directory.

(** C4. [processIfd] decodes the two-byte entry count [n] at the offset
    and then the [n] consecutive twelve-byte records that start two bytes
    further on, each as {tag: u16, fieldType: u16, count: u32,
    valueOffset: u32} under the byte-order rule of the primitive
    conversions, twelve bytes apart and in directory order.  When the
    count and all [n] records lie inside the file, exactly these [n]
    entries come back with a nil error; when they do not (some read is
    short), an error comes back, with the entries decoded until then:
    the traversal never takes more than [n] <= 65535 steps. *)
Theorem processIfd_decodes_directory
    (hostLe fileBe : bool) (off : Z) (f : os_File) :
  0 <= off ->
  off + 2 + 12 * 65535 < 2 ^ 63 ->
  let o := fileBe && hostLe in
  let n := u16_at o f off in
  0 <= n <= 65535
  /\ (off + 2 + 12 * n <= flen f ->
      processIfd hostLe fileBe off f
      = Done (entries_from o f off (Z.to_nat n), None))
  /\ (flen f < off + 2 + 12 * n ->
      exists k e,
        (k <= Z.to_nat n)%nat
        /\ processIfd hostLe fileBe off f
           = Done (entries_from o f off k, Some e)).
Proof.
  intros Hoff Hmax o n.
  assert (Hn : 0 <= n <= 65535).
  { pose proof (u16_in_order_range o (byte_at f off) (byte_at f (off + 1))).
    unfold n, u16_at. lia. }
  assert (Hcount :
    forall err0,
      readField off 2 f = (fst (readField off 2 f), err0) ->
      processIfd hostLe fileBe off f
      = processIfd_loop hostLe fileBe f (Z.to_nat n) (off + 2) [] err0).
  { intros err0 Hr. unfold processIfd. rewrite Hr.
    rewrite readField_pair_cache by assumption.
    rewrite bytesToUShort_pair. cbn [bind].
    unfold add_i64. rewrite wrap_i64_small by lia. reflexivity. }
  split; [exact Hn|]. split.
  - intros Hfit.
    rewrite (Hcount None).
    2: { rewrite readField_u16_eq by lia. reflexivity. }
    rewrite processIfd_loop_complete by lia.
    cbn [app]. unfold entries_from.
    destruct (Z.to_nat n); reflexivity.
  - intros Hshort.
    destruct (readField off 2 f) as [cache err0] eqn:Hr.
    specialize (Hcount err0 eq_refl).
    destruct (Z.to_nat n) as [|m] eqn:Hm.
    + (* no record: the count itself could not be read *)
      assert (Hlen : flen f < off + 2) by lia.
      destruct (readField_short off 2 f) as (c & e & He); [lia | lia |].
      rewrite Hr in He. injection He as _ ->.
      exists 0%nat, e. split; [lia|]. rewrite Hcount. reflexivity.
    + destruct (processIfd_loop_short hostLe fileBe f m (off + 2) [] err0)
        as (k & e & Hk & Hrun); [lia | lia | lia |].
      exists k, e. split; [lia|]. rewrite Hcount, Hrun. reflexivity.
Qed.

(** ** Splitting *)

Lemma strings_Split_nonempty (s : string) (sep : ascii) :
  strings_Split s sep <> [].
Proof.
  destruct s as [|c s]; cbn [strings_Split]; [discriminate|].
  destruct (Ascii.eqb c sep); [discriminate|].
  destruct (strings_Split s sep); discriminate.
Qed.

(** No token of a split holds the separator. *)
Lemma strings_Split_no_sep (sep : ascii) (s : string) :
  forall tok, In tok (strings_Split s sep) ->
  ~ In sep (list_ascii_of_string tok).
Proof.
  induction s as [|c s IH]; intros tok Hin.
  - cbn in Hin. destruct Hin as [<- | []]. cbn. tauto.
  - cbn [strings_Split] in Hin.
    destruct (Ascii.eqb_spec c sep) as [-> | Hne].
    + destruct Hin as [<- | Hin]; [cbn; tauto | apply IH; exact Hin].
    + destruct (strings_Split s sep) as [|t rest] eqn:Hs.
      * destruct (strings_Split_nonempty s sep Hs).
      * destruct Hin as [<- | Hin].
        -- cbn [list_ascii_of_string In]. intros [Heq | Hin'].
           ++ apply Hne. exact Heq.
           ++ apply (IH t); [left; reflexivity | exact Hin'].
        -- apply IH. right. exact Hin.
Qed.

(** ** The month table *)

Lemma toRfc822Date_table (y m d : string) :
  toRfc822Date [y; m; d]
  = Done match month_entry m with
         | Some (abbrev, _) => (abbrev, None)
         | None => (EmptyString, Some (InvalidMonth m))
         end.
Proof.
  unfold toRfc822Date, month_entry. cbn [index nth_error bind].
  cbn [month_table assoc].
  repeat (match goal with
          | |- context [String.eqb m ?k] => destruct (String.eqb m k)
          end; try reflexivity).
Qed.

(** ** Digits and the stages of the layout parse *)

Lemma byte_val_range (c : ascii) : 0 <= byte_val c < 256.
Proof.
  unfold byte_val. pose proof (N_ascii_bounded c). lia.
Qed.

Lemma is_digit_val (c : ascii) :
  is_digit c = true -> 0 <= digit_val c <= 9.
Proof.
  unfold is_digit, digit_val. intros H.
  apply andb_true_iff in H. destruct H as [H1 H2].
  apply Z.leb_le in H1. apply Z.leb_le in H2. lia.
Qed.

Lemma is_digit_not (c x : ascii) :
  is_digit c = true -> is_digit x = false -> Ascii.eqb c x = false.
Proof.
  intros Hc Hx.
  destruct (Ascii.eqb_spec c x) as [-> | _]; [congruence | reflexivity].
Qed.

Lemma getnum_two (a b : ascii) (r : string) (fixed : bool) :
  is_digit a = true -> is_digit b = true ->
  getnum (String a (String b r)) fixed = Some (two_digits a b, r).
Proof.
  intros Ha Hb. unfold getnum, isDigit. cbn [String.get].
  rewrite Ha, Hb. reflexivity.
Qed.

Lemma substring_all (s : string) : substring 0 (String.length s) s = s.
Proof. induction s as [|c s IH]; cbn; [reflexivity | rewrite IH; reflexivity]. Qed.


Lemma substring_00 (s : string) : substring 0 0 s = EmptyString.
Proof. destruct s; reflexivity. Qed.

Lemma lookup_month (abbrev : string) (k : Z) (r : string) :
  In (abbrev, k) month_names ->
  lookup shortMonthNames 0 (abbrev ++ r) = Some (k - 1, r).
Proof.
  intros Hin. cbn [In month_names] in Hin.
  repeat (destruct Hin as [Heq | Hin];
          [injection Heq as <- <-; cbn;
           rewrite substring_00, Nat.sub_0_r, substring_all; reflexivity|]).
  destruct Hin.
Qed.

Lemma append_assoc (a b c : string) : ((a ++ b) ++ c = a ++ (b ++ c))%string.
Proof. induction a as [|x a IH]; cbn; [reflexivity | rewrite IH; reflexivity]. Qed.

Lemma string_of_byte_ascii (c : ascii) :
  byte_val c < 128 -> string_of_byte c = String c EmptyString.
Proof.
  unfold string_of_byte, byte_val. intros H.
  destruct (N.ltb_spec (N_of_ascii c) 128); [reflexivity | lia].
Qed.

Lemma is_digit_ascii (c : ascii) : is_digit c = true -> byte_val c < 128.
Proof.
  unfold is_digit. intros H. apply andb_true_iff in H. destruct H as [_ H].
  apply Z.leb_le in H. lia.
Qed.

Lemma atoi_two_digits (a b : ascii) :
  is_digit a = true -> is_digit b = true -> atoi (str2 a b) = Some (two_digits a b).
Proof.
  intros Ha Hb.
  pose proof (is_digit_val a Ha). pose proof (is_digit_val b Hb).
  unfold atoi, str2.
  rewrite (is_digit_not a "-"), (is_digit_not a "+") by (assumption || reflexivity).
  cbn [orb leadingInt]. rewrite Ha, Hb. cbn [negb].
  change (2 ^ 63 / 10 <? 0) with false. cbv beta iota.
  destruct (Z.ltb_spec (2 ^ 63) (0 * 10 + digit_val a)); [lia|].
  destruct (Z.ltb_spec (2 ^ 63 / 10) (0 * 10 + digit_val a)).
  { assert (2 ^ 63 / 10 = 922337203685477580) by reflexivity. lia. }
  destruct (Z.ltb_spec (2 ^ 63) ((0 * 10 + digit_val a) * 10 + digit_val b));
    [lia|].
  unfold two_digits. f_equal.
Qed.


Lemma cutspace_month (abbrev : string) (k : Z) (r : string) :
  In (abbrev, k) month_names -> cutspace (abbrev ++ r) = (abbrev ++ r)%string.
Proof.
  intros Hin. cbn [In month_names] in Hin.
  repeat (destruct Hin as [Heq | Hin];
          [injection Heq as <- <-; reflexivity|]).
  destruct Hin.
Qed.

Lemma cutspace_nonspace (c : ascii) (r : string) :
  Ascii.eqb c " " = false -> cutspace (String c r) = String c r.
Proof. intros H. cbn [cutspace]. rewrite H. reflexivity. Qed.

Lemma skip_space_space (r : string) :
  skip_space (String " " r) = Some (cutspace r).
Proof. reflexivity. Qed.

Lemma year_chunk (a b : ascii) (rest : string) :
  (String.length (String a (String b rest)) <? 2)%nat = false
  /\ substring 0 2 (String a (String b rest)) = str2 a b
  /\ substring 2 (String.length (String a (String b rest)) - 2)
       (String a (String b rest)) = rest.
Proof.
  repeat split.
  - cbn [substring]. rewrite substring_00. reflexivity.
  - cbn [String.length Nat.sub substring]. rewrite Nat.sub_0_r. apply substring_all.
Qed.

Lemma digit_not_space (c : ascii) : is_digit c = true -> Ascii.eqb c " " = false.
Proof. intros H. apply is_digit_not; [exact H | reflexivity]. Qed.

Lemma time_Parse_well_formed (d0 d1 y2 y3 h0 h1 m0 m1 : ascii)
    (abbrev : string) (k : Z) :
  is_digit d0 = true -> is_digit d1 = true ->
  is_digit y2 = true -> is_digit y3 = true ->
  is_digit h0 = true -> is_digit h1 = true ->
  is_digit m0 = true -> is_digit m1 = true ->
  In (abbrev, k) month_names ->
  two_digits h0 h1 < 24 ->
  two_digits m0 m1 < 60 ->
  1 <= two_digits d0 d1 <= daysIn k (two_digit_year (two_digits y2 y3)) ->
  time_Parse
    ((str2 d0 d1 ++ " " ++ abbrev ++ " "
        ++ string_of_byte y2 ++ string_of_byte y3)
       ++ " " ++ str2 h0 h1 ++ ":" ++ str2 m0 m1)%string
  = (mkTime (two_digit_year (two_digits y2 y3)) k (two_digits d0 d1)
       (two_digits h0 h1) (two_digits m0 m1) 0, None).
Proof.
  intros Hd0 Hd1 Hy2 Hy3 Hh0 Hh1 Hm0 Hm1 Hin Hh Hm Hd.
  pose proof (is_digit_val h0 Hh0). pose proof (is_digit_val h1 Hh1).
  pose proof (is_digit_val m0 Hm0). pose proof (is_digit_val m1 Hm1).
  rewrite !string_of_byte_ascii by (apply is_digit_ascii; assumption).
  rewrite !append_assoc. unfold str2. cbn [append].
  unfold time_Parse.
  rewrite getnum_two by assumption.
  rewrite skip_space_space, (cutspace_month abbrev k) by exact Hin.
  rewrite (lookup_month abbrev k) by exact Hin.
  rewrite skip_space_space, cutspace_nonspace
    by (apply digit_not_space; assumption).
  match goal with
  | |- context [String y2 (String y3 ?rest)] =>
      destruct (year_chunk y2 y3 rest) as (-> & -> & ->)
  end.
  rewrite atoi_two_digits by assumption.
  fold (two_digit_year (two_digits y2 y3)).
  rewrite skip_space_space, cutspace_nonspace
    by (apply digit_not_space; assumption).
  rewrite getnum_two by assumption.
  unfold two_digits in *.
  rewrite (proj2 (Z.ltb_ge _ 0)) by lia.
  rewrite (proj2 (Z.leb_gt 24 _)) by lia.
  cbn [orb skip_byte Ascii.eqb Bool.eqb].
  rewrite getnum_two by assumption.
  unfold two_digits.
  rewrite (proj2 (Z.ltb_ge _ 0)) by lia.
  rewrite (proj2 (Z.leb_gt 60 _)) by lia.
  cbn [orb].
  rewrite (proj2 (Z.ltb_ge _ 1)) by lia.
  replace (k - 1 + 1) with k by lia.
  rewrite (proj2 (Z.ltb_ge _ _)) by lia.
  reflexivity.
Qed.

Lemma time_Parse_outcome (v : string) :
  (exists t, time_Parse v = (t, None))
  \/ (exists e, time_Parse v = (zeroTime, Some e)).
Proof.
  unfold time_Parse.
  repeat match goal with
         | |- context [match ?x with _ => _ end] => destruct x
         | |- context [if ?x then _ else _] => destruct x
         end; eauto.
Qed.

Lemma getnum_inv (s r : string) (fixed : bool) (v : Z) :
  getnum s fixed = Some (v, r) ->
  (exists a b, s = String a (String b r)
               /\ is_digit a = true /\ is_digit b = true
               /\ v = two_digits a b)
  \/ (fixed = false
      /\ exists a, s = String a r /\ is_digit a = true
                   /\ isDigit s 1 = false /\ v = digit_val a).
Proof.
  unfold getnum. 
  destruct (isDigit s 0) eqn:H0; cbn [negb]; [|discriminate].
  destruct (isDigit s 1) eqn:H1; cbn [negb].
  - destruct s as [|a [|b s']]; try discriminate.
    intros H. injection H as <- <-. left. exists a, b. 
    unfold isDigit in H0, H1. cbn in H0, H1. auto.
  - destruct fixed; [discriminate|].
    destruct s as [|a s']; [discriminate|].
    intros H. injection H as <- <-. right. split; [reflexivity|].
    exists a. unfold isDigit in H0. cbn in H0. auto.
Qed.

Lemma atoi_str2_inv (a b : ascii) (v : Z) :
  atoi (str2 a b) = Some v ->
  is_digit b = true /\ (is_digit a = true \/ is_sign a = true).
Proof.
  unfold atoi, str2. fold (is_sign a).
  destruct (is_sign a) eqn:Hs.
  - cbn [leadingInt]. destruct (is_digit b) eqn:Hb; cbn [negb].
    + auto.
    + discriminate.
  - cbn [leadingInt]. destruct (is_digit a) eqn:Ha; cbn [negb]; [|discriminate].
    destruct (2 ^ 63 / 10 <? 0); [discriminate|].
    destruct (2 ^ 63 <? 0 * 10 + digit_val a); [discriminate|].
    destruct (is_digit b) eqn:Hb; cbn [negb]; [auto | discriminate].
Qed.

Lemma byte_val_neq (c x : ascii) :
  byte_val c <> byte_val x -> Ascii.eqb c x = false.
Proof.
  intros H.
  destruct (Ascii.eqb_spec c x) as [-> | _]; [contradiction | reflexivity].
Qed.

Lemma string_of_byte_wide (c : ascii) :
  128 <= byte_val c ->
  exists p0 p1,
    string_of_byte c = str2 p0 p1
    /\ is_digit p0 = false /\ is_sign p0 = false
    /\ Ascii.eqb p0 " " = false.
Proof.
  intros H. pose proof (byte_val_range c) as Hr.
  unfold string_of_byte. unfold byte_val in H, Hr.
  destruct (N.ltb_spec (N_of_ascii c) 128) as [Hlt | Hge]; [lia|].
  do 2 eexists. split; [reflexivity|].
  assert (Hq : (N_of_ascii c / 64 < 4)%N).
  { apply N.Div0.div_lt_upper_bound. exact (N_ascii_bounded c). }
  assert (Hp : byte_val (ascii_of_N (192 + N_of_ascii c / 64))
               = 192 + Z.of_N (N_of_ascii c / 64)).
  { unfold byte_val. set (q := (N_of_ascii c / 64)%N) in *.
    rewrite N_ascii_embedding by lia. lia. }
  set (q := (N_of_ascii c / 64)%N) in *.
  repeat split.
  - unfold is_digit. rewrite Hp.
    destruct (Z.leb_spec (192 + Z.of_N q) 57); [lia|].
    apply andb_false_r.
  - unfold is_sign.
    rewrite (byte_val_neq _ "-"), (byte_val_neq _ "+"); [reflexivity | |];
      rewrite Hp;
      [change (byte_val "+") with 43 | change (byte_val "-") with 45]; lia.
  - apply byte_val_neq. rewrite Hp. change (byte_val " ") with 32. lia.
Qed.

Lemma not_in_head (c x : ascii) (s : string) :
  ~ In c (list_ascii_of_string (String x s)) -> Ascii.eqb x c = false.
Proof.
  intros H. destruct (Ascii.eqb_spec x c) as [-> | _]; [|reflexivity].
  exfalso. apply H. left. reflexivity.
Qed.

Lemma not_in_tail (c x : ascii) (s : string) :
  ~ In c (list_ascii_of_string (String x s)) ->
  ~ In c (list_ascii_of_string s).
Proof. intros H Hin. apply H. right. exact Hin. Qed.

Lemma is_numeric_1 (a : ascii) :
  is_digit a = true -> is_numeric (String a EmptyString) = true.
Proof. intros H. unfold is_numeric, all_digits. cbn. rewrite H. reflexivity. Qed.

Lemma is_numeric_2 (a b : ascii) :
  is_digit a = true -> is_digit b = true -> is_numeric (str2 a b) = true.
Proof.
  intros Ha Hb. unfold is_numeric, all_digits. cbn. rewrite Ha, Hb. reflexivity.
Qed.

Ltac step_getnum a b v r Es Ha Hb :=
  match goal with
  | |- context [getnum ?s ?fx] =>
      let E := fresh "E" in
      destruct (getnum s fx) as [[v r]|] eqn:E; [|discriminate];
      apply getnum_inv in E;
      destruct E as [(a & b & Es & Ha & Hb & ->) | E]
  end.

Lemma time_Parse_accepts_shape (d abbrev : string) (k : Z) (y2 y3 : ascii)
    (hh mi : string) :
  In (abbrev, k) month_names ->
  ~ In " "%char (list_ascii_of_string d) ->
  Ascii.eqb y2 " " = false ->
  ~ In " "%char (list_ascii_of_string hh) ->
  ~ In ":"%char (list_ascii_of_string hh) ->
  snd (time_Parse
         ((d ++ " " ++ abbrev ++ " "
             ++ string_of_byte y2 ++ string_of_byte y3)
            ++ " " ++ hh ++ ":" ++ mi)%string) = None ->
  is_numeric d = true
  /\ is_digit y3 = true
  /\ (is_digit y2 = true \/ is_sign y2 = true)
  /\ is_numeric hh = true
  /\ is_numeric mi = true.
Proof.
  intros Hin Hd Hy2 Hhs Hhc.
  rewrite !append_assoc. cbn [append].
  unfold time_Parse.
  (* day *)
  step_getnum d0 d1 dv v1 Es Hd0 Hd1; [|destruct E; discriminate].
  destruct d as [|x [|x' r]]; cbn [append] in Es.
  { injection Es as <- _. discriminate. }
  { injection Es as _ <- _. discriminate. }
  injection Es as -> -> <-.
  destruct r as [|z r']; cbn [append].
  2: { cbn [skip_space].
       rewrite (not_in_head " " z r')
         by (apply not_in_tail with d1, not_in_tail with d0; exact Hd).
       discriminate. }
  rewrite skip_space_space, (cutspace_month abbrev k) by exact Hin.
  rewrite (lookup_month abbrev k) by exact Hin.
  (* year *)
  rewrite skip_space_space.
  destruct (Z.lt_ge_cases (byte_val y2) 128) as [H2 | H2].
  2: { destruct (string_of_byte_wide y2 H2) as (p0 & p1 & -> & Hp & Hs & Hsp).
       unfold str2. cbn [append].
       rewrite cutspace_nonspace by exact Hsp.
       match goal with
       | |- context [String p0 (String p1 ?rest)] =>
           destruct (year_chunk p0 p1 rest) as (-> & -> & _)
       end.
       destruct (atoi (str2 p0 p1)) as [yv|] eqn:Ea; [|discriminate].
       apply atoi_str2_inv in Ea. destruct Ea as [_ [Hp' | Hs']]; congruence. }
  rewrite (string_of_byte_ascii y2) by exact H2. cbn [append].
  rewrite cutspace_nonspace by exact Hy2.
  destruct (Z.lt_ge_cases (byte_val y3) 128) as [H3 | H3].
  2: { destruct (string_of_byte_wide y3 H3) as (q0 & q1 & -> & Hq & _ & _).
       unfold str2. cbn [append].
       match goal with
       | |- context [String y2 (String q0 ?rest)] =>
           destruct (year_chunk y2 q0 rest) as (-> & -> & _)
       end.
       destruct (atoi (str2 y2 q0)) as [yv|] eqn:Ea; [|discriminate].
       apply atoi_str2_inv in Ea. destruct Ea as [Hq' _]. congruence. }
  rewrite (string_of_byte_ascii y3) by exact H3. cbn [append].
  match goal with
  | |- context [String y2 (String y3 ?rest)] =>
      destruct (year_chunk y2 y3 rest) as (-> & -> & ->)
  end.
  destruct (atoi (str2 y2 y3)) as [yv|] eqn:Ea; [|discriminate].
  apply atoi_str2_inv in Ea. destruct Ea as [Hy3 Hy2'].
  (* hour *)
  rewrite skip_space_space.
  assert (Hminute :
    forall (h : Z) (dd mm yy : Z),
      snd match getnum mi true with
          | Some (mi0, value2) =>
              if (mi0 <? 0) || (60 <=? mi0)
              then (zeroTime, Some (ParseError value2 ": minute out of range"))
              else match value2 with
                   | EmptyString =>
                       if (dd <? 1) || (daysIn mm yy <? dd)
                       then (zeroTime,
                             Some (ParseError value2 ": day out of range"))
                       else (mkTime yy mm dd h mi0 0, None)
                   | String _ _ =>
                       (zeroTime, Some (ParseError value2 ": extra text"))
                   end
          | None => (zeroTime, Some (ParseError mi EmptyString))
          end = None ->
      is_numeric mi = true).
  { intros h dd mm yy.
    step_getnum m0 m1 mv v9 Es Hm0 Hm1; [|destruct E; discriminate].
    destruct ((two_digits m0 m1 <? 0) || (60 <=? two_digits m0 m1));
      [discriminate|].
    destruct v9; [|discriminate].
    intros _. subst mi. apply is_numeric_2; assumption. }
  destruct hh as [|a [|b r]]; cbn [append].
  - discriminate.
  - rewrite cutspace_nonspace by (apply (not_in_head " " a EmptyString); exact Hhs).
    step_getnum h0 h1 hv v7 Es Hh0 Hh1.
    { injection Es as _ <- _. discriminate. }
    destruct E as (_ & h0 & Es & Hh0 & _ & ->).
    injection Es as <- <-.
    destruct ((digit_val a <? 0) || (24 <=? digit_val a)); [discriminate|].
    cbn [skip_byte Ascii.eqb Bool.eqb].
    intros Hok. apply Hminute in Hok.
    repeat split; try assumption.
    + apply is_numeric_2; assumption.
    + apply is_numeric_1; assumption.
  - rewrite cutspace_nonspace
      by (apply (not_in_head " " a (String b r)); exact Hhs).
    assert (Hb : Ascii.eqb b ":" = false).
    { apply (not_in_head ":" b r), not_in_tail with a. exact Hhc. }
    step_getnum h0 h1 hv v7 Es Hh0 Hh1.
    + injection Es as <- <- <-.
      destruct ((two_digits a b <? 0) || (24 <=? two_digits a b));
        [discriminate|].
      destruct r as [|z r']; cbn [append skip_byte].
      * cbn [Ascii.eqb Bool.eqb].
        intros Hok. apply Hminute in Hok.
        repeat split; try assumption.
        -- apply is_numeric_2; assumption.
        -- apply (is_numeric_2 a b); assumption.
      * rewrite (not_in_head ":" z r')
          by (apply not_in_tail with b, not_in_tail with a; exact Hhc).
        discriminate.
    + destruct E as (_ & h0 & Es & Hh0 & _ & ->).
      injection Es as <- <-.
      destruct ((digit_val a <? 0) || (24 <=? digit_val a)); [discriminate|].
      cbn [skip_byte]. rewrite Hb. discriminate.
Qed.

(** ** parseDateTime *)

Lemma month_entry_names (m abbrev : string) (k : Z) :
  month_entry m = Some (abbrev, k) -> In (abbrev, k) month_names.
Proof.
  unfold month_entry. cbn [month_table assoc].
  repeat (match goal with
          | |- context [String.eqb m ?k] => destruct (String.eqb m k)
          end;
          [intros H; injection H as <- <-; cbn; tauto|]).
  discriminate.
Qed.

(** The tokens of a split hold only bytes of the string. *)
Lemma strings_Split_sub (sep : ascii) (s : string) :
  forall tok c, In tok (strings_Split s sep) ->
  In c (list_ascii_of_string tok) -> In c (list_ascii_of_string s).
Proof.
  induction s as [|x s IH]; intros tok c Hin Hc.
  - cbn in Hin. destruct Hin as [<- | []]. exact Hc.
  - cbn [strings_Split] in Hin. cbn [list_ascii_of_string].
    destruct (Ascii.eqb x sep).
    + destruct Hin as [<- | Hin]; [destruct Hc|].
      right. apply (IH tok); assumption.
    + destruct (strings_Split s sep) as [|t rest] eqn:Hs.
      * destruct Hin as [<- | []]. cbn in Hc. destruct Hc as [<- | []].
        left. reflexivity.
      * destruct Hin as [<- | Hin].
        -- destruct Hc as [<- | Hc]; [left; reflexivity|].
           right. apply (IH t); [left; reflexivity | exact Hc].
        -- right. apply (IH tok); [right; exact Hin | exact Hc].
Qed.

Lemma get_In (s : string) :
  forall i c, String.get i s = Some c -> In c (list_ascii_of_string s).
Proof.
  induction s as [|x s IH]; intros i c H.
  - destruct i; discriminate.
  - destruct i as [|i]; cbn in H.
    + injection H as ->. left. reflexivity.
    + right. apply (IH i). exact H.
Qed.

Lemma get_out (s : string) :
  forall i, (String.length s <= i)%nat -> String.get i s = None.
Proof.
  induction s as [|x s IH]; intros i H.
  - destruct i; reflexivity.
  - destruct i as [|i]; cbn in *; [lia|]. apply IH. lia.
Qed.

Lemma get_in (s : string) :
  forall i, (i < String.length s)%nat -> exists c, String.get i s = Some c.
Proof.
  induction s as [|x s IH]; intros i H; cbn in H; [lia|].
  destruct i as [|i]; cbn; [eauto|]. apply IH. lia.
Qed.

Section Tokens.
Variables s dateToken timeToken y m d hh mi ss : string.
Hypothesis Hs : strings_Split s " " = [dateToken; timeToken].
Hypothesis Hd : strings_Split dateToken ":" = [y; m; d].
Hypothesis Ht : strings_Split timeToken ":" = [hh; mi; ss].

Lemma parseDateTime_tokens :
  parseDateTime s
  = match month_entry m with
    | None => Done (zeroTime, Some (InvalidMonth m))
    | Some (abbrev, _) =>
        y2 <- str_index y 2 ;;
        y3 <- str_index y 3 ;;
        Done (time_Parse
                ((d ++ " " ++ abbrev ++ " "
                    ++ string_of_byte y2 ++ string_of_byte y3)
                   ++ " " ++ hh ++ ":" ++ mi)%string)
    end.
Proof.
  unfold parseDateTime. rewrite Hs.
  cbn [List.length Nat.eqb negb index nth_error bind].
  rewrite Hd, Ht.
  cbn [List.length Nat.eqb andb].
  rewrite toRfc822Date_table.
  destruct (month_entry m) as [[abbrev k]|]; cbn [bind]; [|reflexivity].
  cbn [index nth_error bind].
  destruct (str_index y 2) as [y2|]; cbn [bind]; [|reflexivity].
  destruct (str_index y 3) as [y3|]; cbn [bind]; [|reflexivity].
  destruct (time_Parse _) as [t [e|]]; reflexivity.
Qed.

Lemma token_no_space (tok : string) :
  In tok [y; m; d; hh; mi; ss] -> ~ In " "%char (list_ascii_of_string tok).
Proof.
  intros Hin Hc.
  assert (Hsub : exists big, In big [dateToken; timeToken]
                             /\ In " "%char (list_ascii_of_string big)).
  { cbn [In] in Hin.
    destruct Hin as [<- | [<- | [<- | Hin]]].
    1-3: exists dateToken; split; [left; reflexivity|];
         eapply (strings_Split_sub ":" dateToken); [|exact Hc];
         rewrite Hd; cbn; tauto.
    destruct Hin as [<- | [<- | [<- | []]]];
      exists timeToken; (split; [right; left; reflexivity|]);
      eapply (strings_Split_sub ":" timeToken); try exact Hc;
      rewrite Ht; cbn; tauto. }
  destruct Hsub as (big & Hbig & Hsp).
  apply (strings_Split_no_sep " " s big); [rewrite Hs; exact Hbig | exact Hsp].
Qed.

Lemma token_no_colon (tok : string) :
  In tok [y; m; d; hh; mi; ss] -> ~ In ":"%char (list_ascii_of_string tok).
Proof.
  intros Hin. cbn [In] in Hin.
  destruct Hin as [<- | [<- | [<- | Hin]]].
  1-3: apply (strings_Split_no_sep ":" dateToken); rewrite Hd; cbn; tauto.
  destruct Hin as [<- | [<- | [<- | []]]];
    apply (strings_Split_no_sep ":" timeToken); rewrite Ht; cbn; tauto.
Qed.

Lemma parseDateTime_invalid_month :
  month_entry m = None ->
  parseDateTime s = Done (zeroTime, Some (InvalidMonth m)).
Proof.
  intros Hm. rewrite parseDateTime_tokens, Hm. reflexivity.
Qed.

Lemma parseDateTime_short_year :
  month_entry m <> None ->
  (String.length y < 4)%nat ->
  parseDateTime s
  = Panicked (IndexOutOfRange (if (String.length y <=? 2)%nat then 2 else 3)
                (String.length y)).
Proof.
  intros Hm Hlen. rewrite parseDateTime_tokens.
  destruct (month_entry m) as [[abbrev k]|]; [|contradiction].
  unfold str_index.
  destruct (Nat.leb_spec (String.length y) 2) as [Hle | Hgt].
  - rewrite (get_out y 2) by exact Hle. reflexivity.
  - destruct (get_in y 2 Hgt) as (c & ->). cbn [bind].
    rewrite (get_out y 3) by lia.
    replace (String.length y) with 3%nat by lia. reflexivity.
Qed.

Lemma parseDateTime_rejects_nonnumeric (abbrev : string) (k : Z)
    (y2 y3 : ascii) :
  month_entry m = Some (abbrev, k) ->
  String.get 2 y = Some y2 ->
  String.get 3 y = Some y3 ->
  is_numeric d = false \/ is_numeric hh = false \/ is_numeric mi = false
  \/ is_digit y3 = false \/ (is_digit y2 = false /\ is_sign y2 = false) ->
  exists e, parseDateTime s = Done (zeroTime, Some e).
Proof.
  intros Hm H2 H3 Hbad.
  rewrite parseDateTime_tokens, Hm. unfold str_index. rewrite H2, H3.
  cbn [bind].
  match goal with
  | |- context [time_Parse ?v] =>
      destruct (time_Parse_outcome v) as [(t & Hok) | (e & Herr)]
  end.
  2: { exists e. rewrite Herr. reflexivity. }
  exfalso.
  destruct (time_Parse_accepts_shape d abbrev k y2 y3 hh mi)
    as (Nd & Ny3 & Ny2 & Nh & Nm).
  - apply (month_entry_names m). exact Hm.
  - apply token_no_space. cbn. tauto.
  - destruct (Ascii.eqb_spec y2 " ") as [-> | _]; [|reflexivity].
    exfalso. apply (token_no_space y); [cbn; tauto|].
    apply (get_In y 2). exact H2.
  - apply token_no_space. cbn. tauto.
  - apply token_no_colon. cbn. tauto.
  - rewrite Hok. reflexivity.
  - destruct Hbad as [H | [H | [H | [H | [H H']]]]]; try congruence.
    destruct Ny2; congruence.
Qed.

Lemma parseDateTime_well_formed (y0 y1 y2 y3 d0 d1 h0 h1 m0 m1 : ascii)
    (abbrev : string) (k : Z) :
  y = str4 y0 y1 y2 y3 -> d = str2 d0 d1 ->
  hh = str2 h0 h1 -> mi = str2 m0 m1 ->
  month_entry m = Some (abbrev, k) ->
  is_digit y2 = true -> is_digit y3 = true ->
  is_digit d0 = true -> is_digit d1 = true ->
  is_digit h0 = true -> is_digit h1 = true ->
  is_digit m0 = true -> is_digit m1 = true ->
  1 <= two_digits d0 d1 <= daysIn k (two_digit_year (two_digits y2 y3)) ->
  two_digits h0 h1 < 24 ->
  two_digits m0 m1 < 60 ->
  parseDateTime s
  = Done (mkTime (two_digit_year (two_digits y2 y3)) k (two_digits d0 d1)
            (two_digits h0 h1) (two_digits m0 m1) 0, None).
Proof.
  intros Ey Ed Eh Em Hm Hy2 Hy3 Hd0 Hd1 Hh0 Hh1 Hm0 Hm1 Rd Rh Rm.
  rewrite parseDateTime_tokens, Hm. subst y d hh mi.
  cbn [str4 str2 str_index String.get bind].
  rewrite (time_Parse_well_formed d0 d1 y2 y3 h0 h1 m0 m1 abbrev k);
    try assumption; [reflexivity|].
  apply (month_entry_names m). exact Hm.
Qed.
End Tokens.

Lemma parseDateTime_token_count (s : string) :
  List.length (strings_Split s " ") <> 2%nat ->
  parseDateTime s = Done (zeroTime, Some (DateTimeInvalid s)).
Proof.
  intros H. unfold parseDateTime.
  destruct (Nat.eqb_spec (List.length (strings_Split s " ")) 2);
    [contradiction | reflexivity].
Qed.

Lemma parseDateTime_subtoken_count (s dateToken timeToken : string) :
  strings_Split s " " = [dateToken; timeToken] ->
  List.length (strings_Split dateToken ":") <> 3%nat
  \/ List.length (strings_Split timeToken ":") <> 3%nat ->
  parseDateTime s = Done (zeroTime, Some (DateTimeFormat dateToken timeToken)).
Proof.
  intros Hs H. unfold parseDateTime. rewrite Hs.
  cbn [List.length Nat.eqb negb index nth_error bind].
  destruct (Nat.eqb_spec (List.length (strings_Split dateToken ":")) 3);
    destruct (Nat.eqb_spec (List.length (strings_Split timeToken ":")) 3);
    cbn [andb]; try reflexivity.
  destruct H; contradiction.
Qed.

Lemma assoc_domain {A : Type} (k : string) (l : list (string * A)) :
  assoc k l <> None <-> In k (map fst l).
Proof.
  induction l as [|[k' v] l IH]; cbn [assoc map fst In].
  - split; [intros H; apply H; reflexivity | intros []].
  - destruct (String.eqb_spec k k') as [-> | Hne].
    + split; [intros _; left; reflexivity | intros _; discriminate].
    + rewrite IH. split; [intros H; right; exact H|].
      intros [Heq | H]; [destruct (Hne (eq_sym Heq)) | exact H].
Qed.

(** C7, as amended.  On a string of the form YYYY:MM:DD HH:MM:SS whose
    month is in the table and whose day, last two year digits, hour and
    minute are digits denoting a day of that month and a time of day,
    [parseDateTime] returns that day, month, two-digit year (69..99 in
    19xx, the rest in 20xx), hour and minute with second 0, whatever the
    seconds field and the first two characters of the year are.  It
    returns an error when the string does not split on a space into
    exactly two tokens, when the date or the time token does not split
    on ':' into exactly three sub-tokens, when the month sub-token is
    outside the table "01".."12", and, the year having at least four
    characters, when the day, the hour or the minute is not numeric,
    when the fourth character of the year is not a digit, or when its
    third character is neither a digit nor a sign. *)
Theorem parseDateTime_layout :
  (forall s dateToken timeToken y m d hh mi ss
          y0 y1 y2 y3 d0 d1 h0 h1 m0 m1 abbrev k,
      strings_Split s " " = [dateToken; timeToken] ->
      strings_Split dateToken ":" = [y; m; d] ->
      strings_Split timeToken ":" = [hh; mi; ss] ->
      y = str4 y0 y1 y2 y3 -> d = str2 d0 d1 ->
      hh = str2 h0 h1 -> mi = str2 m0 m1 ->
      month_entry m = Some (abbrev, k) ->
      is_digit y2 = true -> is_digit y3 = true ->
      is_digit d0 = true -> is_digit d1 = true ->
      is_digit h0 = true -> is_digit h1 = true ->
      is_digit m0 = true -> is_digit m1 = true ->
      1 <= two_digits d0 d1 <= daysIn k (two_digit_year (two_digits y2 y3)) ->
      two_digits h0 h1 < 24 ->
      two_digits m0 m1 < 60 ->
      parseDateTime s
      = Done (mkTime (two_digit_year (two_digits y2 y3)) k (two_digits d0 d1)
                (two_digits h0 h1) (two_digits m0 m1) 0, None))
  /\ (forall s,
        List.length (strings_Split s " ") <> 2%nat ->
        parseDateTime s = Done (zeroTime, Some (DateTimeInvalid s)))
  /\ (forall s dateToken timeToken,
        strings_Split s " " = [dateToken; timeToken] ->
        List.length (strings_Split dateToken ":") <> 3%nat
        \/ List.length (strings_Split timeToken ":") <> 3%nat ->
        parseDateTime s
        = Done (zeroTime, Some (DateTimeFormat dateToken timeToken)))
  /\ (forall m,
        month_entry m <> None
        <-> In m ["01"; "02"; "03"; "04"; "05"; "06";
                  "07"; "08"; "09"; "10"; "11"; "12"]%string)
  /\ (forall s dateToken timeToken y m d hh mi ss,
        strings_Split s " " = [dateToken; timeToken] ->
        strings_Split dateToken ":" = [y; m; d] ->
        strings_Split timeToken ":" = [hh; mi; ss] ->
        month_entry m = None ->
        parseDateTime s = Done (zeroTime, Some (InvalidMonth m)))
  /\ (forall s dateToken timeToken y m d hh mi ss y2 y3,
        strings_Split s " " = [dateToken; timeToken] ->
        strings_Split dateToken ":" = [y; m; d] ->
        strings_Split timeToken ":" = [hh; mi; ss] ->
        String.get 2 y = Some y2 ->
        String.get 3 y = Some y3 ->
        is_numeric d = false \/ is_numeric hh = false
        \/ is_numeric mi = false \/ is_digit y3 = false
        \/ (is_digit y2 = false /\ is_sign y2 = false) ->
        exists e, parseDateTime s = Done (zeroTime, Some e)).
Proof.
  split; [|split; [|split; [|split; [|split]]]].
  - intros. eapply parseDateTime_well_formed; eassumption.
  - exact parseDateTime_token_count.
  - exact parseDateTime_subtoken_count.
  - intros m. apply (assoc_domain m month_table).
  - intros. eapply parseDateTime_invalid_month; eassumption.
  - intros s dateToken timeToken y m d hh mi ss y2 y3 Hs Hd Ht H2 H3 Hbad.
    destruct (month_entry m) as [[abbrev k]|] eqn:Em.
    + eapply parseDateTime_rejects_nonnumeric; eassumption.
    + eexists. eapply parseDateTime_invalid_month; eassumption.
Qed.

(** The timestamp and the malformed strings of the package's tests. *)
Lemma parseDateTime_layout_witness :
  parseDateTime "2010:08:10 12:11:07" = Done (mkTime 2010 8 10 12 11 0, None)
  /\ parseDateTime EmptyString
     = Done (zeroTime, Some (DateTimeInvalid EmptyString))
  /\ parseDateTime "2010:12:10 12:11"
     = Done (zeroTime, Some (DateTimeFormat "2010:12:10" "12:11"))
  /\ parseDateTime "2010:13:10 12:11:07"
     = Done (zeroTime, Some (InvalidMonth "13"))
  /\ (exists e,
        parseDateTime "2010:12:10 AA:BB:CC" = Done (zeroTime, Some e)).
Proof.
  destruct parseDateTime_layout as (Hwf & Hcount & Hsub & _ & Hmonth & Hnum).
  split; [|split; [|split; [|split]]].
  - refine (Hwf "2010:08:10 12:11:07"%string "2010:08:10"%string
              "12:11:07"%string "2010"%string "08"%string "10"%string
              "12"%string "11"%string "07"%string
              "2"%char "0"%char "1"%char "0"%char "1"%char "0"%char
              "1"%char "2"%char "1"%char "1"%char "Aug"%string 8
              eq_refl eq_refl eq_refl eq_refl eq_refl eq_refl eq_refl eq_refl
              eq_refl eq_refl eq_refl eq_refl eq_refl eq_refl eq_refl eq_refl
              _ _ _); cbn; lia.
  - apply Hcount. cbn. lia.
  - apply Hsub; [reflexivity|]. right. cbn. lia.
  - exact (Hmonth "2010:13:10 12:11:07"%string "2010:13:10"%string
             "12:11:07"%string "2010"%string "13"%string "10"%string
             "12"%string "11"%string "07"%string
             eq_refl eq_refl eq_refl eq_refl).
  - refine (Hnum "2010:12:10 AA:BB:CC"%string "2010:12:10"%string
              "AA:BB:CC"%string "2010"%string "12"%string "10"%string
              "AA"%string "BB"%string "CC"%string "1"%char "0"%char
              eq_refl eq_refl eq_refl eq_refl eq_refl _).
    right. left. reflexivity.
Defined.

(** Fields that are not numeric and yet raise no error: the seconds
    field is never read (an EXIF timestamp read with its count of 20
    ends in a NUL there), nor are the first two characters of the year,
    and a sign is accepted as the third character of the year.  And a
    string of the right form that names no time of day is an error. *)
Lemma parseDateTime_nonnumeric_field_accepted :
  strings_Split "2010:08:10 12:11:xx" " " = ["2010:08:10"; "12:11:xx"]%string
  /\ strings_Split "12:11:xx" ":" = ["12"; "11"; "xx"]%string
  /\ is_numeric "xx" = false
  /\ parseDateTime "2010:08:10 12:11:xx"
     = Done (mkTime 2010 8 10 12 11 0, None)
  /\ is_numeric "xx10" = false
  /\ parseDateTime "xx10:08:10 12:11:07"
     = Done (mkTime 2010 8 10 12 11 0, None)
  /\ is_numeric "20-5" = false
  /\ parseDateTime "20-5:08:10 12:11:07"
     = Done (mkTime 1995 8 10 12 11 0, None)
  /\ parseDateTime "2010:08:10 25:11:07"
     = Done (zeroTime, Some (ParseError ":11" ": hour out of range")).
Proof. repeat split. Qed.

(** C10. [parseDateTime] is not total: on every string that splits on a
    space into two tokens whose date and time parts each split on ':'
    into three sub-tokens, whose month is in the table and whose year
    sub-token has fewer than four characters, the unguarded indexing
    [dateTokens[0][2]], [dateTokens[0][3]] is out of range and the
    function panics; it returns nothing, in particular no error. *)
Theorem parseDateTime_short_year_panics
    (s dateToken timeToken y m d hh mi ss : string) :
  strings_Split s " " = [dateToken; timeToken] ->
  strings_Split dateToken ":" = [y; m; d] ->
  strings_Split timeToken ":" = [hh; mi; ss] ->
  In m ["01"; "02"; "03"; "04"; "05"; "06";
        "07"; "08"; "09"; "10"; "11"; "12"]%string ->
  (String.length y < 4)%nat ->
  parseDateTime s
  = Panicked (IndexOutOfRange (if (String.length y <=? 2)%nat then 2 else 3)
                (String.length y))
  /\ forall r, parseDateTime s <> Done r.
Proof.
  intros Hs Hd Ht Hm Hlen.
  assert (Hp := parseDateTime_short_year s dateToken timeToken y m d hh mi ss
                  Hs Hd Ht (proj2 (assoc_domain m month_table) Hm) Hlen).
  split; [exact Hp|]. intros r. rewrite Hp. discriminate.
Qed.

(** The three-character year "201". *)
Lemma parseDateTime_short_year_panics_witness :
  parseDateTime "201:08:10 12:11:07" = Panicked (IndexOutOfRange 3 3).
Proof.
  refine (proj1 (parseDateTime_short_year_panics
                   "201:08:10 12:11:07" "201:08:10" "12:11:07"
                   "201" "08" "10" "12" "11" "07"
                   eq_refl eq_refl eq_refl _ _)).
  - cbn. tauto.
  - cbn. lia.
Defined.

(** ** The top-level parse *)

(** Once the file is open, what [Cr2Parser.ProcessFile] returns as its
    error is the nil left by [os.Open]. *)
Lemma Cr2_ProcessFile_error_from_open (w : World) (n : Cr2.Cr2Parser)
    (info : RawFileInfo) (r : RawFile) (e : error) (calls : list CodecCall) :
  Cr2.ProcessFile w n info = Done (r, Some e, calls) ->
  fs w (File info) = None.
Proof.
  unfold Cr2.ProcessFile, os_Open.
  destruct (fs w (File info)) as [c|]; [|reflexivity].
  cbv beta iota zeta.
  destruct (Cr2.processHeader n _) as [[h eh]|]; cbn [bind]; [|discriminate].
  destruct (Cr2.processIfds n _ h) as [[[j cd] ei]|]; cbn [bind];
    [|discriminate].
  destruct ei; [discriminate|].
  destruct (Cr2.decodeAndWriteJpeg w n _ j _ _) as [[[path ew] cs]|];
    cbn [bind]; [|discriminate].
  destruct ew; discriminate.
Qed.

(** The guard of [NefParser.ProcessFile]: a directory walk that ends
    without error and without a positive JPEG length is reported as an
    invalid length, and the codec is not reached. *)
Lemma Nef_ProcessFile_missing_jpeg (w : World) (n : Nef.NefParser)
    (info : RawFileInfo) (c : list byte) (h : Nef.nefHeader)
    (eh : option error) (j : jpegInfo) (cd : Time) :
  fs w (File info) = Some c ->
  Nef.processHeader n (mkFile (File info) c) = Done (h, eh) ->
  Nef.processIfds n (mkFile (File info) c) h = Done (j, cd, None) ->
  length j <= 0 ->
  Nef.ProcessFile w n info
  = Done (zero_RawFile, Some (InvalidJpegLength (length j)), []).
Proof.
  intros Hopen Hh Hi Hlen. unfold Nef.ProcessFile, os_Open.
  rewrite Hopen. cbv beta iota zeta. rewrite Hh. cbn [bind].
  rewrite Hi. cbn [bind].
  destruct (Z.leb_spec (length j) 0); [reflexivity | lia].
Qed.

(** C2. An error of the header or directory decode does not reach the
    caller of [Cr2Parser.ProcessFile], whose only non-nil error is that
    of [os.Open]: on an openable empty file the header read and the
    root-directory read both fail, and the call returns the unpopulated
    [RawFile] with a nil error.  [NefParser.ProcessFile]
    propagates the directory error of the same file, but returns the
    unpopulated [RawFile] with a nil error when writing the JPEG fails. *)
Theorem ProcessFile_returns_nil_error_after_failure :
  let codec_fails := fun (_ : list byte) (_ : Z) (_ : string) =>
                       Some (External "decode") in
  let cr2 := Cr2.mkCr2Parser (mkRawParser true) in
  let nef := Nef.mkNefParser true in
  let empty := mkFile "e.raw" [] in
  (forall w n info r e calls,
      Cr2.ProcessFile w n info = Done (r, Some e, calls) ->
      fs w (File info) = None)
  /\ (exists h e, Cr2.processHeader cr2 empty = Done (h, Some e))
  /\ (exists j t e,
        Cr2.processIfds cr2 empty
          (Cr2.mkCr2Header false 0 EmptyString 0 0 0)
        = Done (j, t, Some e))
  /\ Cr2.ProcessFile (one_file_world "e.raw" [] codec_fails) cr2
       (mkRawFileInfo "e.raw" "out/" 50 1)
     = Done (zero_RawFile, None, [])
  /\ (exists e,
        Nef.ProcessFile (one_file_world "e.raw" [] codec_fails) nef
          (mkRawFileInfo "e.raw" "out/" 50 1)
        = Done (zero_RawFile, Some e, []))
  /\ Nef.ProcessFile (one_file_world "j.nef" nef_with_jpeg codec_fails) nef
       (mkRawFileInfo "j.nef" "out/" 50 1)
     = Done (zero_RawFile, None,
             [mkCodecCall [xff; xd8] 50 "out/j.nef_extracted.jpg"]).
Proof.
  cbv zeta. split; [exact Cr2_ProcessFile_error_from_open|]. repeat split.
  - do 2 eexists. vm_compute. reflexivity.
  - do 3 eexists. vm_compute. reflexivity.
  - eexists. vm_compute. reflexivity.
Qed.

(** C3. [NefParser.ProcessFile] fails with the invalid-length error and
    calls no codec whenever the directory walk yields a JPEG length <= 0.
    [Cr2Parser.ProcessFile] has no such guard: on a Canon file whose
    root directory gives no length the extraction runs, the codec is
    called on an empty buffer, and the error returned is nil whatever
    the codec answers. *)
Theorem Cr2_ProcessFile_extracts_without_length :
  (forall w n info c h eh j cd,
      fs w (File info) = Some c ->
      Nef.processHeader n (mkFile (File info) c) = Done (h, eh) ->
      Nef.processIfds n (mkFile (File info) c) h = Done (j, cd, None) ->
      length j <= 0 ->
      Nef.ProcessFile w n info
      = Done (zero_RawFile, Some (InvalidJpegLength (length j)), []))
  /\ (forall hostLe,
        Cr2.processIfds (Cr2.mkCr2Parser (mkRawParser hostLe))
          (mkFile "n.cr2" cr2_without_jpeg)
          (Cr2.mkCr2Header false 42 "CR" 2 0 16)
        = Done (zero_jpegInfo, zeroTime, None))
  /\ (forall codec,
        Cr2.ProcessFile (one_file_world "n.cr2" cr2_without_jpeg codec)
          (Cr2.mkCr2Parser (mkRawParser true))
          (mkRawFileInfo "n.cr2" "out/" 50 1)
        = Done (match codec [] 50 "out/n.cr2_extracted.jpg"%string with
                | None =>
                    mkRawFile zeroTime "n.cr2" "out/n.cr2_extracted.jpg" 0
                | Some _ => zero_RawFile
                end,
                None,
                [mkCodecCall [] 50 "out/n.cr2_extracted.jpg"])).
Proof.
  split; [|split].
  - exact Nef_ProcessFile_missing_jpeg.
  - intros []; vm_compute; reflexivity.
  - intros codec.
    unfold Cr2.ProcessFile, one_file_world, os_Open. cbn [fs File].
    change (String.eqb "n.cr2" "n.cr2") with true. cbv beta iota zeta.
    change (Cr2.processHeader (Cr2.mkCr2Parser (mkRawParser true))
              (mkFile "n.cr2" cr2_without_jpeg))
      with (Done (Cr2.mkCr2Header false 42 "CR" 2 0 16, @None error)).
    cbn [bind].
    change (Cr2.processIfds (Cr2.mkCr2Parser (mkRawParser true))
              (mkFile "n.cr2" cr2_without_jpeg)
              (Cr2.mkCr2Header false 42 "CR" 2 0 16))
      with (Done (zero_jpegInfo, zeroTime, @None error)).
    cbn [bind].
    unfold Cr2.decodeAndWriteJpeg. cbn. 
    destruct (codec [] 50 "out/n.cr2_extracted.jpg"%string); reflexivity.
Qed.

(** A one-entry directory (the orientation tag) decoded in full, and a
    two-byte file announcing 65535 entries, which ends in a read error
    before any entry. *)
Lemma processIfd_decodes_directory_witness :
  processIfd true false 0
    (mkFile "d.raw"
       [x01; x00; x12; x01; x03; x00; x01; x00; x00; x00;
        x08; x00; x00; x00])
  = Done ([mkIfdEntry 0x0112 3 1 8], None)
  /\ exists k e,
       (k <= Z.to_nat 65535)%nat
       /\ processIfd true false 0 (mkFile "h.raw" [xff; xff])
          = Done (entries_from false (mkFile "h.raw" [xff; xff]) 0 k, Some e).
Proof.
  split.
  - refine (proj1 (proj2 (processIfd_decodes_directory true false 0
                            (mkFile "d.raw"
                               [x01; x00; x12; x01; x03; x00; x01; x00;
                                x00; x00; x08; x00; x00; x00]) _ _)) _).
    + lia.
    + lia.
    + vm_compute. discriminate.
  - refine (proj2 (proj2 (processIfd_decodes_directory true false 0
                            (mkFile "h.raw" [xff; xff]) _ _)) _).
    + lia.
    + lia.
    + vm_compute. reflexivity.
Defined.

(** ** Whole parses of the sample files *)

(** With a codec that succeeds, the Canon sample yields the populated
    result: creation date 10 Aug 2010 12:11, the 270-degree orientation
    and the path of the JPEG, whose two bytes went to the codec. *)
Example Cr2_ProcessFile_sample :
  Cr2.ProcessFile
    (one_file_world "s.cr2" cr2_sample (fun _ _ _ => None))
    (Cr2.mkCr2Parser (mkRawParser true))
    (mkRawFileInfo "s.cr2" "out/" 50 1)
  = Done (mkRawFile (mkTime 2010 8 10 12 11 0) "s.cr2"
            "out/s.cr2_extracted.jpg" rotationRads,
          None,
          [mkCodecCall [xff; xd8] 50 "out/s.cr2_extracted.jpg"]).
Proof. vm_compute. reflexivity. Qed.

Example Nef_ProcessFile_sample :
  Nef.ProcessFile
    (one_file_world "j.nef" nef_with_jpeg (fun _ _ _ => None))
    (Nef.mkNefParser true)
    (mkRawFileInfo "j.nef" "out/" 50 1)
  = Done (mkRawFile zeroTime "j.nef" "out/j.nef_extracted.jpg" 0,
          None,
          [mkCodecCall [xff; xd8] 50 "out/j.nef_extracted.jpg"]).
Proof. vm_compute. reflexivity. Qed.

(** A file that cannot be opened is the one failure both parsers
    report alike. *)
Example ProcessFile_open_failure :
  Cr2.ProcessFile
    (one_file_world "s.cr2" cr2_sample (fun _ _ _ => None))
    (Cr2.mkCr2Parser (mkRawParser true))
    (mkRawFileInfo EmptyString "out/" 50 1)
  = Done (zero_RawFile, Some (External "open"), [])
  /\ Nef.ProcessFile
       (one_file_world "j.nef" nef_with_jpeg (fun _ _ _ => None))
       (Nef.mkNefParser true)
       (mkRawFileInfo EmptyString "out/" 50 1)
     = Done (zero_RawFile, Some (External "open"), []).
Proof. split; vm_compute; reflexivity. Qed.

(** The month tokens outside the table that the package's tests try. *)
Example month_entry_outside_table :
  map month_entry [EmptyString; "00"; "13"; "-1"; "aa"]%string
  = [None; None; None; None; None].
Proof. reflexivity. Qed.

(** The test vector of [bytesToUInt] on a little-endian host. *)
Example bytesToUInt_test_values :
  bytesToUInt true false [xdd; xcc; xbb; xaa] = Done 0xAABBCCDD
  /\ bytesToUInt true true [xdd; xcc; xbb; xaa] = Done 0xDDCCBBAA.
Proof. split; reflexivity. Qed.

(** * Further properties of the decoding engine *)

(** ** Field reads, for every offset and size *)

Lemma readField_padded (off n : Z) (f : os_File) :
  0 <= off -> fst (readField off n f) = padded f off (Z.to_nat n).
Proof.
  intros Hoff. unfold readField, ReadAt, padded, sub.
  destruct (Z.ltb_spec off 0) as [Hneg | _]; [lia|].
  destruct (negb _); reflexivity.
Qed.

Lemma readField_negative (off n : Z) (f : os_File) :
  off < 0 -> fst (readField off n f) = repeat x00 (Z.to_nat n).
Proof.
  intros Hneg. unfold readField, ReadAt.
  destruct (Z.ltb_spec off 0) as [_ | Hge]; [|lia].
  destruct (negb _); reflexivity.
Qed.

Lemma readField_error_iff (off n : Z) (f : os_File) :
  0 <= n ->
  snd (readField off n f) = None
  <-> 0 <= off /\ (n = 0 \/ off + n <= flen f).
Proof.
  intros Hn.
  destruct (Z.eq_dec n 0) as [-> | Hpos].
  - unfold readField, ReadAt. change (Z.to_nat 0) with 0%nat.
    destruct (Z.ltb_spec off 0) as [Hneg | Hge]; cbn.
    + split; [discriminate | lia].
    + split; [lia | reflexivity].
  - destruct (readField_cases off n f)
      as [(H0 & H1 & Hr) | (Hbad & c & e & Hr)];
      [lia | |]; rewrite Hr; cbn [snd].
    + split; [lia | reflexivity].
    + split; [discriminate | lia].
Qed.

Lemma readField_ok_sub (off n : Z) (f : os_File) :
  0 <= n -> snd (readField off n f) = None ->
  fst (readField off n f) = sub f off (Z.to_nat n).
Proof.
  intros Hn Hok. apply readField_error_iff in Hok; [|exact Hn].
  destruct Hok as [Hoff [-> | Hfit]].
  - rewrite readField_padded by exact Hoff. reflexivity.
  - rewrite readField_full by lia. reflexivity.
Qed.

(** X1. [readField] always returns a cache of exactly [bytesToRead]
    bytes.  Its error is nil exactly when the offset is not negative and
    the requested range lies inside the file (or no byte is requested),
    and then the cache is that range of the file.  After a short read
    the cache holds the bytes the file has from the offset on, followed
    by zeros; for a negative offset it is all zeros. *)
Theorem readField_contract (off n : Z) (f : os_File) :
  0 <= n ->
  List.length (fst (readField off n f)) = Z.to_nat n
  /\ (snd (readField off n f) = None
      <-> 0 <= off /\ (n = 0 \/ off + n <= flen f))
  /\ (snd (readField off n f) = None ->
      fst (readField off n f) = sub f off (Z.to_nat n))
  /\ (0 <= off -> fst (readField off n f) = padded f off (Z.to_nat n))
  /\ (off < 0 -> fst (readField off n f) = repeat x00 (Z.to_nat n)).
Proof.
  intros Hn. split; [apply readField_length|].
  split; [apply readField_error_iff; exact Hn|].
  split; [|split].
  - apply readField_ok_sub. exact Hn.
  - apply readField_padded.
  - apply readField_negative.
Qed.

(** Four bytes asked for at offset 2 of a four-byte file: two bytes of
    the file, two zeros, and an error. *)
Lemma readField_contract_witness :
  List.length (fst (readField 2 4 (mkFile "a.raw" [x01; x02; x03; x04])))
  = 4%nat
  /\ fst (readField 2 4 (mkFile "a.raw" [x01; x02; x03; x04]))
     = [x03; x04; x00; x00]
  /\ snd (readField 2 4 (mkFile "a.raw" [x01; x02; x03; x04])) <> None.
Proof.
  pose (f := mkFile "a.raw" [x01; x02; x03; x04]).
  assert (H : 0 <= 4) by lia.
  split; [exact (proj1 (readField_contract 2 4 f H))|].
  split.
  - exact (proj1 (proj2 (proj2 (proj2 (readField_contract 2 4 f H))))
             ltac:(lia)).
  - intros Hok.
    apply (proj1 (proj1 (proj2 (readField_contract 2 4 f H)))) in Hok.
    cbn in Hok. lia.
Defined.

(** ** The primitive conversions on buffers of any length *)

Lemma bytesToUShort_prefix (hostLe fileBe : bool) (b0 b1 : byte)
    (rest : list byte) :
  bytesToUShort hostLe fileBe (b0 :: b1 :: rest)
  = Done (u16_in_order (fileBe && hostLe) b0 b1).
Proof.
  rewrite <- (bytesToUShort_pair hostLe fileBe b0 b1).
  unfold bytesToUShort. destruct (fileBe && hostLe); reflexivity.
Qed.

Lemma bytesToUShort_too_short (hostLe fileBe : bool) (buf : list byte) :
  (List.length buf < 2)%nat ->
  exists p, bytesToUShort hostLe fileBe buf = Panicked p.
Proof.
  intros Hlen. unfold bytesToUShort.
  destruct buf as [|b0 [|b1 rest]]; cbn in Hlen; [| |lia];
    destruct (fileBe && hostLe); cbn; eauto.
Qed.

Lemma bytesToUInt_prefix (hostLe fileBe : bool) (b0 b1 b2 b3 : byte)
    (rest : list byte) :
  bytesToUInt hostLe fileBe (b0 :: b1 :: b2 :: b3 :: rest)
  = Done (u32_in_order (fileBe && hostLe) b0 b1 b2 b3).
Proof.
  rewrite <- (bytesToUInt_quad hostLe fileBe b0 b1 b2 b3).
  unfold bytesToUInt.
  cbn [slice_to slice_from List.length Nat.leb firstn skipn bind].
  rewrite !bytesToUShort_prefix. reflexivity.
Qed.

Lemma bytesToUInt_too_short (hostLe fileBe : bool) (buf : list byte) :
  (List.length buf < 4)%nat ->
  exists p, bytesToUInt hostLe fileBe buf = Panicked p.
Proof.
  intros Hlen. unfold bytesToUInt.
  destruct buf as [|b0 [|b1 [|b2 [|b3 rest]]]]; cbn in Hlen; try lia.
  - cbn. eauto.
  - cbn. eauto.
  - cbn [slice_to slice_from List.length Nat.leb firstn skipn bind].
    rewrite bytesToUShort_pair. cbn [bind].
    destruct (bytesToUShort_too_short hostLe fileBe []) as (p & ->);
      [cbn; lia|]. cbn. eauto.
  - cbn [slice_to slice_from List.length Nat.leb firstn skipn bind].
    rewrite bytesToUShort_pair. cbn [bind].
    destruct (bytesToUShort_too_short hostLe fileBe [b2]) as (p & ->);
      [cbn; lia|]. cbn. eauto.
Qed.

(** X2. On a slice whose capacity is its length (as every slice the
    package passes), [bytesToUShort] returns a value exactly when the
    slice has at least two bytes and [bytesToUInt] exactly when it has
    at least four; on a shorter slice they panic.  The value is that of
    the first two (four) bytes, whatever follows them, and lies below
    2^16 (2^32). *)
Theorem conversions_need_whole_field (hostLe fileBe : bool)
    (buf : list byte) :
  ((exists v, bytesToUShort hostLe fileBe buf = Done v)
   <-> (2 <= List.length buf)%nat)
  /\ ((exists v, bytesToUInt hostLe fileBe buf = Done v)
      <-> (4 <= List.length buf)%nat)
  /\ (forall b0 b1 rest, buf = b0 :: b1 :: rest ->
      bytesToUShort hostLe fileBe buf
      = Done (u16_in_order (fileBe && hostLe) b0 b1))
  /\ (forall b0 b1 b2 b3 rest, buf = b0 :: b1 :: b2 :: b3 :: rest ->
      bytesToUInt hostLe fileBe buf
      = Done (u32_in_order (fileBe && hostLe) b0 b1 b2 b3))
  /\ (forall v, bytesToUShort hostLe fileBe buf = Done v -> 0 <= v < 2 ^ 16)
  /\ (forall v, bytesToUInt hostLe fileBe buf = Done v -> 0 <= v < 2 ^ 32).
Proof.
  repeat match goal with |- _ /\ _ => split end.
  - split.
    + intros (v & Hv).
      destruct (Nat.lt_ge_cases (List.length buf) 2) as [Hlt | Hge];
        [|exact Hge].
      destruct (bytesToUShort_too_short hostLe fileBe buf Hlt) as (p & Hp).
      congruence.
    + intros Hlen. destruct buf as [|b0 [|b1 rest]]; cbn in Hlen; try lia.
      rewrite bytesToUShort_prefix. eauto.
  - split.
    + intros (v & Hv).
      destruct (Nat.lt_ge_cases (List.length buf) 4) as [Hlt | Hge];
        [|exact Hge].
      destruct (bytesToUInt_too_short hostLe fileBe buf Hlt) as (p & Hp).
      congruence.
    + intros Hlen.
      destruct buf as [|b0 [|b1 [|b2 [|b3 rest]]]]; cbn in Hlen; try lia.
      rewrite bytesToUInt_prefix. eauto.
  - intros b0 b1 rest ->. apply bytesToUShort_prefix.
  - intros b0 b1 b2 b3 rest ->. apply bytesToUInt_prefix.
  - intros v Hv. destruct buf as [|b0 [|b1 rest]].
    + destruct (bytesToUShort_too_short hostLe fileBe []) as (p & Hp);
        [cbn; lia | congruence].
    + destruct (bytesToUShort_too_short hostLe fileBe [b0]) as (p & Hp);
        [cbn; lia | congruence].
    + rewrite bytesToUShort_prefix in Hv. injection Hv as <-.
      apply u16_in_order_range.
  - intros v Hv. destruct buf as [|b0 [|b1 [|b2 [|b3 rest]]]].
    5: { rewrite bytesToUInt_prefix in Hv. injection Hv as <-.
         apply u32_in_order_range. }
    all: match goal with
         | H : bytesToUInt _ _ ?b = _ |- _ =>
             destruct (bytesToUInt_too_short hostLe fileBe b) as (p & Hp);
             [cbn; lia | congruence]
         end.
Qed.

(** ** Encoding and decoding *)

Lemma u8_inj (a b : byte) : u8 a = u8 b -> a = b.
Proof.
  unfold u8. intros H. apply N2Z.inj in H.
  assert (E : Some a = Some b)
    by (rewrite <- (Byte.of_to_N a), <- (Byte.of_to_N b), H; reflexivity).
  congruence.
Qed.

Lemma byte_of_Z_u8 (b : byte) (k : Z) : byte_of_Z (u8 b + 256 * k) = b.
Proof.
  apply u8_inj. rewrite u8_byte_of_Z.
  pose proof (u8_range b).
  rewrite (Z.mul_comm 256 k), Z.mod_add by lia.
  apply Z.mod_small. assumption.
Qed.

Lemma encode_words (a b c d : Z) :
  0 <= a < 256 -> 0 <= b < 256 -> 0 <= c < 256 -> 0 <= d < 256 ->
  let v := ((a * 256 + b) * 256 + c) * 256 + d in
  v = d + 256 * ((a * 256 + b) * 256 + c)
  /\ v / 2 ^ 8 = c + 256 * (a * 256 + b)
  /\ v / 2 ^ 16 = b + 256 * a
  /\ v / 2 ^ 24 = a + 256 * 0.
Proof.
  intros Ha Hb Hc Hd v. unfold v.
  change (2 ^ 8) with 256. change (2 ^ 16) with 65536.
  change (2 ^ 24) with 16777216.
  repeat split; try lia; Z.div_mod_to_equations; lia.
Qed.

Lemma encode_u32_in_order (o : bool) (b0 b1 b2 b3 : byte) :
  encode_u32 o (u32_in_order o b0 b1 b2 b3) = [b0; b1; b2; b3].
Proof.
  pose proof (u8_range b0). pose proof (u8_range b1).
  pose proof (u8_range b2). pose proof (u8_range b3).
  unfold encode_u32, u32_in_order. destruct o.
  - destruct (encode_words (u8 b0) (u8 b1) (u8 b2) (u8 b3))
      as (E0 & E1 & E2 & E3); try assumption.
    rewrite E1, E2, E3. rewrite E0 at 1. rewrite !byte_of_Z_u8.
    reflexivity.
  - destruct (encode_words (u8 b3) (u8 b2) (u8 b1) (u8 b0))
      as (E0 & E1 & E2 & E3); try assumption.
    rewrite E1, E2, E3. rewrite E0 at 1. rewrite !byte_of_Z_u8.
    reflexivity.
Qed.

(** X3. Decoding inverts encoding and encoding inverts decoding: for the
    byte order in which [bytesToUInt] reads a file on a host, every
    value below 2^32 comes back from its four bytes, the four bytes of a
    buffer are those of the value decoded from it, and so two different
    four-byte buffers never decode to one value. *)
Theorem bytesToUInt_round_trip (hostLe fileBe : bool) :
  (forall v, 0 <= v < 2 ^ 32 ->
     bytesToUInt hostLe fileBe (encode_u32 (fileBe && hostLe) v) = Done v)
  /\ (forall b0 b1 b2 b3,
        exists v,
          bytesToUInt hostLe fileBe [b0; b1; b2; b3] = Done v
          /\ encode_u32 (fileBe && hostLe) v = [b0; b1; b2; b3])
  /\ (forall b0 b1 b2 b3 c0 c1 c2 c3,
        bytesToUInt hostLe fileBe [b0; b1; b2; b3]
        = bytesToUInt hostLe fileBe [c0; c1; c2; c3] ->
        [b0; b1; b2; b3] = [c0; c1; c2; c3]).
Proof.
  split; [|split].
  - intros v Hv. apply bytesToUInt_encode. exact Hv.
  - intros b0 b1 b2 b3. eexists. split; [apply bytesToUInt_quad|].
    apply encode_u32_in_order.
  - intros b0 b1 b2 b3 c0 c1 c2 c3 H.
    rewrite !bytesToUInt_quad in H. injection H as H.
    rewrite <- (encode_u32_in_order (fileBe && hostLe) b0 b1 b2 b3).
    rewrite <- (encode_u32_in_order (fileBe && hostLe) c0 c1 c2 c3).
    rewrite H. reflexivity.
Qed.

(** ** ASCII fields *)

Lemma bytesToASCIIString_length (bytes : list byte) :
  String.length (bytesToASCIIString bytes) = List.length bytes.
Proof.
  unfold bytesToASCIIString, string_of_list_byte.
  induction bytes as [|b bytes IH]; cbn;
    [reflexivity | rewrite IH; reflexivity].
Qed.

(** X4. [processASCIIEntry] returns a string of exactly [count] bytes,
    byte for byte the cache of the read at the value offset (nothing is
    trimmed or recoded, a terminating NUL included).  Its error is nil
    exactly when the field lies inside the file or is empty, and then
    the string is that range of the file; otherwise the string is the
    part of the field the file has, padded with NUL bytes. *)
Theorem processASCIIEntry_contract (entry : ifdEntry) (f : os_File) :
  0 <= valueOffset entry -> 0 <= count entry ->
  String.length (fst (processASCIIEntry entry f)) = Z.to_nat (count entry)
  /\ list_byte_of_string (fst (processASCIIEntry entry f))
     = padded f (valueOffset entry) (Z.to_nat (count entry))
  /\ (snd (processASCIIEntry entry f) = None
      <-> count entry = 0 \/ valueOffset entry + count entry <= flen f)
  /\ (snd (processASCIIEntry entry f) = None ->
      list_byte_of_string (fst (processASCIIEntry entry f))
      = sub f (valueOffset entry) (Z.to_nat (count entry))).
Proof.
  intros Hoff Hcount.
  pose proof (readField_length (valueOffset entry) (count entry) f) as Hlen.
  pose proof (readField_error_iff (valueOffset entry) (count entry) f Hcount)
    as Herr.
  pose proof (readField_ok_sub (valueOffset entry) (count entry) f Hcount)
    as Hok.
  pose proof (readField_padded (valueOffset entry) (count entry) f) as Hpad.
  unfold processASCIIEntry.
  destruct (readField (valueOffset entry) (count entry) f) as [bytes err].
  cbn [fst snd] in *.
  split; [rewrite bytesToASCIIString_length; exact Hlen|].
  unfold bytesToASCIIString. rewrite list_byte_of_string_of_list_byte.
  split; [apply Hpad; exact Hoff|].
  split; [rewrite Herr; tauto | exact Hok].
Qed.

(** Three bytes at offset 1 of a five-byte file. *)
Lemma processASCIIEntry_contract_witness :
  fst (processASCIIEntry (mkIfdEntry 0x9004 2 3 1)
         (mkFile "a.raw" [x41; x42; x43; x44; x45]))
  = "BCD"%string
  /\ snd (processASCIIEntry (mkIfdEntry 0x9004 2 3 1)
            (mkFile "a.raw" [x41; x42; x43; x44; x45]))
     = None.
Proof.
  set (e := mkIfdEntry 0x9004 2 3 1).
  set (f := mkFile "a.raw" [x41; x42; x43; x44; x45]).
  assert (H0 : 0 <= valueOffset e) by (cbn; lia).
  assert (H1 : 0 <= count e) by (cbn; lia).
  split.
  - rewrite <- (string_of_list_byte_of_string (fst (processASCIIEntry e f))).
    rewrite (proj1 (proj2 (processASCIIEntry_contract e f H0 H1))).
    reflexivity.
  - apply (proj1 (proj2 (proj2 (processASCIIEntry_contract e f H0 H1)))).
    right. cbn. lia.
Defined.

(** ** Rationals at the end of the file *)

Lemma padded_quad (c : list byte) (o : nat) :
  firstn 4 (skipn o c)
    ++ repeat x00 (4 - List.length (firstn 4 (skipn o c)))
  = [nth o c x00; nth (o + 1) c x00; nth (o + 2) c x00; nth (o + 3) c x00].
Proof.
  rewrite <- (Nat.add_0_r o) at 3.
  rewrite <- !nth_skipn.
  destruct (skipn o c) as [|b0 [|b1 [|b2 [|b3 r]]]]; reflexivity.
Qed.

(** The cache of a four-byte read holds the bytes of the file, zero
    where the file has ended, whether or not the read is short. *)
Lemma readField_quad_cache (off : Z) (f : os_File) :
  0 <= off ->
  fst (readField off 4 f)
  = [byte_at f off; byte_at f (off + 1);
     byte_at f (off + 2); byte_at f (off + 3)].
Proof.
  intros Hoff. unfold readField, ReadAt, byte_at.
  destruct (Z.ltb_spec off 0) as [Hneg | _]; [lia|].
  change (Z.to_nat 4) with 4%nat.
  replace (Z.to_nat (off + 1)) with (Z.to_nat off + 1)%nat by lia.
  replace (Z.to_nat (off + 2)) with (Z.to_nat off + 2)%nat by lia.
  replace (Z.to_nat (off + 3)) with (Z.to_nat off + 3)%nat by lia.
  rewrite <- padded_quad.
  destruct (negb _); reflexivity.
Qed.

Lemma byte_at_past_end (f : os_File) (off : Z) :
  0 <= off -> flen f <= off -> byte_at f off = x00.
Proof.
  intros Hoff Hlen. unfold byte_at, flen in *. apply nth_overflow. lia.
Qed.

Lemma processRationalEntry_values (hostLe fileBe : bool) (off : Z)
    (f : os_File) :
  0 <= off -> off + 4 < 2 ^ 63 ->
  processRationalEntry hostLe fileBe off f
  = Done (u32_at (fileBe && hostLe) f off,
          u32_at (fileBe && hostLe) f (off + 4),
          (if 0 <? u32_at (fileBe && hostLe) f (off + 4)
           then float64_of_uint32
                  (u32_at (fileBe && hostLe) f off
                   / u32_at (fileBe && hostLe) f (off + 4))
           else 0%float),
          snd (readField (off + 4) 4 f)).
Proof.
  intros Hoff Hmax. unfold processRationalEntry, add_i64.
  rewrite wrap_i64_small by lia.
  pose proof (readField_quad_cache off f Hoff) as H1.
  pose proof (readField_quad_cache (off + 4) f) as H2.
  destruct (readField off 4 f) as [b1 e1].
  destruct (readField (off + 4) 4 f) as [b2 e2].
  cbn [fst snd] in *. rewrite H1, H2 by lia.
  rewrite !bytesToUInt_quad. cbn [bind]. unfold u32_at.
  replace (off + 4 + 1) with (off + 5) by lia.
  replace (off + 4 + 2) with (off + 6) by lia.
  replace (off + 4 + 3) with (off + 7) by lia.
  reflexivity.
Qed.

(** X5. For every file and every [uint32] value offset,
    [processRationalEntry] returns without panicking: the numerator and
    the denominator are the 32-bit values of the bytes at the offset and
    four bytes further on, a byte past the end of the file counting as
    zero, with the truncated quotient (0.0 for a zero denominator).  The
    error is nil exactly when all eight bytes lie inside the file, and
    an entry that points at or past the end of the file gives
    0, 0, 0.0 and an error. *)
Theorem processRationalEntry_any_file (hostLe fileBe : bool) (off : Z)
    (f : os_File) :
  0 <= off < 2 ^ 32 ->
  exists err,
    processRationalEntry hostLe fileBe off f
    = Done (u32_at (fileBe && hostLe) f off,
            u32_at (fileBe && hostLe) f (off + 4),
            (if 0 <? u32_at (fileBe && hostLe) f (off + 4)
             then float64_of_uint32
                    (u32_at (fileBe && hostLe) f off
                     / u32_at (fileBe && hostLe) f (off + 4))
             else 0%float),
            err)
    /\ (err = None <-> off + 8 <= flen f)
    /\ (flen f <= off ->
        processRationalEntry hostLe fileBe off f
        = Done (0, 0, 0%float, err)).
Proof.
  intros Hoff. exists (snd (readField (off + 4) 4 f)).
  rewrite processRationalEntry_values by lia.
  split; [reflexivity|]. split.
  - rewrite readField_error_iff by lia. lia.
  - intros Hend. unfold u32_at.
    rewrite !byte_at_past_end by lia.
    destruct (fileBe && hostLe); reflexivity.
Qed.

(** A numerator whose four bytes end the file: the denominator is read
    as zero and the error is set. *)
Lemma processRationalEntry_any_file_witness :
  exists err,
    processRationalEntry true false 2 (mkFile "a.raw" [x00; x00; x48; x00])
    = Done (72, 0, 0%float, err)
    /\ err <> None.
Proof.
  destruct (processRationalEntry_any_file true false 2
              (mkFile "a.raw" [x00; x00; x48; x00]))
    as (err & Hrun & Herr & _); [lia|].
  exists err. split; [exact Hrun|].
  intros Hnone. apply Herr in Hnone. cbn in Hnone. lia.
Defined.

(** ** Directories at any offset *)

Lemma bytesToUShort_two (hostLe fileBe : bool) (buf : list byte) :
  List.length buf = 2%nat ->
  exists v, bytesToUShort hostLe fileBe buf = Done v /\ 0 <= v < 65536.
Proof.
  intros Hlen. destruct buf as [|b0 [|b1 [|? ?]]]; try discriminate.
  rewrite bytesToUShort_pair. eexists. split; [reflexivity|].
  apply u16_in_order_range.
Qed.

Lemma bytesToUInt_four (hostLe fileBe : bool) (buf : list byte) :
  List.length buf = 4%nat ->
  exists v, bytesToUInt hostLe fileBe buf = Done v.
Proof.
  intros Hlen.
  destruct buf as [|b0 [|b1 [|b2 [|b3 [|? ?]]]]]; try discriminate.
  rewrite bytesToUInt_quad. eauto.
Qed.

(** Whatever the reads deliver, the loop ends without a panic, having
    added at most one entry per round. *)
Lemma processIfd_loop_total (hostLe fileBe : bool) (f : os_File) (n : nat) :
  forall (off : Z) (l : list ifdEntry) (err : option error),
  exists l' err',
    processIfd_loop hostLe fileBe f n off l err = Done (l', err')
    /\ (List.length l' <= List.length l + n)%nat.
Proof.
  induction n as [|n IH]; intros off l err.
  - exists l, err. split; [reflexivity | lia].
  - cbn [processIfd_loop].
    pose proof (readField_length off 2 f) as Hl1.
    destruct (readField off 2 f) as [b1 [e1|]]; cbn [fst] in Hl1.
    { do 2 eexists. split; [reflexivity | lia]. }
    destruct (bytesToUShort_two hostLe fileBe b1 Hl1) as (tg & -> & _).
    cbn [bind].
    pose proof (readField_length (add_i64 off 2) 2 f) as Hl2.
    destruct (readField (add_i64 off 2) 2 f) as [b2 [e2|]]; cbn [fst] in Hl2.
    { do 2 eexists. split; [reflexivity | lia]. }
    destruct (bytesToUShort_two hostLe fileBe b2 Hl2) as (ty & -> & _).
    cbn [bind].
    pose proof (readField_length (add_i64 (add_i64 off 2) 2) 4 f) as Hl3.
    destruct (readField (add_i64 (add_i64 off 2) 2) 4 f) as [b3 [e3|]];
      cbn [fst] in Hl3.
    { do 2 eexists. split; [reflexivity | lia]. }
    destruct (bytesToUInt_four hostLe fileBe b3 Hl3) as (cnt & ->).
    cbn [bind].
    pose proof (readField_length (add_i64 (add_i64 (add_i64 off 2) 2) 4) 4 f)
      as Hl4.
    destruct (readField (add_i64 (add_i64 (add_i64 off 2) 2) 4) 4 f)
      as [b4 [e4|]]; cbn [fst] in Hl4.
    { do 2 eexists. split; [reflexivity | lia]. }
    destruct (bytesToUInt_four hostLe fileBe b4 Hl4) as (vo & ->).
    cbn [bind].
    destruct (IH (add_i64 (add_i64 (add_i64 (add_i64 off 2) 2) 4) 4)
                (l ++ [mkIfdEntry tg ty cnt vo]) None)
      as (l' & err' & Hrun & Hlen).
    exists l', err'. split; [exact Hrun|].
    rewrite length_app in Hlen. cbn [List.length] in Hlen. lia.
Qed.

Lemma processIfd_loop_unreadable (hostLe fileBe : bool) (f : os_File)
    (n : nat) (off : Z) (l : list ifdEntry) (err : option error) :
  err <> None ->
  off < 0 \/ flen f < off + 2 ->
  exists e, processIfd_loop hostLe fileBe f n off l err = Done (l, Some e).
Proof.
  intros Herr Hbad. destruct n as [|n].
  - destruct err as [e|]; [|contradiction]. exists e. reflexivity.
  - cbn [processIfd_loop].
    destruct (readField_short off 2 f) as (c & e & ->); [lia | lia |].
    exists e. reflexivity.
Qed.

(** X6. [processIfd] never panics: for every file, every offset and
    both byte orders it returns a list of at most 65535 entries and an
    error value, because every buffer it converts has the size it asked
    [readField] for.  When the entry count cannot be read (an [int64]
    offset that is negative or within two bytes of the end of the file)
    the list is empty and the error is set. *)
Theorem processIfd_never_panics (hostLe fileBe : bool) (off : Z)
    (f : os_File) :
  exists l err,
    processIfd hostLe fileBe off f = Done (l, err)
    /\ Z.of_nat (List.length l) <= 65535
    /\ (- 2 ^ 63 <= off < 2 ^ 63 ->
        off < 0 \/ flen f < off + 2 ->
        l = [] /\ err <> None).
Proof.
  unfold processIfd.
  pose proof (readField_length off 2 f) as Hl.
  pose proof (readField_error_iff off 2 f ltac:(lia)) as Herr.
  pose proof (readField_negative off 2 f) as Hneg.
  destruct (readField off 2 f) as [bytes err0]. cbn [fst snd] in *.
  destruct (bytesToUShort_two hostLe fileBe bytes Hl) as (n & Hcount & Hn).
  rewrite Hcount. cbn [bind].
  destruct (processIfd_loop_total hostLe fileBe f (Z.to_nat n)
              (add_i64 off 2) [] err0) as (l & err & Hrun & Hlen).
  exists l, err. split; [exact Hrun|]. split; [cbn in Hlen; lia|].
  intros Hrange Hbad.
  assert (Herr0 : err0 <> None).
  { intros Hnone. apply Herr in Hnone. lia. }
  destruct (Z.lt_ge_cases off 0) as [Hlt | Hge].
  - (* a zeroed cache: no entry is announced *)
    rewrite Hneg in Hcount by exact Hlt.
    change (repeat x00 (Z.to_nat 2)) with [x00; x00] in Hcount.
    rewrite bytesToUShort_pair in Hcount. injection Hcount as <-.
    assert (E : u16_in_order (fileBe && hostLe) x00 x00 = 0)
      by (destruct (fileBe && hostLe); reflexivity).
    rewrite E in Hrun. cbn in Hrun. injection Hrun as <- <-.
    split; [reflexivity | exact Herr0].
  - destruct (processIfd_loop_unreadable hostLe fileBe f (Z.to_nat n)
                (add_i64 off 2) [] err0 Herr0) as (e & He).
    + unfold add_i64, wrap_i64.
      destruct (Z.lt_ge_cases (off + 2) (2 ^ 63)) as [Hsmall | Hbig].
      * rewrite Z.mod_small by lia. lia.
      * left.
        replace (off + 2 + 2 ^ 63) with (off + 2 - 2 ^ 63 + 1 * 2 ^ 64)
          by lia.
        rewrite Z.mod_add by lia. rewrite Z.mod_small by lia. lia.
    + rewrite He in Hrun. injection Hrun as <- <-.
      split; [reflexivity | discriminate].
Qed.

(** * Further properties of the parsers *)

(** ** Extraction of the embedded JPEG *)

Lemma ReadAt_short (f : os_File) (k : nat) (off : Z) :
  0 <= off -> (0 < k)%nat -> flen f < off + Z.of_nat k ->
  exists data r, ReadAt f k off = (data, r, Some EOF).
Proof.
  intros Hoff Hk Hshort. unfold ReadAt, flen in *.
  destruct (Z.ltb_spec off 0) as [Hneg | _]; [lia|].
  set (got := firstn k (skipn (Z.to_nat off) (contents f))).
  assert (Hgot : (List.length got < k)%nat).
  { unfold got. rewrite length_firstn, length_skipn. lia. }
  destruct (Nat.ltb_spec (List.length got) k); [|lia]. eauto.
Qed.

Lemma ReadAt_nothing (f : os_File) (off : Z) :
  0 <= off -> ReadAt f 0 off = ([], 0, None).
Proof.
  intros Hoff. unfold ReadAt.
  destruct (Z.ltb_spec off 0) as [Hneg | _]; [lia | reflexivity].
Qed.

(** A read that reports no error has delivered a segment of the file. *)
Lemma ReadAt_ok_inv (f : os_File) (k : nat) (off : Z) (data : list byte)
    (r : Z) :
  ReadAt f k off = (data, r, None) ->
  0 <= off /\ data = sub f off k /\ List.length data = k
  /\ ((0 < k)%nat -> off + Z.of_nat k <= flen f).
Proof.
  unfold ReadAt, sub, flen.
  destruct (Z.ltb_spec off 0) as [Hneg | Hge]; [discriminate|].
  set (got := firstn k (skipn (Z.to_nat off) (contents f))).
  destruct (Nat.ltb_spec (List.length got) k) as [Hlt | Hfull];
    [discriminate|].
  intros H. injection H as <- _.
  assert (Hlen : List.length got = k).
  { pose proof (firstn_le_length k (skipn (Z.to_nat off) (contents f))).
    fold got in H. lia. }
  rewrite Hlen, Nat.sub_diag. cbn [repeat]. rewrite app_nil_r.
  repeat split; try assumption.
  intros Hk. unfold got in Hlen.
  rewrite length_firstn, length_skipn in Hlen. lia.
Qed.

(** The two parsers' methods have one text. *)
Lemma decodeAndWriteJpeg_same (w : World) (c : Cr2.Cr2Parser)
    (n : Nef.NefParser) (f : os_File) (j : jpegInfo) (destDir : string)
    (quality : Z) :
  Cr2.decodeAndWriteJpeg w c f j destDir quality
  = Nef.decodeAndWriteJpeg w n f j destDir quality.
Proof. reflexivity. Qed.

Lemma Nef_decodeAndWriteJpeg_inside (w : World) (n : Nef.NefParser)
    (f : os_File) (j : jpegInfo) (destDir : string) (quality : Z) :
  0 <= offset j -> 0 <= length j ->
  length j = 0 \/ offset j + length j <= flen f ->
  Nef.decodeAndWriteJpeg w n f j destDir quality
  = Done (genExtractedJpegName w f destDir "_extracted.jpg",
          codec w (sub f (offset j) (Z.to_nat (length j))) quality
            (genExtractedJpegName w f destDir "_extracted.jpg"),
          [mkCodecCall (sub f (offset j) (Z.to_nat (length j))) quality
             (genExtractedJpegName w f destDir "_extracted.jpg")]).
Proof.
  intros Hoff Hlen Hin. unfold Nef.decodeAndWriteJpeg.
  destruct (Z.ltb_spec (length j) 0) as [Hneg | _]; [lia|].
  destruct Hin as [H0 | Hfit].
  - rewrite H0. change (Z.to_nat 0) with 0%nat.
    rewrite ReadAt_nothing by exact Hoff.
    unfold sub. cbn [firstn]. reflexivity.
  - rewrite ReadAt_full by lia. reflexivity.
Qed.

Lemma Nef_decodeAndWriteJpeg_outside (w : World) (n : Nef.NefParser)
    (f : os_File) (j : jpegInfo) (destDir : string) (quality : Z) :
  0 <= offset j -> 0 < length j -> flen f < offset j + length j ->
  Nef.decodeAndWriteJpeg w n f j destDir quality
  = Done (genExtractedJpegName w f destDir "_extracted.jpg", Some EOF, []).
Proof.
  intros Hoff Hlen Hout. unfold Nef.decodeAndWriteJpeg.
  destruct (Z.ltb_spec (length j) 0) as [Hneg | _]; [lia|].
  destruct (ReadAt_short f (Z.to_nat (length j)) (offset j))
    as (data & r & ->); [lia | lia | lia | reflexivity].
Qed.

(** X7. The [decodeAndWriteJpeg] method, the same in both parsers,
    names the output [destDir ++ base name of the file ++
    "_extracted.jpg"].  When the byte range of the descriptor lies
    inside the file (or is empty) it invokes the codec once, with
    exactly the [length] bytes at [offset], the given quality and that
    name, and returns the codec's answer; when the range runs past the
    end of the file it returns [io.EOF] and does not invoke the codec. *)
Theorem decodeAndWriteJpeg_exact_range (w : World) (c : Cr2.Cr2Parser)
    (n : Nef.NefParser) (f : os_File) (j : jpegInfo) (destDir : string)
    (quality : Z) :
  0 <= offset j -> 0 <= length j ->
  Cr2.decodeAndWriteJpeg w c f j destDir quality
  = Nef.decodeAndWriteJpeg w n f j destDir quality
  /\ (length j = 0 \/ offset j + length j <= flen f ->
      Nef.decodeAndWriteJpeg w n f j destDir quality
      = Done ((destDir ++ filepath_Base w (Name f)
                       ++ "_extracted.jpg")%string,
              codec w (sub f (offset j) (Z.to_nat (length j))) quality
                (destDir ++ filepath_Base w (Name f)
                         ++ "_extracted.jpg")%string,
              [mkCodecCall (sub f (offset j) (Z.to_nat (length j))) quality
                 (destDir ++ filepath_Base w (Name f)
                          ++ "_extracted.jpg")%string]))
  /\ (0 < length j -> flen f < offset j + length j ->
      Nef.decodeAndWriteJpeg w n f j destDir quality
      = Done ((destDir ++ filepath_Base w (Name f)
                       ++ "_extracted.jpg")%string,
              Some EOF, [])).
Proof.
  intros Hoff Hlen. split; [reflexivity|]. split.
  - intros Hin. apply Nef_decodeAndWriteJpeg_inside; assumption.
  - intros Hpos Hout. apply Nef_decodeAndWriteJpeg_outside; assumption.
Qed.

(** The two bytes at offset 52 of the Nikon sample. *)
Lemma decodeAndWriteJpeg_exact_range_witness :
  Nef.decodeAndWriteJpeg
    (one_file_world "j.nef" nef_with_jpeg (fun _ _ _ => None))
    (Nef.mkNefParser true) (mkFile "j.nef" nef_with_jpeg)
    (set_length (set_offset zero_jpegInfo 52) 2) "out/" 50
  = Done ("out/j.nef_extracted.jpg"%string, None,
          [mkCodecCall [xff; xd8] 50 "out/j.nef_extracted.jpg"]).
Proof.
  refine (proj1 (proj2 (decodeAndWriteJpeg_exact_range
                          (one_file_world "j.nef" nef_with_jpeg
                             (fun _ _ _ => None))
                          (Cr2.mkCr2Parser (mkRawParser true))
                          (Nef.mkNefParser true)
                          (mkFile "j.nef" nef_with_jpeg)
                          (set_length (set_offset zero_jpegInfo 52) 2)
                          "out/" 50 _ _)) _).
  - cbn. lia.
  - cbn. lia.
  - right. cbn. lia.
Defined.

(** ** What the top-level parse hands to the codec *)

Lemma Nef_decodeAndWriteJpeg_inv (w : World) (n : Nef.NefParser)
    (f : os_File) (j : jpegInfo) (destDir : string) (quality : Z)
    (path : string) (err : option error) (calls : list CodecCall) :
  Nef.decodeAndWriteJpeg w n f j destDir quality = Done (path, err, calls) ->
  path = genExtractedJpegName w f destDir "_extracted.jpg"
  /\ ((calls = [] /\ err <> None)
      \/ (0 <= offset j
          /\ (0 < length j -> offset j + length j <= flen f)
          /\ List.length (sub f (offset j) (Z.to_nat (length j)))
             = Z.to_nat (length j)
          /\ calls = [mkCodecCall (sub f (offset j) (Z.to_nat (length j)))
                        quality path]
          /\ err = codec w (sub f (offset j) (Z.to_nat (length j)))
                     quality path)).
Proof.
  unfold Nef.decodeAndWriteJpeg.
  destruct (Z.ltb_spec (length j) 0) as [Hneg | Hge]; [discriminate|].
  destruct (ReadAt f (Z.to_nat (length j)) (offset j)) as [[data r] [e|]]
    eqn:Hread; intros H; injection H as <- <- <-.
  - split; [reflexivity|]. left. split; [reflexivity | discriminate].
  - split; [reflexivity|]. right.
    apply ReadAt_ok_inv in Hread.
    destruct Hread as (Hoff & -> & Hlen & Hfit).
    repeat split; try assumption.
    intros Hpos. specialize (Hfit ltac:(lia)). lia.
Qed.

(** X8. Whatever the file holds, a [ProcessFile] that returns has
    invoked the codec at most once.  If it has not, the result is the
    unpopulated [RawFile].  If it has, the file was opened, the data
    handed over is a range [off, off+len) of that file, the quality is
    the caller's and the name is [DestDir ++ base name ++
    "_extracted.jpg"], the error returned is nil, and the result is
    populated (with the file name and that path) exactly when the codec
    answered nil.  For the Nikon parser the range is never empty and
    always inside the file; the Canon parser can hand over an empty
    range. *)
Theorem ProcessFile_codec_discipline (w : World) (info : RawFileInfo) :
  let name :=
    (DestDir info ++ filepath_Base w (File info) ++ "_extracted.jpg")%string
  in
  (forall n r e calls,
      Nef.ProcessFile w n info = Done (r, e, calls) ->
      (calls = [] /\ r = zero_RawFile)
      \/ exists c off len,
           fs w (File info) = Some c
           /\ 0 <= off /\ 0 < len /\ off + len <= Z.of_nat (List.length c)
           /\ List.length (sub (mkFile (File info) c) off (Z.to_nat len))
              = Z.to_nat len
           /\ calls
              = [mkCodecCall (sub (mkFile (File info) c) off (Z.to_nat len))
                   (Quality info) name]
           /\ e = None
           /\ match codec w (sub (mkFile (File info) c) off (Z.to_nat len))
                      (Quality info) name with
              | None => FileName r = File info /\ JpegPath r = name
              | Some _ => r = zero_RawFile
              end)
  /\ (forall n r e calls,
      Cr2.ProcessFile w n info = Done (r, e, calls) ->
      (calls = [] /\ r = zero_RawFile)
      \/ exists c off len,
           fs w (File info) = Some c
           /\ 0 <= off /\ 0 <= len
           /\ (0 < len -> off + len <= Z.of_nat (List.length c))
           /\ calls
              = [mkCodecCall (sub (mkFile (File info) c) off (Z.to_nat len))
                   (Quality info) name]
           /\ e = None
           /\ match codec w (sub (mkFile (File info) c) off (Z.to_nat len))
                      (Quality info) name with
              | None => FileName r = File info /\ JpegPath r = name
              | Some _ => r = zero_RawFile
              end).
Proof.
  cbv zeta. split.
  - intros n r e calls. unfold Nef.ProcessFile, os_Open.
    destruct (fs w (File info)) as [c|] eqn:Hopen.
    2: { intros H. injection H as <- <- <-. left. split; reflexivity. }
    cbv beta iota zeta.
    destruct (Nef.processHeader n _) as [[h eh]|]; cbn [bind];
      [|discriminate].
    destruct (Nef.processIfds n _ h) as [[[j cd] [ei|]]|]; cbn [bind];
      [| |discriminate].
    { intros H. injection H as <- <- <-. left. split; reflexivity. }
    destruct (Z.leb_spec (length j) 0) as [Hle | Hpos].
    { intros H. injection H as <- <- <-. left. split; reflexivity. }
    destruct (Nef.decodeAndWriteJpeg w n _ j _ _) as [[[path ew] cs]|]
      eqn:Hdec; cbn [bind]; [|discriminate].
    apply Nef_decodeAndWriteJpeg_inv in Hdec.
    destruct Hdec as (-> & [(-> & Hew) | (Hoff & Hfit & Hlen & -> & ->)]).
    + destruct ew as [x|]; [|contradiction].
      intros H. injection H as <- <- <-. left. split; reflexivity.
    + intros H. right. exists c, (offset j), (length j).
      unfold genExtractedJpegName, flen in *. cbn [Name contents] in *.
      split; [reflexivity|]. split; [exact Hoff|]. split; [exact Hpos|].
      split; [apply Hfit; exact Hpos|]. split; [exact Hlen|].
      destruct (codec w _ _ _); injection H as <- <- <-;
        repeat split; reflexivity.
  - intros n r e calls. unfold Cr2.ProcessFile, os_Open.
    destruct (fs w (File info)) as [c|] eqn:Hopen.
    2: { intros H. injection H as <- <- <-. left. split; reflexivity. }
    cbv beta iota zeta.
    destruct (Cr2.processHeader n _) as [[h eh]|]; cbn [bind];
      [|discriminate].
    destruct (Cr2.processIfds n _ h) as [[[j cd] [ei|]]|]; cbn [bind];
      [| |discriminate].
    { intros H. injection H as <- <- <-. left. split; reflexivity. }
    rewrite (decodeAndWriteJpeg_same w n (Nef.mkNefParser true)).
    destruct (Nef.decodeAndWriteJpeg w _ _ j _ _) as [[[path ew] cs]|]
      eqn:Hdec; cbn [bind]; [|discriminate].
    assert (Hj : 0 <= length j).
    { unfold Nef.decodeAndWriteJpeg in Hdec.
      destruct (Z.ltb_spec (length j) 0); [discriminate | lia]. }
    apply Nef_decodeAndWriteJpeg_inv in Hdec.
    destruct Hdec as (-> & [(-> & Hew) | (Hoff & Hfit & Hlen & -> & ->)]).
    + destruct ew as [x|]; [|contradiction].
      intros H. injection H as <- <- <-. left. split; reflexivity.
    + intros H. right. exists c, (offset j), (length j).
      unfold genExtractedJpegName, flen in *. cbn [Name contents] in *.
      split; [reflexivity|]. split; [exact Hoff|]. split; [exact Hj|].
      split; [exact Hfit|].
      destruct (codec w _ _ _); injection H as <- <- <-;
        repeat split; reflexivity.
Qed.

(** ** Where the JPEG descriptor of a Nikon file comes from *)

Lemma Nef_root_loop_keeps_range (n : Nef.NefParser) (f : os_File)
    (h : Nef.nefHeader) (entries : list ifdEntry) :
  (forall e, In e entries -> tag e <> 0x014a) ->
  forall jpeg cDate j t err,
    Nef.root_loop n f h entries jpeg cDate = Done (j, t, err) ->
    offset j = offset jpeg /\ length j = length jpeg.
Proof.
  induction entries as [|entry rest IH]; intros Htags jpeg cDate j t err.
  - cbn. intros H. injection H as <- _ _. split; reflexivity.
  - assert (Hentry : tag entry <> 0x014a) by (apply Htags; left; reflexivity).
    assert (Hrest : forall e, In e rest -> tag e <> 0x014a)
      by (intros e He; apply Htags; right; exact He).
    specialize (IH Hrest).
    cbn [Nef.root_loop].
    destruct (Z.eqb_spec (tag entry) 0x014a) as [E | _]; [contradiction|].
    destruct (tag entry =? 0x0112).
    { intros H. apply IH in H. exact H. }
    destruct (tag entry =? 0x8769).
    2: { apply IH. }
    destruct (processIfd _ _ _ f) as [[exifEntries [e|]]|]; cbn [bind];
      [| |discriminate].
    { intros H. injection H as <- _ _. split; reflexivity. }
    destruct (Nef.exif_loop f exifEntries cDate) as [cDate'|]; cbn [bind];
      [|discriminate].
    apply IH.
Qed.

(** X9. The Nikon parser finds the JPEG only through the SubIFD pointer
    (tag 0x014a): on every file whose root directory decodes without
    error and holds no entry with that tag, [NefParser.ProcessFile]
    returns the unpopulated result with a non-nil error (the directory
    walk's, or the invalid JPEG length) and never invokes the codec,
    unless a date of the EXIF directory makes it panic. *)
Theorem Nef_ProcessFile_without_SubIFD (w : World) (n : Nef.NefParser)
    (info : RawFileInfo) (c : list byte) (h : Nef.nefHeader)
    (eh : option error) (entries : list ifdEntry) :
  fs w (File info) = Some c ->
  Nef.processHeader n (mkFile (File info) c) = Done (h, eh) ->
  processIfd (Nef.IsHostLittleEndian n) (Nef.isBigEndian h)
    (Nef.tiffOffset h) (mkFile (File info) c) = Done (entries, None) ->
  (forall e, In e entries -> tag e <> 0x014a) ->
  (exists p, Nef.ProcessFile w n info = Panicked p)
  \/ (exists e, Nef.ProcessFile w n info = Done (zero_RawFile, Some e, [])).
Proof.
  intros Hopen Hh Hroot Htags. unfold Nef.ProcessFile, os_Open.
  rewrite Hopen. cbv beta iota zeta. rewrite Hh. cbn [bind].
  unfold Nef.processIfds. rewrite Hroot. cbn [bind].
  destruct (Nef.root_loop n _ h entries zero_jpegInfo zeroTime)
    as [[[j cd] ei]|p] eqn:Hloop; cbn [bind].
  2: { left. eauto. }
  right. destruct ei as [e|]; [eauto|].
  destruct (Nef_root_loop_keeps_range n _ h entries Htags _ _ _ _ _ Hloop)
    as [_ Hlen].
  rewrite Hlen. cbn. eauto.
Qed.

(** A Nikon file whose root directory holds the orientation tag alone. *)
Lemma Nef_ProcessFile_without_SubIFD_witness :
  exists e,
    Nef.ProcessFile
      (one_file_world "o.nef"
         [x49; x49; x2a; x00; x08; x00; x00; x00;
          x01; x00;
          x12; x01; x03; x00; x01; x00; x00; x00; x08; x00; x00; x00]
         (fun _ _ _ => None))
      (Nef.mkNefParser true) (mkRawFileInfo "o.nef" "out/" 50 1)
    = Done (zero_RawFile, Some e, []).
Proof.
  destruct (Nef_ProcessFile_without_SubIFD
              (one_file_world "o.nef"
                 [x49; x49; x2a; x00; x08; x00; x00; x00;
                  x01; x00;
                  x12; x01; x03; x00; x01; x00; x00; x00;
                  x08; x00; x00; x00]
                 (fun _ _ _ => None))
              (Nef.mkNefParser true) (mkRawFileInfo "o.nef" "out/" 50 1)
              [x49; x49; x2a; x00; x08; x00; x00; x00;
               x01; x00;
               x12; x01; x03; x00; x01; x00; x00; x00; x08; x00; x00; x00]
              (Nef.mkNefHeader false 42 8) None
              [mkIfdEntry 0x0112 3 1 8])
    as [(p & Hp) | He].
  - reflexivity.
  - reflexivity.
  - reflexivity.
  - intros e [<- | []]. cbn. lia.
  - vm_compute in Hp. discriminate.
  - exact He.
Defined.

(** ** Headers as written *)

Lemma u16_in_order_encode (o : bool) (v : Z) :
  0 <= v < 2 ^ 16 ->
  match encode_u16 o v with
  | [b0; b1] => u16_in_order o b0 b1 = v
  | _ => False
  end.
Proof.
  intros Hv. unfold encode_u16, u16_in_order.
  destruct o; rewrite !u8_byte_of_Z; change (2 ^ 8) with 256;
    Z.div_mod_to_equations; lia.
Qed.

Lemma tiff_header_fields (be : bool) (magic root : Z) (name : string)
    (rest : list byte) :
  0 <= magic < 2 ^ 16 -> 0 <= root < 2 ^ 32 ->
  let f := mkFile name (tiff_header be magic root ++ rest) in
  flen f = 8 + Z.of_nat (List.length rest)
  /\ (u16_at false f 0 =? 0x4D4D) = be
  /\ u16_at be f 2 = magic
  /\ u32_at be f 4 = root
  /\ (forall i, byte_at f (8 + Z.of_nat i) = nth i rest x00).
Proof.
  intros Hmagic Hroot f.
  pose proof (u16_in_order_encode be magic Hmagic) as H16.
  pose proof (u32_in_order_encode be root Hroot) as H32.
  unfold f, tiff_header, u16_at, u32_at, byte_at, flen. cbn [contents].
  destruct (encode_u16 be magic) as [|m0 [|m1 [|? ?]]]; try contradiction.
  destruct (encode_u32 be root) as [|r0 [|r1 [|r2 [|r3 [|? ?]]]]];
    try contradiction.
  split.
  { rewrite !length_app. destruct be; cbn [List.length]; lia. }
  split.
  { destruct be; reflexivity. }
  split.
  { destruct be; exact H16. }
  split.
  { destruct be; exact H32. }
  intros i.
  replace (Z.to_nat (8 + Z.of_nat i)) with (8 + i)%nat by lia.
  destruct be; reflexivity.
Qed.

(** X10. A header written in either byte order is read back as written:
    for the marker MM or II followed by a 16-bit magic value and a
    32-bit root offset in the order the marker announces, and whatever
    follows, [NefParser.processHeader] returns exactly that byte-order
    flag, magic value and offset with a nil error, and
    [Cr2Parser.processHeader] does so together with the two magic bytes
    and the two version bytes that follow.  This holds on a
    little-endian host for both orders and on a big-endian host for a
    little-endian file. *)
Theorem processHeader_decodes_written_header (hostLe be : bool)
    (magic root : Z) (name : string) (rest : list byte) :
  0 <= magic < 2 ^ 16 -> 0 <= root < 2 ^ 32 ->
  (be = true -> hostLe = true) ->
  Nef.processHeader (Nef.mkNefParser hostLe)
    (mkFile name (tiff_header be magic root ++ rest))
  = Done (Nef.mkNefHeader be magic root, None)
  /\ (forall c0 c1 major minor,
        Cr2.processHeader (Cr2.mkCr2Parser (mkRawParser hostLe))
          (mkFile name
             (tiff_header be magic root ++ [c0; c1; major; minor] ++ rest))
        = Done (Cr2.mkCr2Header be magic (bytesToASCIIString [c0; c1])
                  (u8 major) (u8 minor) root, None)).
Proof.
  intros Hmagic Hroot Hhost.
  assert (Ho : be && hostLe = be).
  { destruct be; [rewrite Hhost; reflexivity | reflexivity]. }
  split.
  - destruct (tiff_header_fields be magic root name rest Hmagic Hroot)
      as (Hlen & Hbe & Hm & Hr & _).
    rewrite Nef_header_complete by lia.
    cbn [Nef.HostIsLittleEndian]. rewrite Hbe, Ho, Hm, Hr. reflexivity.
  - intros c0 c1 major minor.
    destruct (tiff_header_fields be magic root name
                ([c0; c1; major; minor] ++ rest) Hmagic Hroot)
      as (Hlen & Hbe & Hm & Hr & Hrest).
    rewrite Cr2_header_complete.
    2: { rewrite Hlen, length_app. cbn [List.length]. lia. }
    unfold Cr2.hostLe. cbn [Cr2.parser HostIsLittleEndian].
    rewrite Hbe, Ho, Hm, Hr.
    pose proof (Hrest 0%nat) as H8. pose proof (Hrest 1%nat) as H9.
    pose proof (Hrest 2%nat) as H10. pose proof (Hrest 3%nat) as H11.
    change (8 + Z.of_nat 0) with 8 in H8.
    change (8 + Z.of_nat 1) with 9 in H9.
    change (8 + Z.of_nat 2) with 10 in H10.
    change (8 + Z.of_nat 3) with 11 in H11.
    rewrite H8, H9, H10, H11. reflexivity.
Qed.

(** The header of a big-endian Nikon file on a little-endian host. *)
Lemma processHeader_decodes_written_header_witness :
  Nef.processHeader (Nef.mkNefParser true)
    (mkFile "b.nef" [x4d; x4d; x00; x2a; x00; x00; x00; x08])
  = Done (Nef.mkNefHeader true 42 8, None).
Proof.
  refine (proj1 (processHeader_decodes_written_header true true 42 8
                   "b.nef" [] _ _ _)).
  - lia.
  - lia.
  - reflexivity.
Defined.

(** ** A root directory that does not fit in the file *)

Lemma processIfd_truncated (hostLe fileBe : bool) (off : Z) (f : os_File) :
  0 <= off -> off + 2 + 12 * 65535 < 2 ^ 63 ->
  flen f < off + 2 + 12 * u16_at (fileBe && hostLe) f off ->
  exists l e, processIfd hostLe fileBe off f = Done (l, Some e).
Proof.
  intros Hoff Hmax Hshort.
  pose proof (u16_in_order_range (fileBe && hostLe) (byte_at f off)
                (byte_at f (off + 1))) as Hn.
  fold (u16_at (fileBe && hostLe) f off) in Hn.
  unfold processIfd.
  pose proof (readField_pair_cache off f Hoff) as Hcache.
  pose proof (readField_error_iff off 2 f ltac:(lia)) as Herr.
  destruct (readField off 2 f) as [cache err0]. cbn [fst snd] in *.
  rewrite Hcache, bytesToUShort_pair. cbn [bind].
  fold (u16_at (fileBe && hostLe) f off).
  unfold add_i64. rewrite wrap_i64_small by lia.
  destruct (Z.to_nat (u16_at (fileBe && hostLe) f off)) as [|m] eqn:Hm.
  - destruct err0 as [e|]; [cbn; eauto|].
    exfalso. assert (Hok : 0 <= off /\ (2 = 0 \/ off + 2 <= flen f))
      by (apply Herr; reflexivity). lia.
  - destruct (processIfd_loop_short hostLe fileBe f m (off + 2) [] err0)
      as (k & e & _ & Hrun); [lia | lia | lia |].
    rewrite Hrun. eauto.
Qed.

Lemma Nef_header_offset_range (n : Nef.NefParser) (f : os_File)
    (h : Nef.nefHeader) (eh : option error) :
  Nef.processHeader n f = Done (h, eh) -> 0 <= Nef.tiffOffset h < 2 ^ 32.
Proof.
  intros Hh.
  destruct (Z.lt_ge_cases (flen f) 2) as [H2 | H2].
  { destruct (Nef_header_no_marker n f H2) as (e & He).
    rewrite He in Hh. injection Hh as <- _. cbn. lia. }
  destruct (Z.lt_ge_cases (flen f) 4) as [H4 | H4].
  { destruct (Nef_header_no_magic n f (conj H2 H4)) as (e & He).
    rewrite He in Hh. injection Hh as <- _. cbn. lia. }
  destruct (Z.lt_ge_cases (flen f) 8) as [H8 | H8].
  { destruct (Nef_header_no_offset n f (conj H4 H8)) as (e & He).
    rewrite He in Hh. injection Hh as <- _. cbn. lia. }
  rewrite (Nef_header_complete n f H8) in Hh. injection Hh as <- _.
  cbn [Nef.tiffOffset]. apply u32_in_order_range.
Qed.

Lemma Cr2_header_offset_range (n : Cr2.Cr2Parser) (f : os_File)
    (h : Cr2.cr2Header) (eh : option error) :
  Cr2.processHeader n f = Done (h, eh) -> 0 <= Cr2.tiffOffset h < 2 ^ 32.
Proof.
  intros Hh.
  destruct (Z.lt_ge_cases (flen f) 2) as [H2 | H2].
  { destruct (Cr2_header_no_marker n f H2) as (e & He).
    rewrite He in Hh. injection Hh as <- _. cbn. lia. }
  destruct (Z.lt_ge_cases (flen f) 4) as [H4 | H4].
  { destruct (Cr2_header_no_magic n f (conj H2 H4)) as (e & He).
    rewrite He in Hh. injection Hh as <- _. cbn. lia. }
  destruct (Z.lt_ge_cases (flen f) 8) as [H8 | H8].
  { destruct (Cr2_header_no_offset n f (conj H4 H8)) as (e & He).
    rewrite He in Hh. injection Hh as <- _. cbn. lia. }
  assert (Hroot : Cr2.tiffOffset h
                  = u32_at ((u16_at false f 0 =? 0x4D4D) && Cr2.hostLe n)
                      f 4).
  { destruct (Z.lt_ge_cases (flen f) 10) as [H10 | H10].
    { destruct (Cr2_header_no_container_magic n f (conj H8 H10))
        as (e & He).
      rewrite He in Hh. injection Hh as <- _. reflexivity. }
    destruct (Z.eq_dec (flen f) 10) as [E10 | N10].
    { destruct (Cr2_header_no_major n f E10) as (e & He).
      rewrite He in Hh. injection Hh as <- _. reflexivity. }
    destruct (Z.eq_dec (flen f) 11) as [E11 | N11].
    { destruct (Cr2_header_no_minor n f E11) as (e & He).
      rewrite He in Hh. injection Hh as <- _. reflexivity. }
    rewrite Cr2_header_complete in Hh by lia. injection Hh as <- _.
    reflexivity. }
  rewrite Hroot. apply u32_in_order_range.
Qed.

(** X11. When the root directory announced by the header does not fit
    in the file (the file ends before the last of the records its entry
    count promises), no tag is interpreted: [processIfds] of either
    parser returns the zero JPEG descriptor, the zero time and the read
    error, even if some records were decoded.  [NefParser.ProcessFile]
    then returns the unpopulated result with that error, and
    [Cr2Parser.ProcessFile] the unpopulated result with a nil error;
    neither invokes the codec. *)
Theorem ProcessFile_truncated_root_directory (w : World)
    (info : RawFileInfo) (c : list byte) :
  fs w (File info) = Some c ->
  (forall n h eh,
      Nef.processHeader n (mkFile (File info) c) = Done (h, eh) ->
      flen (mkFile (File info) c)
      < Nef.tiffOffset h + 2
        + 12 * u16_at (Nef.isBigEndian h && Nef.IsHostLittleEndian n)
                 (mkFile (File info) c) (Nef.tiffOffset h) ->
      exists e,
        Nef.processIfds n (mkFile (File info) c) h
        = Done (zero_jpegInfo, zeroTime, Some e)
        /\ Nef.ProcessFile w n info = Done (zero_RawFile, Some e, []))
  /\ (forall n h eh,
      Cr2.processHeader n (mkFile (File info) c) = Done (h, eh) ->
      flen (mkFile (File info) c)
      < Cr2.tiffOffset h + 2
        + 12 * u16_at (Cr2.isBigEndian h && Cr2.hostLe n)
                 (mkFile (File info) c) (Cr2.tiffOffset h) ->
      (exists e,
         Cr2.processIfds n (mkFile (File info) c) h
         = Done (zero_jpegInfo, zeroTime, Some e))
      /\ Cr2.ProcessFile w n info = Done (zero_RawFile, None, [])).
Proof.
  intros Hopen. split.
  - intros n h eh Hh Hshort.
    pose proof (Nef_header_offset_range n _ h eh Hh) as Hoff.
    destruct (processIfd_truncated (Nef.IsHostLittleEndian n)
                (Nef.isBigEndian h) (Nef.tiffOffset h)
                (mkFile (File info) c))
      as (l & e & Hroot); [lia | lia | exact Hshort |].
    exists e.
    assert (Hifds : Nef.processIfds n (mkFile (File info) c) h
                    = Done (zero_jpegInfo, zeroTime, Some e)).
    { unfold Nef.processIfds. rewrite Hroot. reflexivity. }
    split; [exact Hifds|].
    unfold Nef.ProcessFile, os_Open. rewrite Hopen. cbv beta iota zeta.
    rewrite Hh. cbn [bind]. rewrite Hifds. reflexivity.
  - intros n h eh Hh Hshort.
    pose proof (Cr2_header_offset_range n _ h eh Hh) as Hoff.
    destruct (processIfd_truncated (Cr2.hostLe n)
                (Cr2.isBigEndian h) (Cr2.tiffOffset h)
                (mkFile (File info) c))
      as (l & e & Hroot); [lia | lia | exact Hshort |].
    assert (Hifds : Cr2.processIfds n (mkFile (File info) c) h
                    = Done (zero_jpegInfo, zeroTime, Some e)).
    { unfold Cr2.processIfds. rewrite Hroot. reflexivity. }
    split; [eauto|].
    unfold Cr2.ProcessFile, os_Open. rewrite Hopen. cbv beta iota zeta.
    rewrite Hh. cbn [bind]. rewrite Hifds. reflexivity.
Qed.

(** A Nikon file that ends after its header. *)
Lemma ProcessFile_truncated_root_directory_witness :
  exists e,
    Nef.ProcessFile
      (one_file_world "t.nef" [x49; x49; x2a; x00; x08; x00; x00; x00]
         (fun _ _ _ => None))
      (Nef.mkNefParser true) (mkRawFileInfo "t.nef" "out/" 50 1)
    = Done (zero_RawFile, Some e, []).
Proof.
  destruct (proj1 (ProcessFile_truncated_root_directory
                     (one_file_world "t.nef"
                        [x49; x49; x2a; x00; x08; x00; x00; x00]
                        (fun _ _ _ => None))
                     (mkRawFileInfo "t.nef" "out/" 50 1)
                     [x49; x49; x2a; x00; x08; x00; x00; x00] eq_refl)
              (Nef.mkNefParser true) (Nef.mkNefHeader false 42 8) None
              eq_refl)
    as (e & _ & He).
  - vm_compute. reflexivity.
  - exists e. exact He.
Defined.

(** * Further properties of the date conversion *)

(** ** Dates written in digits *)

Lemma digit_char (a : ascii) :
  a = ascii_of_N (Z.to_N (48 + digit_val a)).
Proof.
  unfold digit_val, byte_val.
  replace (48 + (Z.of_N (N_of_ascii a) - 48)) with (Z.of_N (N_of_ascii a))
    by lia.
  rewrite N2Z.id, ascii_N_embedding. reflexivity.
Qed.

(** The table of [toRfc822Date] maps the two digits of a month to the
    name of the month with that number. *)
Lemma month_entry_numeric (a b : ascii) :
  is_digit a = true -> is_digit b = true ->
  1 <= two_digits a b <= 12 ->
  exists abbrev, month_entry (str2 a b) = Some (abbrev, two_digits a b).
Proof.
  intros Ha Hb Hrange.
  pose proof (is_digit_val a Ha) as Va. pose proof (is_digit_val b Hb) as Vb.
  pose proof (digit_char a) as Ca. pose proof (digit_char b) as Cb.
  unfold two_digits in *.
  assert (Ea : digit_val a = 0 \/ digit_val a = 1) by lia.
  assert (Eb : digit_val b = 0 \/ digit_val b = 1 \/ digit_val b = 2
               \/ digit_val b = 3 \/ digit_val b = 4 \/ digit_val b = 5
               \/ digit_val b = 6 \/ digit_val b = 7 \/ digit_val b = 8
               \/ digit_val b = 9) by lia.
  destruct Ea as [Ea | Ea]; rewrite Ea in Ca; cbn in Ca;
    repeat (destruct Eb as [Eb | Eb];
            [rewrite Eb in Cb; cbn in Cb; subst a b;
             first [ eexists; reflexivity | cbn in Hrange; lia ] |]);
    rewrite Eb in Cb; cbn in Cb; subst a b;
    first [ eexists; reflexivity | cbn in Hrange; lia ].
Qed.

Lemma digit_not_colon (c : ascii) :
  is_digit c = true -> Ascii.eqb c ":" = false.
Proof. intros H. apply is_digit_not; [exact H | reflexivity]. Qed.

Lemma strings_Split_whole (sep : ascii) (s : string) :
  lacks sep s = true -> strings_Split s sep = [s].
Proof.
  unfold lacks.
  induction s as [|c s IH]; cbn [list_ascii_of_string forallb]; intros H.
  - reflexivity.
  - apply andb_true_iff in H. destruct H as [Hc Hs].
    cbn [strings_Split]. apply negb_true_iff in Hc. rewrite Hc.
    rewrite IH by exact Hs. reflexivity.
Qed.

Lemma strings_Split_first (sep : ascii) (a b : string) :
  lacks sep a = true ->
  strings_Split (a ++ String sep b) sep = a :: strings_Split b sep.
Proof.
  unfold lacks.
  induction a as [|c a IH]; cbn [list_ascii_of_string forallb]; intros H.
  - cbn [append strings_Split]. rewrite Ascii.eqb_refl. reflexivity.
  - apply andb_true_iff in H. destruct H as [Hc Ha].
    cbn [append strings_Split]. apply negb_true_iff in Hc. rewrite Hc.
    rewrite IH by exact Ha. reflexivity.
Qed.

Lemma lacks_str2 (sep a b : ascii) :
  Ascii.eqb a sep = false -> Ascii.eqb b sep = false ->
  lacks sep (str2 a b) = true.
Proof. intros Ha Hb. unfold lacks. cbn. rewrite Ha, Hb. reflexivity. Qed.

Lemma lacks_append (sep : ascii) (a b : string) :
  lacks sep a = true -> lacks sep b = true -> lacks sep (a ++ b) = true.
Proof.
  unfold lacks.
  induction a as [|c a IH]; cbn [append list_ascii_of_string forallb];
    intros Ha Hb; [exact Hb|].
  apply andb_true_iff in Ha. destruct Ha as [Hc Ha].
  rewrite Hc, IH by assumption. reflexivity.
Qed.

(** X12. For every string YYYY:MM:DD HH:MM:SS made of digits whose
    month is 01..12, whose day exists in that month of that year, whose
    hour is below 24 and whose minute is below 60, [parseDateTime]
    returns, with a nil error, the time with exactly these numbers: the
    month is the number MM, the year is 19YY or 20YY for the last two
    digits YY of the year (1900 + YY from 69 on, else 2000 + YY), and
    the second is 0. *)
Theorem parseDateTime_digits
    (y0 y1 y2 y3 mo0 mo1 d0 d1 h0 h1 m0 m1 s0 s1 : ascii) :
  forallb is_digit [y0; y1; y2; y3; mo0; mo1; d0; d1; h0; h1; m0; m1; s0; s1]
  = true ->
  1 <= two_digits mo0 mo1 <= 12 ->
  1 <= two_digits d0 d1
    <= daysIn (two_digits mo0 mo1) (two_digit_year (two_digits y2 y3)) ->
  two_digits h0 h1 < 24 ->
  two_digits m0 m1 < 60 ->
  parseDateTime
    (digits_date y0 y1 y2 y3 mo0 mo1 d0 d1 h0 h1 m0 m1 s0 s1)
  = Done (mkTime (two_digit_year (two_digits y2 y3)) (two_digits mo0 mo1)
            (two_digits d0 d1) (two_digits h0 h1) (two_digits m0 m1) 0,
          None).
Proof.
  intros Hdigits Rmo Rd Rh Rm.
  cbn [forallb] in Hdigits.
  repeat match type of Hdigits with
         | _ && _ = true =>
             let H := fresh "D" in
             apply andb_true_iff in Hdigits; destruct Hdigits as [H Hdigits]
         end.
  destruct (month_entry_numeric mo0 mo1) as (abbrev & Hentry);
    try assumption.
  assert (Hsp : forall a b, is_digit a = true -> is_digit b = true ->
                            lacks " " (str2 a b) = true)
    by (intros; apply lacks_str2; apply digit_not_space; assumption).
  assert (Hco : forall a b, is_digit a = true -> is_digit b = true ->
                            lacks ":" (str2 a b) = true)
    by (intros; apply lacks_str2; apply digit_not_colon; assumption).
  apply (parseDateTime_well_formed
           (digits_date y0 y1 y2 y3 mo0 mo1 d0 d1 h0 h1 m0 m1 s0 s1)
           ((str2 y0 y1 ++ str2 y2 y3)
              ++ String ":" (str2 mo0 mo1 ++ String ":" (str2 d0 d1)))
           (str2 h0 h1 ++ String ":" (str2 m0 m1 ++ String ":" (str2 s0 s1)))
           (str2 y0 y1 ++ str2 y2 y3) (str2 mo0 mo1) (str2 d0 d1)
           (str2 h0 h1) (str2 m0 m1) (str2 s0 s1))
    with (y0 := y0) (y1 := y1) (abbrev := abbrev);
    try assumption; try reflexivity.
  - change (digits_date y0 y1 y2 y3 mo0 mo1 d0 d1 h0 h1 m0 m1 s0 s1)
      with (((str2 y0 y1 ++ str2 y2 y3)
               ++ String ":" (str2 mo0 mo1 ++ String ":" (str2 d0 d1)))
              ++ String " "
                   (str2 h0 h1
                      ++ String ":"
                           (str2 m0 m1 ++ String ":" (str2 s0 s1))))%string.
    rewrite strings_Split_first.
    + rewrite strings_Split_whole; [reflexivity|].
      change (lacks " " (str2 h0 h1 ++ (str2 ":" m0 ++ str2 m1 ":")
                           ++ str2 s0 s1) = true).
      repeat apply lacks_append; try (apply Hsp; assumption);
        apply lacks_str2;
        solve [reflexivity | apply digit_not_space; assumption].
    + change (lacks " " ((str2 y0 y1 ++ str2 y2 y3)
                           ++ (str2 ":" mo0 ++ str2 mo1 ":")
                           ++ str2 d0 d1) = true).
      repeat apply lacks_append; try (apply Hsp; assumption);
        apply lacks_str2;
        solve [reflexivity | apply digit_not_space; assumption].
  - rewrite strings_Split_first
      by (apply lacks_append; apply Hco; assumption).
    rewrite strings_Split_first by (apply Hco; assumption).
    rewrite strings_Split_whole by (apply Hco; assumption). reflexivity.
  - rewrite strings_Split_first by (apply Hco; assumption).
    rewrite strings_Split_first by (apply Hco; assumption).
    rewrite strings_Split_whole by (apply Hco; assumption). reflexivity.
Qed.

(** The last minute of 1999. *)
Lemma parseDateTime_digits_witness :
  parseDateTime "1999:12:31 23:59:58"
  = Done (mkTime 1999 12 31 23 59 0, None).
Proof.
  refine (parseDateTime_digits "1" "9" "9" "9" "1" "2" "3" "1"
            "2" "3" "5" "9" "5" "8" _ _ _ _ _).
  - reflexivity.
  - cbn. lia.
  - cbn. lia.
  - cbn. lia.
  - cbn. lia.
Defined.

(** ** What a date parse can return *)

Lemma lookup_range (tab : list string) :
  forall (i : Z) (val : string) (k : Z) (r : string),
    lookup tab i val = Some (k, r) ->
    i <= k < i + Z.of_nat (List.length tab).
Proof.
  induction tab as [|v tab IH]; intros i val k r; cbn [lookup List.length].
  - discriminate.
  - destruct (_ && _).
    + intros H. injection H as <- _. lia.
    + intros H. apply IH in H. lia.
Qed.

Lemma atoi_str2_range (a b : ascii) (v : Z) :
  atoi (str2 a b) = Some v -> - 9 <= v <= 99.
Proof.
  unfold atoi, str2. fold (is_sign a).
  destruct (is_sign a) eqn:Hs.
  - cbn [leadingInt]. destruct (is_digit b) eqn:Hb; cbn [negb];
      [|discriminate].
    pose proof (is_digit_val b Hb) as Vb.
    destruct (2 ^ 63 / 10 <? 0); [discriminate|].
    destruct (2 ^ 63 <? 0 * 10 + digit_val b); [discriminate|].
    destruct (Ascii.eqb a "-"); intros H; injection H as <-; lia.
  - cbn [leadingInt]. destruct (is_digit a) eqn:Ha; cbn [negb];
      [|discriminate].
    pose proof (is_digit_val a Ha) as Va.
    destruct (2 ^ 63 / 10 <? 0); [discriminate|].
    destruct (2 ^ 63 <? 0 * 10 + digit_val a); [discriminate|].
    destruct (is_digit b) eqn:Hb; cbn [negb]; [|discriminate].
    pose proof (is_digit_val b Hb) as Vb.
    destruct (2 ^ 63 / 10 <? 0 * 10 + digit_val a); [discriminate|].
    destruct (2 ^ 63 <? (0 * 10 + digit_val a) * 10 + digit_val b);
      [discriminate|].
    intros H. injection H as <-. lia.
Qed.

Lemma substring_two (s : string) :
  (String.length s <? 2)%nat = false ->
  exists a b, substring 0 2 s = str2 a b.
Proof.
  destruct s as [|a [|b r]]; try discriminate.
  intros _. exists a, b. cbn [substring]. rewrite substring_00. reflexivity.
Qed.

Lemma daysIn_range (m y : Z) : 28 <= daysIn m y <= 31.
Proof.
  unfold daysIn. destruct (m =? 2); [destruct (isLeap y); lia|].
  change 1 with (Z.ones 1). rewrite Z.land_ones by lia.
  pose proof (Z.mod_pos_bound (m + Z.shiftr m 3) (2 ^ 1) ltac:(lia)).
  change (2 ^ 1) with 2 in *. lia.
Qed.

(** A value that the layout parse accepts is a civil time of the years
    1969 to 2099. *)
Lemma time_Parse_ok_inv (v : string) (t : Time) :
  time_Parse v = (t, None) ->
  1969 <= year t <= 2099 /\ 1 <= month t <= 12
  /\ 1 <= day t <= daysIn (month t) (year t)
  /\ 0 <= hour t < 24 /\ 0 <= minute t < 60 /\ second t = 0.
Proof.
  unfold time_Parse.
  destruct (getnum v true) as [[d v1]|]; [|discriminate].
  destruct (skip_space v1) as [v2|]; [|discriminate].
  destruct (lookup shortMonthNames 0 v2) as [[m0 v3]|] eqn:Em; [|discriminate].
  destruct (skip_space v3) as [v4|]; [|discriminate].
  destruct (String.length v4 <? 2)%nat eqn:El; [discriminate|].
  destruct (atoi (substring 0 2 v4)) as [y|] eqn:Ey; [|discriminate].
  destruct (skip_space _) as [v6|]; [|discriminate].
  destruct (getnum v6 false) as [[h v7]|]; [|discriminate].
  destruct ((h <? 0) || (24 <=? h)) eqn:Eh; [discriminate|].
  destruct (skip_byte ":" v7) as [v8|]; [|discriminate].
  destruct (getnum v8 true) as [[mi v9]|]; [|discriminate].
  destruct ((mi <? 0) || (60 <=? mi)) eqn:Ei; [discriminate|].
  destruct v9; [|discriminate].
  destruct ((d <? 1) || (daysIn (m0 + 1) _ <? d)) eqn:Ed; [discriminate|].
  intros H. injection H as <-. cbn [year month day hour minute second].
  apply lookup_range in Em. cbn [shortMonthNames List.length] in Em.
  destruct (substring_two v4 El) as (a & b & Eab). rewrite Eab in Ey.
  apply atoi_str2_range in Ey.
  apply orb_false_iff in Eh, Ei, Ed.
  destruct Eh as [Eh1 Eh2]. destruct Ei as [Ei1 Ei2].
  destruct Ed as [Ed1 Ed2].
  apply Z.ltb_ge in Eh1, Ei1, Ed1, Ed2. apply Z.leb_gt in Eh2, Ei2.
  repeat split; try lia; destruct (69 <=? y) eqn:E69;
    try apply Z.leb_le in E69; try apply Z.leb_gt in E69; lia.
Qed.

Lemma parseDateTime_outcome (s : string) (t : Time) (e : option error) :
  parseDateTime s = Done (t, e) ->
  (e <> None /\ t = zeroTime)
  \/ (e = None /\ exists v, time_Parse v = (t, None)).
Proof.
  unfold parseDateTime.
  destruct (negb _).
  { intros H. injection H as <- <-. left. split; [discriminate | reflexivity]. }
  destruct (index _ 0) as [dateToken|]; cbn [bind]; [|discriminate].
  destruct (index _ 1) as [timeToken|]; cbn [bind]; [|discriminate].
  destruct (_ && _).
  2: { intros H. injection H as <- <-. left.
       split; [discriminate | reflexivity]. }
  destruct (toRfc822Date _) as [[montStr [err|]]|]; cbn [bind];
    [| |discriminate].
  { intros H. injection H as <- <-. left.
    split; [discriminate | reflexivity]. }
  destruct (index _ 2) as [dd|]; cbn [bind]; [|discriminate].
  destruct (index _ 0) as [yr|]; cbn [bind]; [|discriminate].
  destruct (str_index yr 2) as [y2|]; cbn [bind]; [|discriminate].
  destruct (str_index yr 3) as [y3|]; cbn [bind]; [|discriminate].
  destruct (index _ 0) as [hh|]; cbn [bind]; [|discriminate].
  destruct (index _ 1) as [mm|]; cbn [bind]; [|discriminate].
  match goal with
  | |- context [time_Parse ?v] =>
      destruct (time_Parse_outcome v) as [(t' & Hok) | (e' & Herr)]
  end.
  - rewrite Hok. intros H. injection H as <- <-. right.
    split; [reflexivity | eauto].
  - rewrite Herr. intros H. injection H as <- <-. left.
    split; [discriminate | reflexivity].
Qed.

(** X13. Whatever the input, a [parseDateTime] that returns yields
    either an error together with the zero time, or a nil error
    together with a civil time: a year from 1969 to 2099 (the window of
    the two-digit year of the layout), a month from 1 to 12, a day that
    exists in that month of that year, an hour below 24, a minute below
    60 and the second 0. *)
Theorem parseDateTime_result_shape (s : string) (t : Time)
    (e : option error) :
  parseDateTime s = Done (t, e) ->
  (e <> None /\ t = zeroTime)
  \/ (e = None
      /\ 1969 <= year t <= 2099 /\ 1 <= month t <= 12
      /\ 1 <= day t <= daysIn (month t) (year t) /\ day t <= 31
      /\ 0 <= hour t < 24 /\ 0 <= minute t < 60 /\ second t = 0).
Proof.
  intros H. apply parseDateTime_outcome in H.
  destruct H as [Hbad | (-> & v & Hv)]; [left; exact Hbad|].
  right. apply time_Parse_ok_inv in Hv.
  pose proof (daysIn_range (month t) (year t)).
  repeat split; try apply Hv; try reflexivity. lia.
Qed.

(** The date of the package's test. *)
Lemma parseDateTime_result_shape_witness :
  parseDateTime "2010:08:10 12:11:07" = Done (mkTime 2010 8 10 12 11 0, None)
  /\ 1969 <= 2010 <= 2099.
Proof.
  split; [reflexivity|].
  destruct (parseDateTime_result_shape "2010:08:10 12:11:07"
              (mkTime 2010 8 10 12 11 0) None eq_refl)
    as [(Hbad & _) | (_ & Hyear & _)].
  - exfalso. apply Hbad. reflexivity.
  - exact Hyear.
Defined.

(** ** The creation date of a directory with several dates *)





(** * Further properties of the registry and of whole parses *)

(** ** The registry *)

Lemma GetParser_Register (p : RawParsers) (key k : string)
    (parser : option RawParser) :
  GetParser (Register p key parser) k
  = if String.eqb k key then parser else GetParser p k.
Proof.
  unfold GetParser, Register. cbn [parserMap].
  rewrite StringMapFacts.add_o.
  destruct (OrderedTypeEx.String_as_OT.eq_dec key k) as [E | N];
    destruct (String.eqb_spec k key) as [E' | N']; try reflexivity.
  - destruct N'. symmetry. exact E.
  - destruct N. symmetry. exact E'.
Qed.

Lemma GetParser_DeleteParser (p : RawParsers) (key k : string) :
  GetParser (DeleteParser p key) k
  = if String.eqb k key then None else GetParser p k.
Proof.
  unfold GetParser, DeleteParser. cbn [parserMap].
  rewrite StringMapFacts.remove_o.
  destruct (OrderedTypeEx.String_as_OT.eq_dec key k) as [E | N];
    destruct (String.eqb_spec k key) as [E' | N']; try reflexivity.
  - destruct N'. symmetry. exact E.
  - destruct N. symmetry. exact E'.
Qed.

(** X15. The registry behaves as a finite map from keys to parsers: a
    new registry has no parser under any key; after [Register] the
    registered parser (a nil one included) is what [GetParser] returns
    for that key, replacing an earlier registration, and after
    [DeleteParser] it is nil, while every other key keeps its parser.
    So the two parsers of the package, registered under the keys their
    constructors return ("CR2" and "NEF"), are each found under their
    own key, and deleting one leaves the other. *)
Theorem RawParsers_lookup_laws (p : RawParsers) (key : string)
    (parser : option RawParser) :
  (forall k, GetParser NewRawParsers k = None)
  /\ GetParser (Register p key parser) key = parser
  /\ (forall k, k <> key ->
        GetParser (Register p key parser) k = GetParser p k)
  /\ GetParser (DeleteParser p key) key = None
  /\ (forall k, k <> key ->
        GetParser (DeleteParser p key) k = GetParser p k)
  /\ (forall a b,
        let q := Register (Register p (snd (NewCr2Parser a))
                             (fst (NewCr2Parser a)))
                   (snd (NewNefParser b)) (fst (NewNefParser b)) in
        GetParser q Cr2ParserKey
        = Some (Cr2ParserRef (Cr2.mkCr2Parser (mkRawParser a)))
        /\ GetParser q NefParserKey
           = Some (NefParserRef (Nef.mkNefParser b))
        /\ GetParser (DeleteParser q NefParserKey) Cr2ParserKey
           = Some (Cr2ParserRef (Cr2.mkCr2Parser (mkRawParser a)))).
Proof.
  split; [|split; [|split; [|split; [|split]]]].
  - intros k. unfold GetParser, NewRawParsers. cbn [parserMap].
    rewrite StringMapFacts.empty_o. reflexivity.
  - rewrite GetParser_Register, String.eqb_refl. reflexivity.
  - intros k Hk. rewrite GetParser_Register.
    destruct (String.eqb_spec k key); [contradiction | reflexivity].
  - rewrite GetParser_DeleteParser, String.eqb_refl. reflexivity.
  - intros k Hk. rewrite GetParser_DeleteParser.
    destruct (String.eqb_spec k key); [contradiction | reflexivity].
  - intros a b q. unfold q.
    rewrite GetParser_DeleteParser, !GetParser_Register.
    repeat split.
Qed.

(** ** Invariants of the result *)

Lemma orientation_of_ok (be : bool) (v : Z) :
  orientation_ok (orientation_of be v).
Proof.
  unfold orientation_of, orientation_ok.
  destruct (_ =? 8); [right | left]; reflexivity.
Qed.

Lemma parseDateTime_date_ok (s : string) (t : Time) (e : option error) :
  parseDateTime s = Done (t, e) -> date_ok t.
Proof.
  intros H. apply parseDateTime_outcome in H.
  destruct H as [(_ & ->) | (_ & v & Hv)]; [left; reflexivity|].
  right. apply (time_Parse_ok_inv v). exact Hv.
Qed.

Lemma exif_loop_date_ok (f : os_File) (entries : list ifdEntry) :
  forall cDate t,
    Nef.exif_loop f entries cDate = Done t -> date_ok cDate -> date_ok t.
Proof.
  induction entries as [|e entries IH]; intros cDate t; cbn [Nef.exif_loop].
  - intros H. injection H as <-. trivial.
  - destruct (tag e =? 0x9004); [|apply IH].
    destruct (processASCIIEntry e f) as [str [err|]]; [apply IH|].
    destruct (parseDateTime str) as [[t' x]|] eqn:Hp; cbn [bind];
      [|discriminate].
    intros H _. apply (IH t' t H). apply (parseDateTime_date_ok str t' x Hp).
Qed.

Lemma Nef_subifd_loop_orientation (n : Nef.NefParser) (f : os_File)
    (h : Nef.nefHeader) (entries : list ifdEntry) :
  forall jpeg j,
    Nef.subifd_loop n f h entries jpeg = Done j ->
    orientation j = orientation jpeg.
Proof.
  induction entries as [|e entries IH]; intros jpeg j; cbn [Nef.subifd_loop].
  - intros H. injection H as <-. reflexivity.
  - destruct (processRationalEntry (Nef.IsHostLittleEndian n)
                (Nef.isBigEndian h) (valueOffset e) f)
      as [[[[num den] r] err]|];
      destruct (tag e =? 0x011a), (tag e =? 0x011b); cbn [bind];
      try discriminate;
      intros H; apply IH in H; rewrite H;
      destruct (tag e =? 0x0201), (tag e =? 0x0202); reflexivity.
Qed.

Lemma Nef_root_loop_ok (n : Nef.NefParser) (f : os_File)
    (h : Nef.nefHeader) (entries : list ifdEntry) :
  forall jpeg cDate j t err,
    Nef.root_loop n f h entries jpeg cDate = Done (j, t, err) ->
    orientation_ok (orientation jpeg) -> date_ok cDate ->
    orientation_ok (orientation j) /\ date_ok t.
Proof.
  induction entries as [|e entries IH]; intros jpeg cDate j t err;
    cbn [Nef.root_loop].
  - intros H. injection H as <- <- _. auto.
  - destruct (tag e =? 0x014a).
    { destruct (readField (valueOffset e) 4 f) as [bytes [x|]]; [apply IH|].
      destruct (bytesToUInt _ _ bytes) as [sub0|]; cbn [bind];
        [|discriminate].
      destruct (processIfd _ _ sub0 f) as [[subEntries [x|]]|]; cbn [bind];
        [| |discriminate].
      { intros H. injection H as <- <- _. auto. }
      destruct (Nef.subifd_loop n f h subEntries jpeg) as [jpeg'|] eqn:Hsub;
        cbn [bind]; [|discriminate].
      apply Nef_subifd_loop_orientation in Hsub.
      intros H Ho Hd.
      apply (IH _ _ _ _ _ H); [rewrite Hsub; exact Ho | exact Hd]. }
    destruct (tag e =? 0x0112).
    { intros H Ho Hd. apply (IH _ _ _ _ _ H); [|exact Hd].
      apply orientation_of_ok. }
    destruct (tag e =? 0x8769); [|apply IH].
    destruct (processIfd _ _ _ f) as [[exifEntries [x|]]|]; cbn [bind];
      [| |discriminate].
    { intros H. injection H as <- <- _. auto. }
    destruct (Nef.exif_loop f exifEntries cDate) as [cDate'|] eqn:Hexif;
      cbn [bind]; [|discriminate].
    intros H Ho Hd. apply (IH _ _ _ _ _ H); [exact Ho|].
    apply (exif_loop_date_ok f exifEntries cDate cDate' Hexif Hd).
Qed.

Lemma Cr2_root_loop_ok (n : Cr2.Cr2Parser) (f : os_File)
    (h : Cr2.cr2Header) (entries : list ifdEntry) :
  forall jpeg cDate err0 j t err,
    Cr2.root_loop n f h entries jpeg cDate err0 = Done (j, t, err) ->
    orientation_ok (orientation jpeg) -> date_ok cDate ->
    orientation_ok (orientation j) /\ date_ok t.
Proof.
  induction entries as [|e entries IH]; intros jpeg cDate err0 j t err;
    cbn [Cr2.root_loop].
  - intros H. injection H as <- <- _. auto.
  - assert (Hstep : forall jpeg' err',
              orientation jpeg' = orientation jpeg ->
              Cr2.root_loop n f h entries jpeg' cDate err' = Done (j, t, err) ->
              orientation_ok (orientation jpeg) -> date_ok cDate ->
              orientation_ok (orientation j) /\ date_ok t).
    { intros jpeg' err' Hsame H Ho Hd.
      apply (IH _ _ _ _ _ _ H); [rewrite Hsame; exact Ho | exact Hd]. }
    destruct (tag e =? 0x0111); [apply Hstep; reflexivity|].
    destruct (tag e =? 0x0112).
    { intros H Ho Hd. apply (IH _ _ _ _ _ _ H); [|exact Hd].
      apply orientation_of_ok. }
    destruct (tag e =? 0x0117); [apply Hstep; reflexivity|].
    destruct (tag e =? 0x011a).
    { destruct (processRationalEntry _ _ _ f) as [[[[num den] r] x]|];
        cbn [bind]; [apply Hstep; reflexivity | discriminate]. }
    destruct (tag e =? 0x011b).
    { destruct (processRationalEntry _ _ _ f) as [[[[num den] r] x]|];
        cbn [bind]; [apply Hstep; reflexivity | discriminate]. }
    destruct (tag e =? 0x8769); [|apply Hstep; reflexivity].
    destruct (processIfd _ _ _ f) as [[exifEntries [x|]]|]; cbn [bind];
      [| |discriminate].
    { intros H. injection H as <- <- _. auto. }
    destruct (Cr2.exif_loop f exifEntries cDate) as [cDate'|] eqn:Hexif;
      cbn [bind]; [|discriminate].
    intros H Ho Hd. apply (IH _ _ _ _ _ _ H); [exact Ho|].
    apply (exif_loop_date_ok f exifEntries cDate cDate' Hexif Hd).
Qed.

(** X16. Whatever the file holds, the result of a [ProcessFile] that
    returns carries an orientation that is 0.0 or the 270-degree
    rotation, and a creation date that is the zero time or a civil time
    of the years 1969 to 2099 with valid month, day, hour and minute and
    the second 0. *)
Theorem ProcessFile_result_invariants (w : World) (info : RawFileInfo)
    (r : RawFile) (e : option error) (calls : list CodecCall) :
  (exists n, Nef.ProcessFile w n info = Done (r, e, calls))
  \/ (exists n, Cr2.ProcessFile w n info = Done (r, e, calls)) ->
  orientation_ok (JpegOrientation r) /\ date_ok (CreateDate r).
Proof.
  assert (Hzero : orientation_ok (JpegOrientation zero_RawFile)
                  /\ date_ok (CreateDate zero_RawFile))
    by (split; left; reflexivity).
  intros [(n & H) | (n & H)]; revert H.
  - unfold Nef.ProcessFile, os_Open.
    destruct (fs w (File info)) as [c|].
    2: { intros H. injection H as <- _ _. exact Hzero. }
    cbv beta iota zeta.
    destruct (Nef.processHeader n _) as [[h eh]|]; cbn [bind];
      [|discriminate].
    unfold Nef.processIfds.
    destruct (processIfd _ _ _ _) as [[entries [x|]]|]; cbn [bind];
      [| |discriminate].
    { intros H. injection H as <- _ _. exact Hzero. }
    destruct (Nef.root_loop n _ h entries zero_jpegInfo zeroTime)
      as [[[j cd] ei]|] eqn:Hloop; cbn [bind]; [|discriminate].
    apply Nef_root_loop_ok in Hloop; [|left; reflexivity..].
    destruct ei as [x|].
    { intros H. injection H as <- _ _. exact Hzero. }
    destruct (length j <=? 0).
    { intros H. injection H as <- _ _. exact Hzero. }
    destruct (Nef.decodeAndWriteJpeg w n _ j _ _) as [[[path ew] cs]|];
      cbn [bind]; [|discriminate].
    destruct ew; intros H; injection H as <- _ _; [exact Hzero | exact Hloop].
  - unfold Cr2.ProcessFile, os_Open.
    destruct (fs w (File info)) as [c|].
    2: { intros H. injection H as <- _ _. exact Hzero. }
    cbv beta iota zeta.
    destruct (Cr2.processHeader n _) as [[h eh]|]; cbn [bind];
      [|discriminate].
    unfold Cr2.processIfds.
    destruct (processIfd _ _ _ _) as [[entries [x|]]|]; cbn [bind];
      [| |discriminate].
    { intros H. injection H as <- _ _. exact Hzero. }
    destruct (Cr2.root_loop n _ h entries zero_jpegInfo zeroTime None)
      as [[[j cd] ei]|] eqn:Hloop; cbn [bind]; [|discriminate].
    apply Cr2_root_loop_ok in Hloop; [|left; reflexivity..].
    destruct ei as [x|].
    { intros H. injection H as <- _ _. exact Hzero. }
    destruct (Cr2.decodeAndWriteJpeg w n _ j _ _) as [[[path ew] cs]|];
      cbn [bind]; [|discriminate].
    destruct ew; intros H; injection H as <- _ _; [exact Hzero | exact Hloop].
Qed.

(** The result of the Canon sample. *)
Lemma ProcessFile_result_invariants_witness :
  orientation_ok rotationRads /\ date_ok (mkTime 2010 8 10 12 11 0).
Proof.
  refine (ProcessFile_result_invariants
            (one_file_world "s.cr2" cr2_sample (fun _ _ _ => None))
            (mkRawFileInfo "s.cr2" "out/" 50 1)
            (mkRawFile (mkTime 2010 8 10 12 11 0) "s.cr2"
               "out/s.cr2_extracted.jpg" rotationRads)
            None
            [mkCodecCall [xff; xd8] 50 "out/s.cr2_extracted.jpg"] _).
  right. exists (Cr2.mkCr2Parser (mkRawParser true)).
  vm_compute. reflexivity.
Defined.

(** ** Which entries locate the JPEG *)

Lemma Cr2_root_loop_last_values (n : Cr2.Cr2Parser) (f : os_File)
    (h : Cr2.cr2Header) (entries : list ifdEntry) :
  forall jpeg cDate err0 j t,
    Cr2.root_loop n f h entries jpeg cDate err0 = Done (j, t, None) ->
    offset j = last_value 0x0111 entries (offset jpeg)
    /\ length j = last_value 0x0117 entries (length jpeg).
Proof.
  unfold last_value.
  induction entries as [|e entries IH]; intros jpeg cDate err0 j t;
    cbn [Cr2.root_loop fold_left].
  - intros H. injection H as <- _. split; reflexivity.
  - destruct (Z.eqb_spec (tag e) 0x0111) as [E1 | N1].
    { rewrite E1. cbn [Z.eqb Pos.eqb]. intros H. apply IH in H. exact H. }
    destruct (Z.eqb_spec (tag e) 0x0112) as [E2 | N2].
    { rewrite E2. cbn [Z.eqb Pos.eqb]. intros H. apply IH in H. exact H. }
    destruct (Z.eqb_spec (tag e) 0x0117) as [E3 | N3].
    { intros H. apply IH in H. exact H. }
    destruct (tag e =? 0x011a).
    { destruct (processRationalEntry _ _ _ f) as [[[[num den] r] x]|];
        cbn [bind]; [|discriminate].
      intros H. apply IH in H. exact H. }
    destruct (tag e =? 0x011b).
    { destruct (processRationalEntry _ _ _ f) as [[[[num den] r] x]|];
        cbn [bind]; [|discriminate].
      intros H. apply IH in H. exact H. }
    destruct (tag e =? 0x8769); [|apply IH].
    destruct (processIfd _ _ _ f) as [[exifEntries [x|]]|]; cbn [bind];
      [discriminate | | discriminate].
    destruct (Cr2.exif_loop f exifEntries cDate) as [cDate'|]; cbn [bind];
      [apply IH | discriminate].
Qed.

(** X17. In a Canon file the JPEG is located by the last StripOffsets
    (0x0111) and the last StripByteCounts (0x0117) entry of the root
    directory: whenever [Cr2Parser.ProcessFile] invokes the codec, the
    data it hands over are the bytes of the file at the value of the
    last 0x0111 entry, as many as the value of the last 0x0117 entry
    says (0 for a missing entry). *)
Theorem Cr2_ProcessFile_extracts_addressed_strip (w : World)
    (n : Cr2.Cr2Parser) (info : RawFileInfo) (c : list byte)
    (h : Cr2.cr2Header) (eh : option error) (entries : list ifdEntry)
    (r : RawFile) (e : option error) (call : CodecCall) :
  fs w (File info) = Some c ->
  Cr2.processHeader n (mkFile (File info) c) = Done (h, eh) ->
  processIfd (Cr2.hostLe n) (Cr2.isBigEndian h) (Cr2.tiffOffset h)
    (mkFile (File info) c) = Done (entries, None) ->
  Cr2.ProcessFile w n info = Done (r, e, [call]) ->
  call_data call
  = sub (mkFile (File info) c) (last_value 0x0111 entries 0)
      (Z.to_nat (last_value 0x0117 entries 0)).
Proof.
  intros Hopen Hh Hroot. unfold Cr2.ProcessFile, os_Open.
  rewrite Hopen. cbv beta iota zeta. rewrite Hh. cbn [bind].
  unfold Cr2.processIfds. rewrite Hroot. cbn [bind].
  destruct (Cr2.root_loop n _ h entries zero_jpegInfo zeroTime None)
    as [[[j cd] [x|]]|] eqn:Hloop; cbn [bind]; try discriminate.
  apply Cr2_root_loop_last_values in Hloop. destruct Hloop as [Hoff Hlen].
  cbn [offset length zero_jpegInfo] in Hoff, Hlen.
  rewrite (decodeAndWriteJpeg_same w n (Nef.mkNefParser true)).
  destruct (Nef.decodeAndWriteJpeg w _ _ j _ _) as [[[path ew] cs]|]
    eqn:Hdec; cbn [bind]; [|discriminate].
  apply Nef_decodeAndWriteJpeg_inv in Hdec.
  destruct Hdec as (_ & [(-> & _) | (_ & _ & _ & -> & _)]).
  - destruct ew; discriminate.
  - rewrite Hoff, Hlen.
    destruct ew; intros H; injection H as _ _ <-; reflexivity.
Qed.

(** The Canon sample: offset 108, length 2. *)
Lemma Cr2_ProcessFile_extracts_addressed_strip_witness :
  [xff; xd8]
  = sub (mkFile "s.cr2" cr2_sample)
      (last_value 0x0111
         [mkIfdEntry 0x0111 4 1 108; mkIfdEntry 0x0112 3 1 8;
          mkIfdEntry 0x0117 4 1 2; mkIfdEntry 0x8769 4 1 70] 0)
      (Z.to_nat
         (last_value 0x0117
            [mkIfdEntry 0x0111 4 1 108; mkIfdEntry 0x0112 3 1 8;
             mkIfdEntry 0x0117 4 1 2; mkIfdEntry 0x8769 4 1 70] 0)).
Proof.
  refine (Cr2_ProcessFile_extracts_addressed_strip
            (one_file_world "s.cr2" cr2_sample (fun _ _ _ => None))
            (Cr2.mkCr2Parser (mkRawParser true))
            (mkRawFileInfo "s.cr2" "out/" 50 1) cr2_sample
            (Cr2.mkCr2Header false 42 "CR" 2 0 16) None
            [mkIfdEntry 0x0111 4 1 108; mkIfdEntry 0x0112 3 1 8;
             mkIfdEntry 0x0117 4 1 2; mkIfdEntry 0x8769 4 1 70]
            (mkRawFile (mkTime 2010 8 10 12 11 0) "s.cr2"
               "out/s.cr2_extracted.jpg" rotationRads)
            None
            (mkCodecCall [xff; xd8] 50 "out/s.cr2_extracted.jpg")
            _ _ _ _).
  - reflexivity.
  - vm_compute. reflexivity.
  - vm_compute. reflexivity.
  - vm_compute. reflexivity.
Defined.

(** ** Which entries locate the JPEG of a Nikon file *)

Lemma Nef_subifd_loop_last_values (n : Nef.NefParser) (f : os_File)
    (h : Nef.nefHeader) (entries : list ifdEntry) :
  forall jpeg j,
    Nef.subifd_loop n f h entries jpeg = Done j ->
    offset j = last_value 0x0201 entries (offset jpeg)
    /\ length j = last_value 0x0202 entries (length jpeg).
Proof.
  unfold last_value.
  induction entries as [|e entries IH]; intros jpeg j;
    cbn [Nef.subifd_loop fold_left].
  - intros H. injection H as <-. split; reflexivity.
  - destruct (processRationalEntry (Nef.IsHostLittleEndian n)
                (Nef.isBigEndian h) (valueOffset e) f)
      as [[[[num den] r] err]|];
      destruct (tag e =? 0x011a), (tag e =? 0x011b); cbn [bind];
      try discriminate;
      intros H; apply IH in H; destruct H as [-> ->];
      destruct (tag e =? 0x0201), (tag e =? 0x0202); split; reflexivity.
Qed.

(** The walk of the entries before the SubIFD pointer, when the whole
    walk ends without error, leaves the descriptor's range alone. *)
Lemma Nef_root_loop_before (n : Nef.NefParser) (f : os_File)
    (h : Nef.nefHeader) (pre rest : list ifdEntry) :
  (forall e, In e pre -> tag e <> 0x014a) ->
  forall jpeg cDate j t,
    Nef.root_loop n f h (pre ++ rest) jpeg cDate = Done (j, t, None) ->
    exists jpeg' cDate',
      Nef.root_loop n f h rest jpeg' cDate' = Done (j, t, None)
      /\ offset jpeg' = offset jpeg /\ length jpeg' = length jpeg.
Proof.
  induction pre as [|entry pre IH]; intros Htags jpeg cDate j t.
  - cbn [app]. intros H. exists jpeg, cDate. auto.
  - assert (Hentry : tag entry <> 0x014a) by (apply Htags; left; reflexivity).
    assert (Hpre : forall e, In e pre -> tag e <> 0x014a)
      by (intros e He; apply Htags; right; exact He).
    specialize (IH Hpre).
    cbn [app Nef.root_loop].
    destruct (Z.eqb_spec (tag entry) 0x014a) as [E | _]; [contradiction|].
    destruct (tag entry =? 0x0112).
    { intros H. apply IH in H. exact H. }
    destruct (tag entry =? 0x8769); [|apply IH].
    destruct (processIfd _ _ _ f) as [[exifEntries [e|]]|]; cbn [bind];
      [discriminate | | discriminate].
    destruct (Nef.exif_loop f exifEntries cDate) as [cDate'|]; cbn [bind];
      [apply IH | discriminate].
Qed.

(** X18. In a Nikon file the JPEG is located through the SubIFD
    pointer: when the root directory holds one entry with tag 0x014a
    whose value offset lies inside the file, and the directory at the
    32-bit offset stored there (SubIFD 0) decodes without error, then
    whenever [NefParser.ProcessFile] invokes the codec the data it hands
    over are the bytes of the file at the value of the last
    JPEGInterchangeFormat (0x0201) entry of SubIFD 0, as many as the
    value of its last JPEGInterchangeFormatLength (0x0202) entry says. *)
Theorem Nef_ProcessFile_extracts_SubIFD_strip (w : World)
    (n : Nef.NefParser) (info : RawFileInfo) (c : list byte)
    (h : Nef.nefHeader) (eh : option error)
    (pre post subEntries : list ifdEntry) (pointer : ifdEntry)
    (r : RawFile) (e : option error) (call : CodecCall) :
  fs w (File info) = Some c ->
  Nef.processHeader n (mkFile (File info) c) = Done (h, eh) ->
  processIfd (Nef.IsHostLittleEndian n) (Nef.isBigEndian h)
    (Nef.tiffOffset h) (mkFile (File info) c)
  = Done (pre ++ pointer :: post, None) ->
  tag pointer = 0x014a ->
  (forall x, In x (pre ++ post) -> tag x <> 0x014a) ->
  0 <= valueOffset pointer ->
  valueOffset pointer + 4 <= flen (mkFile (File info) c) ->
  processIfd (Nef.IsHostLittleEndian n) (Nef.isBigEndian h)
    (u32_at (Nef.isBigEndian h && Nef.IsHostLittleEndian n)
       (mkFile (File info) c) (valueOffset pointer))
    (mkFile (File info) c)
  = Done (subEntries, None) ->
  Nef.ProcessFile w n info = Done (r, e, [call]) ->
  call_data call
  = sub (mkFile (File info) c) (last_value 0x0201 subEntries 0)
      (Z.to_nat (last_value 0x0202 subEntries 0)).
Proof.
  intros Hopen Hh Hroot Htag Hothers Hoff Hfit Hsub.
  set (f := mkFile (File info) c) in *.
  unfold Nef.ProcessFile, os_Open.
  rewrite Hopen. cbv beta iota zeta. fold f. rewrite Hh. cbn [bind].
  unfold Nef.processIfds. rewrite Hroot. cbn [bind].
  destruct (Nef.root_loop n f h (pre ++ pointer :: post) zero_jpegInfo
              zeroTime) as [[[j cd] [x|]]|] eqn:Hloop; cbn [bind];
    try discriminate.
  (* the entries before the pointer *)
  apply Nef_root_loop_before in Hloop.
  2: { intros x Hx. apply Hothers. apply in_or_app. left. exact Hx. }
  destruct Hloop as (jpeg1 & cd1 & Hloop & Hoff1 & Hlen1).
  (* the pointer *)
  cbn [Nef.root_loop] in Hloop. rewrite Htag in Hloop.
  change (0x014a =? 0x014a) with true in Hloop. cbv beta iota in Hloop.
  destruct (read_u32 (Nef.IsHostLittleEndian n) (Nef.isBigEndian h)
              (valueOffset pointer) f Hoff Hfit) as [Hread Hval].
  rewrite Hread in Hval. cbn [fst] in Hval.
  rewrite Hread in Hloop. cbv beta iota zeta in Hloop.
  rewrite Hval in Hloop. cbn [bind] in Hloop.
  rewrite Hsub in Hloop. cbn [bind] in Hloop.
  destruct (Nef.subifd_loop n f h subEntries jpeg1) as [jpeg2|] eqn:Hwalk;
    cbn [bind] in Hloop; [|discriminate].
  apply Nef_subifd_loop_last_values in Hwalk.
  destruct Hwalk as [Hoff2 Hlen2].
  (* the entries after the pointer *)
  apply Nef_root_loop_keeps_range in Hloop.
  2: { intros x Hx. apply Hothers. apply in_or_app. right. exact Hx. }
  destruct Hloop as [Hoff3 Hlen3].
  assert (Hj : offset j = last_value 0x0201 subEntries 0
               /\ length j = last_value 0x0202 subEntries 0).
  { rewrite Hoff3, Hlen3, Hoff2, Hlen2, Hoff1, Hlen1. split; reflexivity. }
  destruct Hj as [Hjo Hjl].
  destruct (length j <=? 0); [discriminate|].
  destruct (Nef.decodeAndWriteJpeg w n f j _ _) as [[[path ew] cs]|]
    eqn:Hdec; cbn [bind]; [|discriminate].
  apply Nef_decodeAndWriteJpeg_inv in Hdec.
  destruct Hdec as (_ & [(-> & _) | (_ & _ & _ & -> & _)]).
  - destruct ew; discriminate.
  - rewrite Hjo, Hjl.
    destruct ew; intros H; injection H as _ _ <-; reflexivity.
Qed.

(** The Nikon sample: the pointer at 22 leads to SubIFD 0 at 26, which
    gives offset 52 and length 2. *)
Lemma Nef_ProcessFile_extracts_SubIFD_strip_witness :
  [xff; xd8]
  = sub (mkFile "j.nef" nef_with_jpeg)
      (last_value 0x0201
         [mkIfdEntry 0x0201 4 1 52; mkIfdEntry 0x0202 4 1 2] 0)
      (Z.to_nat
         (last_value 0x0202
            [mkIfdEntry 0x0201 4 1 52; mkIfdEntry 0x0202 4 1 2] 0)).
Proof.
  refine (Nef_ProcessFile_extracts_SubIFD_strip
            (one_file_world "j.nef" nef_with_jpeg (fun _ _ _ => None))
            (Nef.mkNefParser true)
            (mkRawFileInfo "j.nef" "out/" 50 1) nef_with_jpeg
            (Nef.mkNefHeader false 42 8) None
            [] [] [mkIfdEntry 0x0201 4 1 52; mkIfdEntry 0x0202 4 1 2]
            (mkIfdEntry 0x014a 4 1 22)
            (mkRawFile zeroTime "j.nef" "out/j.nef_extracted.jpg" 0)
            None
            (mkCodecCall [xff; xd8] 50 "out/j.nef_extracted.jpg")
            _ _ _ _ _ _ _ _ _).
  - reflexivity.
  - vm_compute. reflexivity.
  - vm_compute. reflexivity.
  - reflexivity.
  - intros x [].
  - cbn. lia.
  - cbn. lia.
  - vm_compute. reflexivity.
  - vm_compute. reflexivity.
Defined.

(** ** A resolution entry that points outside a Canon file *)

Lemma Cr2_root_loop_keeps_error (n : Cr2.Cr2Parser) (f : os_File)
    (h : Cr2.cr2Header) (post : list ifdEntry) :
  (forall x, In x post -> tag x <> 0x011a /\ tag x <> 0x011b) ->
  forall jpeg cDate err0 j t err,
    err0 <> None ->
    Cr2.root_loop n f h post jpeg cDate err0 = Done (j, t, err) ->
    err <> None.
Proof.
  induction post as [|entry post IH]; intros Htags jpeg cDate err0 j t err Herr.
  - cbn. intros H. injection H as _ _ <-. exact Herr.
  - destruct (Htags entry (or_introl eq_refl)) as [Na Nb].
    assert (Hpost : forall x, In x post -> tag x <> 0x011a /\ tag x <> 0x011b)
      by (intros x Hx; apply Htags; right; exact Hx).
    specialize (IH Hpost).
    cbn [Cr2.root_loop].
    destruct (tag entry =? 0x0111); [apply IH; exact Herr|].
    destruct (tag entry =? 0x0112); [apply IH; exact Herr|].
    destruct (tag entry =? 0x0117); [apply IH; exact Herr|].
    destruct (Z.eqb_spec (tag entry) 0x011a) as [E | _]; [contradiction|].
    destruct (Z.eqb_spec (tag entry) 0x011b) as [E | _]; [contradiction|].
    destruct (tag entry =? 0x8769); [|apply IH; exact Herr].
    destruct (processIfd _ _ _ f) as [[exifEntries [x|]]|]; cbn [bind];
      [| |discriminate].
    { intros H. injection H as _ _ <-. discriminate. }
    destruct (Cr2.exif_loop f exifEntries cDate) as [cDate'|]; cbn [bind];
      [apply IH; exact Herr | discriminate].
Qed.

Lemma Cr2_root_loop_before (n : Cr2.Cr2Parser) (f : os_File)
    (h : Cr2.cr2Header) (pre rest : list ifdEntry) :
  forall jpeg cDate err0 j t err,
    Cr2.root_loop n f h (pre ++ rest) jpeg cDate err0 = Done (j, t, err) ->
    err <> None
    \/ exists jpeg' cDate' err',
         Cr2.root_loop n f h rest jpeg' cDate' err' = Done (j, t, err).
Proof.
  induction pre as [|entry pre IH]; intros jpeg cDate err0 j t err.
  - cbn [app]. intros H. right. eauto.
  - cbn [app Cr2.root_loop].
    destruct (tag entry =? 0x0111); [apply IH|].
    destruct (tag entry =? 0x0112); [apply IH|].
    destruct (tag entry =? 0x0117); [apply IH|].
    destruct (tag entry =? 0x011a).
    { destruct (processRationalEntry _ _ _ f) as [[[[num den] r] x]|];
        cbn [bind]; [apply IH | discriminate]. }
    destruct (tag entry =? 0x011b).
    { destruct (processRationalEntry _ _ _ f) as [[[[num den] r] x]|];
        cbn [bind]; [apply IH | discriminate]. }
    destruct (tag entry =? 0x8769); [|apply IH].
    destruct (processIfd _ _ _ f) as [[exifEntries [x|]]|]; cbn [bind];
      [| |discriminate].
    { intros H. injection H as _ _ <-. left. discriminate. }
    destruct (Cr2.exif_loop f exifEntries cDate) as [cDate'|]; cbn [bind];
      [apply IH | discriminate].
Qed.

Lemma processRationalEntry_outside (hostLe fileBe : bool) (off : Z)
    (f : os_File) :
  0 <= off < 2 ^ 32 -> flen f < off + 8 ->
  exists num den r e,
    processRationalEntry hostLe fileBe off f = Done (num, den, r, Some e).
Proof.
  intros Hoff Hout. rewrite processRationalEntry_values by lia.
  pose proof (readField_error_iff (off + 4) 4 f ltac:(lia)) as Herr.
  destruct (snd (readField (off + 4) 4 f)) as [e|].
  - eauto.
  - exfalso. assert (H : 0 <= off + 4 /\ (4 = 0 \/ off + 4 + 4 <= flen f))
      by (apply Herr; reflexivity). lia.
Qed.

(** X19. A resolution entry that cannot be read stops the extraction of
    a Canon file: when the last XResolution or YResolution entry
    (0x011a, 0x011b) of the root directory points at a rational whose
    eight bytes do not lie inside the file, [Cr2Parser.ProcessFile]
    returns the unpopulated result with a nil error and does not invoke
    the codec, whatever the other entries say (unless a date of the
    EXIF directory makes it panic). *)
Theorem Cr2_ProcessFile_unreadable_resolution (w : World)
    (n : Cr2.Cr2Parser) (info : RawFileInfo) (c : list byte)
    (h : Cr2.cr2Header) (eh : option error)
    (pre post : list ifdEntry) (res : ifdEntry) :
  fs w (File info) = Some c ->
  Cr2.processHeader n (mkFile (File info) c) = Done (h, eh) ->
  processIfd (Cr2.hostLe n) (Cr2.isBigEndian h) (Cr2.tiffOffset h)
    (mkFile (File info) c) = Done (pre ++ res :: post, None) ->
  tag res = 0x011a \/ tag res = 0x011b ->
  (forall x, In x post -> tag x <> 0x011a /\ tag x <> 0x011b) ->
  0 <= valueOffset res < 2 ^ 32 ->
  flen (mkFile (File info) c) < valueOffset res + 8 ->
  (exists p, Cr2.ProcessFile w n info = Panicked p)
  \/ Cr2.ProcessFile w n info = Done (zero_RawFile, None, []).
Proof.
  intros Hopen Hh Hroot Htag Hpost Hoff Hout.
  set (f := mkFile (File info) c) in *.
  unfold Cr2.ProcessFile, os_Open.
  rewrite Hopen. cbv beta iota zeta. fold f. rewrite Hh. cbn [bind].
  unfold Cr2.processIfds. rewrite Hroot. cbn [bind].
  destruct (Cr2.root_loop n f h (pre ++ res :: post) zero_jpegInfo
              zeroTime None) as [[[j cd] err]|p] eqn:Hloop; cbn [bind].
  2: { left. eauto. }
  right.
  assert (Herr : err <> None).
  { apply Cr2_root_loop_before in Hloop.
    destruct Hloop as [Hbad | (jpeg' & cDate' & err' & Hloop)];
      [exact Hbad|].
    destruct (processRationalEntry_outside (Cr2.hostLe n)
                (Cr2.isBigEndian h) (valueOffset res) f Hoff Hout)
      as (num & den & r & e & Hrat).
    cbn [Cr2.root_loop] in Hloop.
    destruct Htag as [E | E]; rewrite E in Hloop;
      cbn [Z.eqb Pos.eqb] in Hloop; rewrite Hrat in Hloop;
      cbn [bind] in Hloop;
      apply Cr2_root_loop_keeps_error in Hloop;
      solve [exact Hloop | exact Hpost | discriminate]. }
  destruct err as [x|]; [reflexivity | contradiction].
Qed.

(** A Canon file whose root directory holds an XResolution entry that
    points at the end of the file. *)
Lemma Cr2_ProcessFile_unreadable_resolution_witness :
  Cr2.ProcessFile
    (one_file_world "r.cr2"
       [x49; x49; x2a; x00; x10; x00; x00; x00; x43; x52; x02; x00;
        x00; x00; x00; x00;
        x01; x00;
        x1a; x01; x05; x00; x01; x00; x00; x00; x1e; x00; x00; x00]
       (fun _ _ _ => None))
    (Cr2.mkCr2Parser (mkRawParser true)) (mkRawFileInfo "r.cr2" "out/" 50 1)
  = Done (zero_RawFile, None, []).
Proof.
  destruct (Cr2_ProcessFile_unreadable_resolution
              (one_file_world "r.cr2"
                 [x49; x49; x2a; x00; x10; x00; x00; x00; x43; x52; x02; x00;
                  x00; x00; x00; x00;
                  x01; x00;
                  x1a; x01; x05; x00; x01; x00; x00; x00; x1e; x00; x00; x00]
                 (fun _ _ _ => None))
              (Cr2.mkCr2Parser (mkRawParser true))
              (mkRawFileInfo "r.cr2" "out/" 50 1)
              [x49; x49; x2a; x00; x10; x00; x00; x00; x43; x52; x02; x00;
               x00; x00; x00; x00;
               x01; x00;
               x1a; x01; x05; x00; x01; x00; x00; x00; x1e; x00; x00; x00]
              (Cr2.mkCr2Header false 42 "CR" 2 0 16) None
              [] [] (mkIfdEntry 0x011a 5 1 30))
    as [(p & Hp) | Hdone].
  - reflexivity.
  - vm_compute. reflexivity.
  - vm_compute. reflexivity.
  - left. reflexivity.
  - intros x [].
  - cbn. lia.
  - cbn. lia.
  - vm_compute in Hp. discriminate.
  - exact Hdone.
Defined.
